(** * candyKV: a shallow embedding of the store, the sorted-set index,
      the RESP request parser and the connection handler

    The Go sources are embedded function by function.  Conventions:

    - a Go [string] is a [string] (a sequence of bytes); [<] on strings is
      [String.ltb], the byte-wise lexicographic order;
    - a [float64] is a primitive [float] (IEEE 754 binary64, as in Go);
    - a [map] is a [gmap]; a slice indexed in place is a [list] with stdpp's
      lookup and insert, and an index out of range is a [Panic];
    - a pointer to a skip-list node is an index into the list of nodes
      allocated so far ([None] is the nil pointer);
    - a [for] loop that follows pointers runs on fuel; running out of fuel
      is [Diverges], the model of a loop that does not end;
    - [time.Time] and [time.Duration] are nanosecond counts in [Z]; the clock
      is an argument [now] of every operation that reads it;
    - Go's [int] counters (lengths, counts of keys) are [Z] or [nat]: none of
      them can leave the 64-bit range, being bounded by the size of a slice. *)

From Stdlib Require Import ZArith String Ascii List Floats Bool Lia.
From stdpp Require Import gmap strings list fin_maps pretty sorting.

Set Warnings "-register-all,-clear-no-such-hyp".

(** ** Outcomes of a call *)

Inductive outcome (A : Type) : Type :=
| Done (a : A)
| Panic
| Diverges.
Arguments Done {A} a.
Arguments Panic {A}.
Arguments Diverges {A}.

Definition obind {A B : Type} (x : outcome A) (f : A → outcome B) : outcome B :=
  match x with
  | Done a => f a
  | Panic => Panic
  | Diverges => Diverges
  end.

Notation "x ←← y ; z" := (obind y (λ x, z))
  (at level 20, y at level 100, z at level 200, only parsing).
Notation "' x ←← y ; z" := (obind y (λ x, z))
  (at level 20, x pattern, y at level 100, z at level 200, only parsing).

(** [s[i]] on a slice: an index out of range panics. *)
Definition index {A : Type} (l : list A) (i : nat) : outcome A :=
  match l !! i with
  | Some a => Done a
  | None => Panic
  end.

(** [s[i] = x] on a slice. *)
Definition assign {A : Type} (l : list A) (i : nat) (x : A) : outcome (list A) :=
  if decide (i < length l) then Done (<[i := x]> l) else Panic.

(** ** internal/store/skiplist.go *)

Definition maxLevel : nat := 32.

(** A pointer to a node: its index in the memory of the list. *)
Abbreviation ptr := nat (only parsing).

Record skiplistNode : Type := mkNode {
  member : string;
  score : float;
  forward : list (option ptr);
  backward : option ptr;
  level : nat
}.

(** [nodes] is the memory the list lives in: every node allocated for this
    list, the header first.  Nodes unlinked by [delete] stay in it,
    unreachable, as they do in Go until they are collected. *)
Record skiplist : Type := mkSkiplist {
  nodes : list skiplistNode;
  sl_head : ptr;
  sl_tail : option ptr;
  sl_length : Z;
  sl_level : nat
}.

Definition newSkiplist : skiplist :=
  let header := {| member := ""; score := 0%float;
                   forward := replicate maxLevel None;
                   backward := None; level := maxLevel |} in
  {| nodes := [header]; sl_head := 0; sl_tail := None;
     sl_length := 0; sl_level := 1 |}.

(** [*p] for a node pointer. *)
Definition deref (h : list skiplistNode) (p : ptr) : outcome skiplistNode :=
  index h p.

Definition set_forward (n : skiplistNode) (f : list (option ptr)) : skiplistNode :=
  {| member := member n; score := score n; forward := f;
     backward := backward n; level := level n |}.

Definition set_backward (n : skiplistNode) (b : option ptr) : skiplistNode :=
  {| member := member n; score := score n; forward := forward n;
     backward := b; level := level n |}.

Definition set_score (n : skiplistNode) (s : float) : skiplistNode :=
  {| member := member n; score := s; forward := forward n;
     backward := backward n; level := level n |}.

(** [p.forward[i] = q] *)
Definition write_forward (h : list skiplistNode) (p : ptr) (i : nat) (q : option ptr)
  : outcome (list skiplistNode) :=
  n ←← deref h p;
  f ←← assign (forward n) i q;
  Done (<[p := set_forward n f]> h).

(** [p.backward = q] *)
Definition write_backward (h : list skiplistNode) (p : ptr) (q : option ptr)
  : outcome (list skiplistNode) :=
  n ←← deref h p;
  Done (<[p := set_backward n q]> h).

(** [p.score = s] *)
Definition write_score (h : list skiplistNode) (p : ptr) (s : float)
  : outcome (list skiplistNode) :=
  n ←← deref h p;
  Done (<[p := set_score n s]> h).

(** The source of randomness: [coins k] tells whether the [k]-th call of
    [rand.Float64()] returned a value below [probability].  The number of
    calls made so far is threaded through the operations as [rng]. *)
Section Skiplist.
Variable coins : nat → bool.

Fixpoint randomLevel_loop (n : nat) (lvl : nat) (rng : nat) : nat * nat :=
  match n with
  | O => (lvl, rng)
  | S n' =>
    if decide (lvl < maxLevel) then
      if coins rng then randomLevel_loop n' (S lvl) (S rng)
      else (lvl, S rng)
    else (lvl, rng)
  end.

(** The loop runs at most [maxLevel] times: the level grows at each turn. *)
Definition randomLevel (rng : nat) : nat * nat :=
  randomLevel_loop maxLevel 1 rng.

(** The inner loop of the searches: follow the level-[i] pointers while the
    next node satisfies [P]. *)
Fixpoint walk (fuel : nat) (h : list skiplistNode) (P : skiplistNode → bool)
    (i : nat) (current : ptr) : outcome ptr :=
  match fuel with
  | O => Diverges
  | S fuel' =>
    n ←← deref h current;
    nx ←← index (forward n) i;
    match nx with
    | None => Done current
    | Some q =>
      nq ←← deref h q;
      if P nq then walk fuel' h P i q else Done current
    end
  end.

(** Fuel of the pointer-following loops: a chain without a cycle visits a
    node at most once. *)
Definition chain_fuel (h : list skiplistNode) : nat := S (length h).

(** [for i := lvl - 1; i >= 0; i-- { for ... { current = current.forward[i] };
    update[i] = current }] *)
Fixpoint search (h : list skiplistNode) (P : skiplistNode → bool) (lvl : nat)
    (current : ptr) (update : list (option ptr))
  : outcome (ptr * list (option ptr)) :=
  match lvl with
  | O => Done (current, update)
  | S i =>
    c ←← walk (chain_fuel h) h P i current;
    u ←← assign update i (Some c);
    search h P i c u
  end.

(** The condition of the search loop of [insert] and [delete] (here
    [sl_insert] and [sl_delete]). *)
Definition less (s : float) (m : string) (n : skiplistNode) : bool :=
  (score n <? s)%float || ((score n =? s)%float && String.ltb (member n) m).

(** [delete]: the loop that unlinks [current] level by level. *)
Fixpoint unlink (n : nat) (i : nat) (h : list skiplistNode)
    (update : list (option ptr)) (current : ptr) : outcome (list skiplistNode) :=
  match n with
  | O => Done h
  | S n' =>
    u ←← index update i;
    match u with
    | None => Panic
    | Some pu =>
      nu ←← deref h pu;
      f ←← index (forward nu) i;
      if decide (f = Some current) then
        nc ←← deref h current;
        fc ←← index (forward nc) i;
        h' ←← write_forward h pu i fc;
        unlink n' (S i) h' update current
      else Done h
    end
  end.

(** [for sl.level > 1 && sl.head.forward[sl.level-1] == nil { sl.level-- }] *)
Fixpoint shrink (h : list skiplistNode) (hd : ptr) (lvl : nat) : outcome nat :=
  match lvl with
  | O => Done O
  | S l =>
    if decide (1 < lvl) then
      nh ←← deref h hd;
      f ←← index (forward nh) l;
      match f with
      | None => shrink h hd l
      | Some _ => Done lvl
      end
    else Done lvl
  end.

Definition sl_delete (sl : skiplist) (s : float) (m : string) : outcome (bool * skiplist) :=
  let update := replicate maxLevel None in
  '(c, update) ←← search (nodes sl) (less s m) (sl_level sl) (sl_head sl) update;
  nc ←← deref (nodes sl) c;
  current ←← index (forward nc) 0;
  match current with
  | None => Done (false, sl)
  | Some cur =>
    ncur ←← deref (nodes sl) cur;
    if negb (String.eqb (member ncur) m) then Done (false, sl)
    else
      h ←← unlink (sl_level sl) 0 (nodes sl) update cur;
      ncur' ←← deref h cur;
      nxt ←← index (forward ncur') 0;
      '(h, tl) ←← match nxt with
                  | Some q =>
                    h' ←← write_backward h q (backward ncur');
                    Done (h', sl_tail sl)
                  | None => Done (h, backward ncur')
                  end;
      lvl ←← shrink h (sl_head sl) (sl_level sl);
      Done (true, {| nodes := h; sl_head := sl_head sl; sl_tail := tl;
                     sl_length := sl_length sl - 1; sl_level := lvl |})
  end.

(** [insert]: [for i := sl.level; i < level; i++ { update[i] = sl.head }] *)
Fixpoint raise (n : nat) (i : nat) (hd : ptr) (update : list (option ptr))
  : outcome (list (option ptr)) :=
  match n with
  | O => Done update
  | S n' =>
    u ←← assign update i (Some hd);
    raise n' (S i) hd u
  end.

(** [insert]: [for i := 0; i < level; i++ { newNode.forward[i] =
    update[i].forward[i]; update[i].forward[i] = newNode }] *)
Fixpoint link (n : nat) (i : nat) (h : list skiplistNode)
    (update : list (option ptr)) (newNode : ptr) : outcome (list skiplistNode) :=
  match n with
  | O => Done h
  | S n' =>
    u ←← index update i;
    match u with
    | None => Panic
    | Some pu =>
      nu ←← deref h pu;
      f ←← index (forward nu) i;
      h1 ←← write_forward h newNode i f;
      h2 ←← write_forward h1 pu i (Some newNode);
      link n' (S i) h2 update newNode
    end
  end.

(** The part of [insert] after the test for a present member: allocate and
    link a new node. *)
Definition insert_new (sl : skiplist) (rng : nat) (update : list (option ptr))
    (s : float) (m : string) : outcome (bool * skiplist * nat) :=
  let '(lvl, rng) := randomLevel rng in
  '(update, sllevel) ←←
     (if decide (sl_level sl < lvl) then
        u ←← raise (lvl - sl_level sl) (sl_level sl) (sl_head sl) update;
        Done (u, lvl)
      else Done (update, sl_level sl));
  let newNode := length (nodes sl) in
  let h := nodes sl ++ [ {| member := m; score := s;
                            forward := replicate lvl None;
                            backward := None; level := lvl |} ] in
  h ←← link lvl 0 h update newNode;
  u0 ←← index update 0;
  h ←← (if decide (u0 = Some (sl_head sl))
        then write_backward h newNode None
        else write_backward h newNode u0);
  nn ←← deref h newNode;
  f0 ←← index (forward nn) 0;
  '(h, tl) ←← match f0 with
              | Some q =>
                h' ←← write_backward h q (Some newNode);
                Done (h', sl_tail sl)
              | None => Done (h, Some newNode)
              end;
  Done (true, {| nodes := h; sl_head := sl_head sl; sl_tail := tl;
                 sl_length := sl_length sl + 1; sl_level := sllevel |}, rng).

(** [insert] calls itself after removing a member whose score changes;
    [depth] bounds the nesting of these calls. *)
Fixpoint insert_rec (depth : nat) (sl : skiplist) (rng : nat) (s : float) (m : string)
  : outcome (bool * skiplist * nat) :=
  match depth with
  | O => Diverges
  | S depth' =>
    let update := replicate maxLevel None in
    '(c, update) ←← search (nodes sl) (less s m) (sl_level sl) (sl_head sl) update;
    nc ←← deref (nodes sl) c;
    current ←← index (forward nc) 0;
    found ←← match current with
             | None => Done None
             | Some cur =>
               ncur ←← deref (nodes sl) cur;
               Done (if String.eqb (member ncur) m then Some (cur, ncur) else None)
             end;
    match found with
    | Some (cur, ncur) =>
      let oldScore := score ncur in
      h ←← write_score (nodes sl) cur s;
      let sl1 := {| nodes := h; sl_head := sl_head sl; sl_tail := sl_tail sl;
                    sl_length := sl_length sl; sl_level := sl_level sl |} in
      if (oldScore =? s)%float then Done (false, sl1, rng)
      else
        '(_, sl2) ←← sl_delete sl1 oldScore m;
        insert_rec depth' sl2 rng s m
    | None => insert_new sl rng update s m
    end
  end.

(** Every nested call but the last changes or removes a node of the list,
    at most three times per node (see [insert_total]). *)
Definition insert_depth (sl : skiplist) : nat := 3 * length (nodes sl) + 2.

Definition sl_insert (sl : skiplist) (rng : nat) (s : float) (m : string)
  : outcome (bool * skiplist * nat) :=
  insert_rec (insert_depth sl) sl rng s m.

(** Following the level-0 pointers from [current]: the nodes met, at most
    [n] of them. *)
Fixpoint take_chain (n : nat) (h : list skiplistNode) (current : option ptr)
  : outcome (list skiplistNode) :=
  match n, current with
  | O, _ => Done []
  | _, None => Done []
  | S n', Some p =>
    np ←← deref h p;
    f ←← index (forward np) 0;
    r ←← take_chain n' h f;
    Done (np :: r)
  end.

(** [for i := 0; i < start && current != nil; i++ { current = current.forward[0] }] *)
Fixpoint skip_chain (n : nat) (h : list skiplistNode) (current : option ptr)
  : outcome (option ptr) :=
  match n, current with
  | O, _ => Done current
  | _, None => Done None
  | S n', Some p =>
    np ←← deref h p;
    f ←← index (forward np) 0;
    skip_chain n' h f
  end.

Definition getRange (sl : skiplist) (start stop : Z) : outcome (list skiplistNode) :=
  let start := if (start <? 0)%Z then (sl_length sl + start)%Z else start in
  let stop := if (stop <? 0)%Z then (sl_length sl + stop)%Z else stop in
  let start := if (start <? 0)%Z then 0%Z else start in
  let stop := if (stop >=? sl_length sl)%Z then (sl_length sl - 1)%Z else stop in
  if (start >? stop)%Z then Done []
  else
    nh ←← deref (nodes sl) (sl_head sl);
    f ←← index (forward nh) 0;
    current ←← skip_chain (Z.to_nat start) (nodes sl) f;
    take_chain (Z.to_nat (stop - start + 1)) (nodes sl) current.

End Skiplist.


(** ** Go library functions used by the sources *)

(** A Go [error] is its message: the handler compares errors through
    [err.Error()]. *)
Inductive result (A : Type) : Type :=
| Ret (a : A)
| Err (msg : string).
Arguments Ret {A} a.
Arguments Err {A} msg.

Definition byte_val (c : ascii) : nat := nat_of_ascii c.

Definition upper_byte (c : ascii) : ascii :=
  if decide (97 ≤ byte_val c ≤ 122) then ascii_of_nat (byte_val c - 32) else c.

(** [strings.ToUpper] on the ASCII letters.  (Go also maps the letters
    beyond ASCII of a UTF-8 string; option and command names are ASCII.) *)
Fixpoint ToUpper (s : string) : string :=
  match s with
  | EmptyString => EmptyString
  | String c s' => String (upper_byte c) (ToUpper s')
  end.

Definition digit (c : ascii) : option Z :=
  if decide (48 ≤ byte_val c ≤ 57) then Some (Z.of_nat (byte_val c - 48)) else None.

Fixpoint digits (s : string) (acc : Z) : option Z :=
  match s with
  | EmptyString => Some acc
  | String c s' =>
    match digit c with
    | Some d => digits s' (10 * acc + d)%Z
    | None => None
    end
  end.

Definition int64_min : Z := (- 2 ^ 63)%Z.
Definition int64_max : Z := (2 ^ 63 - 1)%Z.

(** [strconv.Atoi] (and [strconv.ParseInt(s, 10, 64)], the same function on
    a 64-bit [int]): an optional sign, at least one decimal digit, nothing
    else, and a value in the 64-bit range. *)
Definition Atoi (s : string) : option Z :=
  let '(neg, body) :=
    match s with
    | String c s' =>
      if Ascii.eqb c "-" then (true, s')
      else if Ascii.eqb c "+" then (false, s')
      else (false, s)
    | EmptyString => (false, s)
    end in
  match body with
  | EmptyString => None
  | _ =>
    match digits body 0 with
    | Some v =>
      let v := if neg : bool then (- v)%Z else v in
      if decide (int64_min ≤ v ≤ int64_max)%Z then Some v else None
    | None => None
    end
  end.

(** 64-bit signed arithmetic wraps around. *)
Definition wrap64 (z : Z) : Z := ((z + 2 ^ 63) mod 2 ^ 64 - 2 ^ 63)%Z.

(** [t.Sub(u)] saturates at the ends of the range of [time.Duration]. *)
Definition sat64 (z : Z) : Z := Z.max int64_min (Z.min int64_max z).

Definition Second : Z := 1000000000%Z.
Definition Millisecond : Z := 1000000%Z.

(** [time.Until(t)], with the clock at [now]. *)
Definition Until (now t : Z) : Z := sat64 (t - now).

(** [int(d.Seconds())]: the whole seconds of [d], rounded toward zero.
    ([Seconds] goes through [float64]; the quotient is what it yields for
    every duration below 2^23 seconds.) *)
Definition whole_seconds (d : Z) : Z := Z.quot d Second.

(** [string(b)] for a byte [b]: the UTF-8 encoding of the code point [b]. *)
Definition string_of_byte (c : ascii) : string :=
  let n := byte_val c in
  if decide (n < 128) then String c EmptyString
  else String (ascii_of_nat (192 + n / 64))
         (String (ascii_of_nat (128 + n mod 64)) EmptyString).

(** ** internal/commands/options *)

Record Option_ : Type := mkOption {
  Name : string;
  Description : string;
  Incompatible : list string
}.

Record Options : Type := mkOptions {
  options : gmap string Option_;
  active : gmap string bool
}.

Definition NewOptions : Options := {| options := ∅; active := ∅ |}.

Definition RegisterOption (o : Options) (name description : string)
    (incompatible : list string) : Options :=
  {| options := <[name := {| Name := name; Description := description;
                             Incompatible := incompatible |}]> (options o);
     active := active o |}.

(** [Options.Set].  The source ranges over the map [active] in an order
    that Go leaves unspecified; whether a conflict is found does not depend
    on the order, the option named in the message may. *)
Definition Options_Set (o : Options) (name : string) : result Options :=
  let name := ToUpper name in
  match options o !! name with
  | None => Err ("unknown option: " +:+ name)
  | Some opt =>
    let conflicts :=
      filter (λ activeOpt,
                existsb (λ incompatible, String.eqb (ToUpper incompatible) activeOpt)
                        (Incompatible opt) = true)
             (map fst (map_to_list (active o))) in
    match conflicts with
    | activeOpt :: _ =>
      Err ("option " +:+ name +:+ " is incompatible with " +:+ activeOpt)
    | [] => Ret {| options := options o; active := <[name := true]> (active o) |}
    end
  end.

(** [active[name]] on a map of booleans: false when the key is missing. *)
Definition IsSet (o : Options) (name : string) : bool :=
  default false (active o !! ToUpper name).

(** zadd_options.go.  [ZAddOptions] embeds [*Options] and nothing else. *)
Definition NewZAddOptions : Options :=
  let o := NewOptions in
  let o := RegisterOption o "NX" "Only add new elements, don't update already existing elements" ["XX"] in
  let o := RegisterOption o "XX" "Only update elements that already exist, don't add new elements" ["NX"] in
  let o := RegisterOption o "GT" "Only update existing elements if the new score is greater than the current score" ["LT"] in
  let o := RegisterOption o "LT" "Only update existing elements if the new score is less than the current score" ["GT"] in
  let o := RegisterOption o "CH" "Modify the return value to return the number of changed elements instead of new elements" [] in
  RegisterOption o "INCR" "Increment the score of an element instead of setting it" ["NX"; "XX"; "GT"; "LT"].

Definition IsNX (o : Options) : bool := IsSet o "NX".
Definition IsXX (o : Options) : bool := IsSet o "XX".
Definition IsGT (o : Options) : bool := IsSet o "GT".
Definition IsLT (o : Options) : bool := IsSet o "LT".
Definition IsCH (o : Options) : bool := IsSet o "CH".
Definition IsINCR (o : Options) : bool := IsSet o "INCR".

(** expire_options.go.  [ExpireOptions] embeds [*Options] and nothing else. *)
Definition NewExpireOptions : Options :=
  let o := NewOptions in
  let o := RegisterOption o "NX" "Set expiry only if the key has no expiry" ["XX"; "GT"; "LT"] in
  let o := RegisterOption o "XX" "Set expiry only if the key has an existing expiry" ["NX"; "GT"; "LT"] in
  let o := RegisterOption o "GT" "Set expiry only if the new expiry is greater than current one" ["NX"; "XX"; "LT"] in
  RegisterOption o "LT" "Set expiry only if the new expiry is less than current one" ["NX"; "XX"; "GT"].

(** set_options.go *)
Record SetOptions : Type := mkSetOptions {
  set_opts : Options;
  ExpiryTime : Z;
  ExpiryType : string
}.

Definition NewSetOptions : SetOptions :=
  let o := NewOptions in
  let o := RegisterOption o "NX" "Only set the key if it does not already exist" ["XX"] in
  let o := RegisterOption o "XX" "Only set the key if it already exists" ["NX"] in
  let o := RegisterOption o "GET" "Return the old string stored at key, or nil if key did not exist" [] in
  {| set_opts := o; ExpiryTime := 0; ExpiryType := "" |}.

Definition IsGET (o : Options) : bool := IsSet o "GET".
Definition IsKEEPTTL (o : SetOptions) : bool := String.eqb (ExpiryType o) "KEEPTTL".

Definition SetOptions_Set (o : SetOptions) (name : string) : result SetOptions :=
  match Options_Set (set_opts o) name with
  | Ret o' => Ret {| set_opts := o'; ExpiryTime := ExpiryTime o; ExpiryType := ExpiryType o |}
  | Err e => Err e
  end.

(** The seconds from year 1, where [time.Time] counts from, to 1970.
    [time.Unix(sec, 0)] adds them to [sec] in 64 bits. *)
Definition unixToInternal : Z := 62135596800%Z.

Definition SetExpiry (now : Z) (o : SetOptions) (expiryType : string) (value : Z)
  : result SetOptions :=
  let upd t ty := Ret {| set_opts := set_opts o; ExpiryTime := t; ExpiryType := ty |} in
  if String.eqb expiryType "EX" then upd (now + wrap64 (value * Second))%Z "EX"
  else if String.eqb expiryType "PX" then upd (now + wrap64 (value * Millisecond))%Z "PX"
  else if String.eqb expiryType "EXAT" then
    upd ((wrap64 (value + unixToInternal) - unixToInternal) * Second)%Z "EXAT"
  else if String.eqb expiryType "PXAT" then upd (wrap64 (value * Millisecond)) "PXAT"
  else if String.eqb expiryType "KEEPTTL" then upd (ExpiryTime o) "KEEPTTL"
  else Err ("invalid expiry type: " +:+ expiryType).

(** zrange_options.go *)
Record ZRangeOptions : Type := mkZRangeOptions {
  zrange_opts : Options;
  RangeType : string;
  Rev : bool;
  Limit_Offset : Z;
  Limit_Count : Z;
  WithScores : bool
}.

Definition NewZRangeOptions : ZRangeOptions :=
  let o := NewOptions in
  let o := RegisterOption o "BYSCORE" "Return elements with scores between min and max" ["BYLEX"] in
  let o := RegisterOption o "BYLEX" "Return elements with lexicographical ordering" ["BYSCORE"] in
  let o := RegisterOption o "REV" "Reverse the order of returned elements" [] in
  let o := RegisterOption o "WITHSCORES" "Return scores along with members" [] in
  {| zrange_opts := o; RangeType := ""; Rev := false;
     Limit_Offset := 0; Limit_Count := 0; WithScores := false |}.

Definition IsByScore (o : ZRangeOptions) : bool := String.eqb (RangeType o) "BYSCORE".
Definition IsByLex (o : ZRangeOptions) : bool := String.eqb (RangeType o) "BYLEX".
Definition IsRev (o : ZRangeOptions) : bool := Rev o.
Definition IsWithScores (o : ZRangeOptions) : bool := WithScores o.

Definition SetRangeType (o : ZRangeOptions) (rangeType : string) : result ZRangeOptions :=
  if String.eqb rangeType "BYSCORE" || String.eqb rangeType "BYLEX" then
    Ret {| zrange_opts := zrange_opts o; RangeType := rangeType; Rev := Rev o;
           Limit_Offset := Limit_Offset o; Limit_Count := Limit_Count o;
           WithScores := WithScores o |}
  else Err ("invalid range type: " +:+ rangeType).

Definition SetLimit (o : ZRangeOptions) (offset count : Z) : result ZRangeOptions :=
  if (offset <? 0)%Z then Err "offset must be non-negative"
  else if (count <? 0)%Z then Err "count must be non-negative"
  else Ret {| zrange_opts := zrange_opts o; RangeType := RangeType o; Rev := Rev o;
              Limit_Offset := offset; Limit_Count := count;
              WithScores := WithScores o |}.

Definition Set_Rev (o : ZRangeOptions) : ZRangeOptions :=
  {| zrange_opts := zrange_opts o; RangeType := RangeType o; Rev := true;
     Limit_Offset := Limit_Offset o; Limit_Count := Limit_Count o;
     WithScores := WithScores o |}.

Definition Set_WithScores (o : ZRangeOptions) : ZRangeOptions :=
  {| zrange_opts := zrange_opts o; RangeType := RangeType o; Rev := Rev o;
     Limit_Offset := Limit_Offset o; Limit_Count := Limit_Count o;
     WithScores := true |}.

(** ** internal/store: the sorted set and the memory store *)

Record ScoreMember : Type := mkScoreMember {
  Score : float;
  Member : string
}.

Record SortedSet : Type := mkSortedSet {
  dict : gmap string float;
  sl : skiplist;
  scores : list float;
  members : list string
}.

(** What a command returns as [interface{}]. *)
Inductive reply : Type :=
| Nil
| Str (s : string)
| Int (z : Z)
| Float (f : float)
| SimpleString (s : string)
| Strs (l : list string)
| Arr (l : list reply)
| ZSet (ss : SortedSet).

(** What a key holds. *)
Inductive value : Type :=
| VString (s : string)
| VSortedSet (ss : SortedSet).

Record MemoryStore : Type := mkMemoryStore {
  data : gmap string value;
  expires : gmap string Z
}.

Definition NewMemoryStore : MemoryStore := {| data := ∅; expires := ∅ |}.

Definition reply_of_value (v : value) : reply :=
  match v with
  | VString s => Str s
  | VSortedSet ss => ZSet ss
  end.

Section Store.
Variable coins : nat → bool.
(** [regexp.MatchString pattern s]: [None] when the pattern does not compile. *)
Variable regexp_MatchString : string → string → option bool.

Definition Add (s : SortedSet) (rng : nat) (member : string) (score : float)
  : outcome (SortedSet * nat) :=
  '(_, sl', rng) ←← sl_insert coins (sl s) rng score member;
  Done ({| dict := <[member := score]> (dict s); sl := sl';
           scores := scores s ++ [score]; members := members s ++ [member] |}, rng).

Definition node_items (withScores : bool) (n : skiplistNode) : list reply :=
  if withScores then [Str (member n); Float (score n)] else [Str (member n)].

Definition Range (s : SortedSet) (start stop : Z) (withScores : bool)
  : outcome (list reply) :=
  if decide (size (dict s) = 0) then Done []
  else
    ns ←← getRange (sl s) start stop;
    Done (concat (map (node_items withScores) ns)).

(** The second loop of each branch of [RangeByScore]: collect the nodes met
    along the level-0 pointers while [keep] holds. *)
Fixpoint collect (fuel : nat) (h : list skiplistNode) (keep : skiplistNode → bool)
    (withScores : bool) (current : option ptr) : outcome (list reply) :=
  match fuel with
  | O => Diverges
  | S fuel' =>
    match current with
    | None => Done []
    | Some p =>
      np ←← deref h p;
      if keep np then
        f ←← index (forward np) 0;
        r ←← collect fuel' h keep withScores f;
        Done (node_items withScores np ++ r)
      else Done []
    end
  end.

Definition RangeByScore (s : SortedSet) (min max : float) (rev withScores : bool)
  : outcome (list reply) :=
  if decide (size (dict s) = 0) then Done []
  else
    let h := nodes (sl s) in
    let update := replicate maxLevel None in
    if rev then
      '(current, _) ←← search h (λ n, (max <? score n)%float)
                         (sl_level (sl s)) (sl_head (sl s)) update;
      nc ←← deref h current;
      f ←← index (forward nc) 0;
      collect (chain_fuel h) h (λ n, (min <=? score n)%float) withScores f
    else
      '(current, _) ←← search h (λ n, (score n <? min)%float)
                         (sl_level (sl s)) (sl_head (sl s)) update;
      nc ←← deref h current;
      f ←← index (forward nc) 0;
      collect (chain_fuel h) h (λ n, (score n <=? max)%float) withScores f.

Definition in_lex (min max member : string) : bool :=
  String.leb min member && String.leb member max.

Definition RangeByLex (s : SortedSet) (min max : string) (rev : bool) : list reply :=
  let ms := if rev then reverse (members s) else members s in
  map Str (filter (λ member, in_lex min max member = true) ms).

Definition isExpired (s : MemoryStore) (now : Z) (key : string) : bool :=
  match expires s !! key with
  | Some expiry => (expiry <? now)%Z
  | None => false
  end.

Definition remove (s : MemoryStore) (key : string) : MemoryStore :=
  {| data := delete key (data s); expires := delete key (expires s) |}.

Definition Get (s : MemoryStore) (now : Z) (key : string) : result reply * MemoryStore :=
  if isExpired s now key then (Ret Nil, remove s key)
  else
    match data s !! key with
    | Some (VString v) => (Ret (Str v), s)
    | Some (VSortedSet _) =>
      (Err "WRONGTYPE Operation against a key holding a sorted set", s)
    | None => (Ret Nil, s)
    end.

Definition Set_ (s : MemoryStore) (key : string) (v : value) (opts : option SetOptions)
  : result reply * MemoryStore :=
  let oldValue := match data s !! key with
                  | Some val => reply_of_value val
                  | None => Nil
                  end in
  let exists_ := bool_decide (is_Some (data s !! key)) in
  if match opts with Some o => IsNX (set_opts o) && exists_ | None => false end
  then (Err "key already exists", s)
  else if match opts with Some o => IsXX (set_opts o) && negb exists_ | None => false end
  then (Err "key does not exist", s)
  else
    let d := <[key := v]> (data s) in
    let e :=
      match opts with
      | Some o =>
        if IsKEEPTTL o then
          (if bool_decide (is_Some (expires s !! key)) then expires s
           else delete key (expires s))
        else if negb (String.eqb (ExpiryType o) "") then
          <[key := ExpiryTime o]> (expires s)
        else delete key (expires s)
      | None => delete key (expires s)
      end in
    let s' := {| data := d; expires := e |} in
    if match opts with Some o => IsGET (set_opts o) | None => false end
    then (Ret oldValue, s')
    else (Ret Nil, s').

(** [Del] returns a nil error always. *)
Definition Del (s : MemoryStore) (key : string) : MemoryStore := remove s key.

Definition Expire (s : MemoryStore) (now : Z) (key : string) (ttl : Z)
    (opts : option Options) : option string * MemoryStore :=
  match data s !! key with
  | None => (Some "key does not exist", s)
  | Some _ =>
    let hasExpiry := match expires s !! key with
                     | Some expiry => negb (expiry <? now)%Z
                     | None => false
                     end in
    let currentTTL := Until now (default 0%Z (expires s !! key)) in
    let gate :=
      match opts with
      | Some o =>
        if IsNX o && hasExpiry then Some "key already has an expiry"
        else if IsXX o && negb hasExpiry then Some "key has no expiry"
        else if IsGT o && hasExpiry && (ttl <=? currentTTL)%Z
        then Some "new expiry is not greater than current one"
        else if IsLT o && hasExpiry && (ttl >=? currentTTL)%Z
        then Some "new expiry is not less than current one"
        else None
      | None => None
      end in
    match gate with
    | Some e => (Some e, s)
    | None =>
      if (ttl <=? 0)%Z then (None, remove s key)
      else (None, {| data := data s; expires := <[key := (now + ttl)%Z]> (expires s) |})
    end
  end.

Definition TTL (s : MemoryStore) (now : Z) (key : string) : Z * MemoryStore :=
  match data s !! key with
  | None => ((-2)%Z, s)
  | Some _ =>
    match expires s !! key with
    | Some expiry =>
      let remaining := Until now expiry in
      if (remaining <=? 0)%Z then ((-2)%Z, remove s key)
      else (whole_seconds remaining, s)
    | None => ((-1)%Z, s)
    end
  end.

(** [matchPattern]: the translation of a glob pattern into a regular
    expression.  [j] loop of the ['['] case: the class up to the closing
    bracket. *)
Fixpoint class_loop (fuel : nat) (pattern : string) (j : nat) (acc : string)
  : nat * string :=
  match fuel with
  | O => (j, acc)
  | S fuel' =>
    match String.get j pattern with
    | None => (j, acc)
    | Some c =>
      if Ascii.eqb c "]" then (j, acc)
      else if Ascii.eqb c "\" && bool_decide (j + 1 < String.length pattern) then
        match String.get (j + 1) pattern with
        | Some d => class_loop fuel' pattern (j + 2) (acc +:+ "\" +:+ string_of_byte d)
        | None => (j, acc)
        end
      else class_loop fuel' pattern (j + 1) (acc +:+ string_of_byte c)
    end
  end.

Definition regex_special (c : string) : bool :=
  existsb (String.eqb c) ["."; "+"; "("; ")"; "|"; "{"; "}"; "$"; "^"].

Fixpoint pattern_loop (fuel : nat) (pattern : string) (i : nat) (regexPattern : string)
  : string :=
  match fuel with
  | O => regexPattern
  | S fuel' =>
    match String.get i pattern with
    | None => regexPattern
    | Some c =>
      if Ascii.eqb c "*" then pattern_loop fuel' pattern (i + 1) (regexPattern +:+ ".*")
      else if Ascii.eqb c "?" then pattern_loop fuel' pattern (i + 1) (regexPattern +:+ ".")
      else if Ascii.eqb c "[" then
        let j := i + 1 in
        let '(j, r) :=
          if match String.get j pattern with
             | Some d => Ascii.eqb d "^"
             | None => false
             end
          then (j + 1, regexPattern +:+ "[^")
          else (j, regexPattern +:+ "[") in
        let '(j, r) := class_loop (String.length pattern) pattern j r in
        if match String.get j pattern with
           | Some d => Ascii.eqb d "]"
           | None => false
           end
        then pattern_loop fuel' pattern (j + 1) (r +:+ "]")
        else pattern_loop fuel' pattern (i + 1) (r +:+ "\[")
      else if Ascii.eqb c "\" then
        match String.get (i + 1) pattern with
        | Some d => pattern_loop fuel' pattern (i + 2) (regexPattern +:+ "\" +:+ string_of_byte d)
        | None => pattern_loop fuel' pattern (i + 1) (regexPattern +:+ "\\")
        end
      else
        let cs := string_of_byte c in
        if regex_special cs then pattern_loop fuel' pattern (i + 1) (regexPattern +:+ "\" +:+ cs)
        else pattern_loop fuel' pattern (i + 1) (regexPattern +:+ cs)
    end
  end.

Definition matchPattern (str pattern : string) : bool :=
  if String.eqb pattern "*" then true
  else
    let regexPattern := pattern_loop (String.length pattern) pattern 0 "" in
    match regexp_MatchString ("^" +:+ regexPattern +:+ "$") str with
    | Some matched => matched
    | None => false
    end.

(** [Keys]: Go ranges over the map in an unspecified order; the model lists
    the keys in the order of [map_to_list]. *)
Definition Keys (s : MemoryStore) (now : Z) (pattern : string) : list string :=
  filter (λ k, negb (isExpired s now k) && matchPattern k pattern = true)
         (map fst (map_to_list (data s))).

Definition opt_is (f : Options → bool) (opts : option Options) : bool :=
  match opts with
  | Some o => f o
  | None => false
  end.

(** The loop of [ZAdd] over the pairs. *)
Fixpoint ZAdd_loop (set : SortedSet) (rng : nat) (members : list ScoreMember)
    (opts : option Options) (changed added : Z)
  : outcome (SortedSet * nat * Z * Z) :=
  match members with
  | [] => Done (set, rng, changed, added)
  | member :: rest =>
    let oldScore := default 0%float (dict set !! Member member) in
    let exists_ := bool_decide (is_Some (dict set !! Member member)) in
    if opt_is IsNX opts && exists_ then ZAdd_loop set rng rest opts changed added
    else if opt_is IsXX opts && negb exists_ then ZAdd_loop set rng rest opts changed added
    else if opt_is IsGT opts && exists_ && (Score member <=? oldScore)%float
    then ZAdd_loop set rng rest opts changed added
    else if opt_is IsLT opts && exists_ && (oldScore <=? Score member)%float
    then ZAdd_loop set rng rest opts changed added
    else
      let added := if negb exists_ then (added + 1)%Z else added in
      let changed := if negb exists_ || negb (oldScore =? Score member)%float
                     then (changed + 1)%Z else changed in
      '(set, rng) ←← Add set rng (Member member) (Score member);
      ZAdd_loop set rng rest opts changed added
  end.

Definition wrongtype : string :=
  "WRONGTYPE Operation against a key holding the wrong kind of value".

Definition ZAdd (s : MemoryStore) (rng : nat) (key : string) (members : list ScoreMember)
    (opts : option Options) : outcome (result reply * MemoryStore * nat) :=
  match data s !! key with
  | Some (VString _) => Done (Err wrongtype, s, rng)
  | found =>
    let set := match found with
               | Some (VSortedSet ss) => ss
               | _ => {| dict := ∅; sl := newSkiplist; scores := []; members := [] |}
               end in
    (* the set is shared with the map: what the rest of the call does to it
       is seen under [key] *)
    let put set := {| data := <[key := VSortedSet set]> (data s); expires := expires s |} in
    if opt_is IsINCR opts then
      match members with
      | [member] =>
        let oldScore := default 0%float (dict set !! Member member) in
        let exists_ := bool_decide (is_Some (dict set !! Member member)) in
        if opt_is IsNX opts && exists_ then Done (Ret Nil, put set, rng)
        else if opt_is IsXX opts && negb exists_ then Done (Ret Nil, put set, rng)
        else
          let newScore := (oldScore + Score member)%float in
          '(set, rng) ←← Add set rng (Member member) newScore;
          Done (Ret (Float newScore), put set, rng)
      | _ => Done (Err "INCR option requires exactly one score-member pair", put set, rng)
      end
    else
      '(set, rng, changed, added) ←← ZAdd_loop set rng members opts 0 0;
      if opt_is IsCH opts then Done (Ret (Int changed), put set, rng)
      else Done (Ret (Int added), put set, rng)
  end.

(** [result[lo:hi]] *)
Definition slice {A : Type} (l : list A) (lo hi : Z) : list A :=
  take (Z.to_nat (hi - lo)) (drop (Z.to_nat lo) l).

Definition ZRange (s : MemoryStore) (key : string) (start stop : reply)
    (opts : option ZRangeOptions) : outcome (result (list reply)) :=
  match data s !! key with
  | None => Done (Ret [])
  | Some (VString _) => Done (Err wrongtype)
  | Some (VSortedSet zset) =>
    let withScores := match opts with Some o => IsWithScores o | None => false end in
    let limit (res : list reply) : outcome (result (list reply)) :=
      match opts with
      | Some o =>
        if (Limit_Count o >? 0)%Z then
          let multiplier := if withScores then 2%Z else 1%Z in
          let adjustedOffset := wrap64 (Limit_Offset o * multiplier) in
          let adjustedCount := wrap64 (Limit_Count o * multiplier) in
          if (adjustedOffset >=? Z.of_nat (length res))%Z then Done (Ret [])
          else
            let end_ := wrap64 (adjustedOffset + adjustedCount) in
            let end_ := if (end_ >? Z.of_nat (length res))%Z
                        then Z.of_nat (length res) else end_ in
            (* [result[adjustedOffset:end]] *)
            if (adjustedOffset <? 0)%Z || (end_ <? adjustedOffset)%Z then Panic
            else Done (Ret (slice res adjustedOffset end_))
        else Done (Ret res)
      | None => Done (Ret res)
      end in
    if match opts with Some o => IsByScore o | None => false end then
      match start, stop with
      | Float minScore, Float maxScore =>
        r ←← RangeByScore zset minScore maxScore
               (match opts with Some o => IsRev o | None => false end) withScores;
        limit r
      | Float _, _ => Done (Err "invalid score range stop")
      | _, _ => Done (Err "invalid score range start")
      end
    else if match opts with Some o => IsByLex o | None => false end then
      match start, stop with
      | Str minLex, Str maxLex =>
        limit (RangeByLex zset minLex maxLex
                 (match opts with Some o => IsRev o | None => false end))
      | Str _, _ => Done (Err "invalid lex range stop")
      | _, _ => Done (Err "invalid lex range start")
      end
    else
      match start, stop with
      | Int startIdx, Int stopIdx =>
        let setLen := Z.of_nat (size (dict zset)) in
        let startIdx := if (startIdx <? 0)%Z then (setLen + startIdx)%Z else startIdx in
        let stopIdx := if (stopIdx <? 0)%Z then (setLen + stopIdx)%Z else stopIdx in
        let startIdx := if (startIdx <? 0)%Z then 0%Z else startIdx in
        let stopIdx := if (stopIdx >=? setLen)%Z then (setLen - 1)%Z else stopIdx in
        if (startIdx >? stopIdx)%Z || (startIdx >=? setLen)%Z then Done (Ret [])
        else
          r ←← Range zset startIdx stopIdx withScores;
          limit r
      | Int _, _ => Done (Err "invalid index range stop")
      | _, _ => Done (Err "invalid index range start")
      end
  end.

End Store.

(** ** internal/commands *)

Inductive Command : Type :=
| PingCommand
| EchoCommand (message : string)
| SetCommand (Key Value : string) (Opts : option SetOptions)
| GetCommand (Key : string)
| DelCommand (Keys : list string)
| ExpireCommand (Key : string) (TTL : Z) (Opts : option Options)
| TtlCommand (Key : string)
| KeysCommand (Pattern : string)
| ZAddCommand (Key : string) (Members : list ScoreMember) (Opts : option Options)
| ZRangeCommand (Key : string) (Start Stop : reply) (Opts : option ZRangeOptions)
| CommandCommand.

Definition NewEchoCommand (args : list string) : result Command :=
  match args with
  | [_; message] => Ret (EchoCommand message)
  | _ => Err "ECHO command requires exactly 1 argument"
  end.

(** The loop of [DelCommand.Execute]: a key is deleted when [Get] returns a
    value for it.  [Get]'s error is dropped, [Del]'s is always nil. *)
Fixpoint DelCommand_loop (s : MemoryStore) (now : Z) (keys : list string) (deleted : Z)
  : Z * MemoryStore :=
  match keys with
  | [] => (deleted, s)
  | key :: rest =>
    let '(r, s) := Get s now key in
    let val := match r with Ret v => v | Err _ => Nil end in
    match val with
    | Nil => DelCommand_loop s now rest deleted
    | _ => DelCommand_loop (Del s key) now rest (deleted + 1)
    end
  end.

Section Commands.
Variable coins : nat → bool.
Variable regexp_MatchString : string → string → option bool.

(** [Execute] of each command, on the store, with the clock at [now].
    Modelled from the spec: among the commands, get.go, expire.go, ttl.go,
    keys.go, zrange.go and command.go are missing from the sources; their
    [Execute] is taken as the call of the store operation of the same name
    (section 4.D), with the results their tests in commands_test.go expect,
    and the empty array for COMMAND (section 6). *)
Definition Execute (c : Command) (s : MemoryStore) (rng : nat) (now : Z)
  : outcome (result reply * MemoryStore * nat) :=
  match c with
  | PingCommand => Done (Ret (SimpleString "PONG"), s, rng)
  | EchoCommand message => Done (Ret (Str message), s, rng)
  | SetCommand key v opts =>
    let '(r, s) := Set_ s key (VString v) opts in Done (r, s, rng)
  | GetCommand key =>
    let '(r, s) := Get s now key in Done (r, s, rng)
  | DelCommand keys =>
    let '(deleted, s) := DelCommand_loop s now keys 0 in Done (Ret (Int deleted), s, rng)
  | ExpireCommand key ttl opts =>
    let '(e, s) := Expire s now key ttl opts in
    Done (match e with Some msg => Err msg | None => Ret Nil end, s, rng)
  | TtlCommand key =>
    let '(t, s) := TTL s now key in Done (Ret (Int t), s, rng)
  | KeysCommand pattern =>
    Done (Ret (Strs (Keys regexp_MatchString s now pattern)), s, rng)
  | ZAddCommand key ms opts => ZAdd coins s rng key ms opts
  | ZRangeCommand key start stop opts =>
    r ←← ZRange s key start stop opts;
    Done (match r with Ret l => Ret (Arr l) | Err e => Err e end, s, rng)
  | CommandCommand => Done (Ret (Arr []), s, rng)
  end.

End Commands.

(** ** internal/resp/parser.go *)

Definition ErrInvalidSyntax : string := "invalid RESP syntax".
Definition EOF : string := "EOF".
Definition ErrUnexpectedEOF : string := "unexpected EOF".

Definition LF : ascii := "010"%char.
Definition CR : ascii := "013"%char.
Definition CRLF : string := String CR (String LF EmptyString).

(** The buffered reader of a connection: the bytes that will arrive, and
    the error a read meets after them, [EOF] when the peer closes the
    connection and the message of the failure otherwise. *)
Record Reader : Type := mkReader {
  pending : string;
  read_err : string
}.

Definition drained (r : Reader) : Reader := {| pending := ""; read_err := read_err r |}.
Definition rest_of (r : Reader) (s : string) : Reader :=
  {| pending := s; read_err := read_err r |}.

(** [reader.ReadByte()] *)
Definition ReadByte (r : Reader) : result ascii * Reader :=
  match pending r with
  | EmptyString => (Err (read_err r), r)
  | String c s => (Ret c, rest_of r s)
  end.

(** The bytes of [s] up to and including the first [delim], and the rest. *)
Fixpoint split_after (delim : ascii) (s : string) : option (string * string) :=
  match s with
  | EmptyString => None
  | String c s' =>
    if Ascii.eqb c delim then Some (String c EmptyString, s')
    else match split_after delim s' with
         | Some (l, r) => Some (String c l, r)
         | None => None
         end
  end.

(** [reader.ReadString(delim)]: without a delimiter the bytes read so far
    come back with the error; the callers drop them. *)
Definition ReadString (r : Reader) (delim : ascii) : result string * Reader :=
  match split_after delim (pending r) with
  | Some (line, s) => (Ret line, rest_of r s)
  | None => (Err (read_err r), drained r)
  end.

(** [s[:n]] and [s[n:]] *)
Fixpoint string_take (n : nat) (s : string) : string :=
  match n, s with
  | S n', String c s' => String c (string_take n' s')
  | _, _ => EmptyString
  end.

Fixpoint string_drop (n : nat) (s : string) : string :=
  match n, s with
  | S n', String _ s' => string_drop n' s'
  | _, _ => s
  end.

(** [io.ReadFull(reader, data)] for [len(data) = n]. *)
Definition ReadFull (r : Reader) (n : nat) : result string * Reader :=
  if decide (n ≤ String.length (pending r)) then
    (Ret (string_take n (pending r)), rest_of r (string_drop n (pending r)))
  else if bool_decide (0 < String.length (pending r)) && String.eqb (read_err r) EOF then
    (Err ErrUnexpectedEOF, drained r)
  else (Err (read_err r), drained r).

Definition readLine (r : Reader) : result string * Reader :=
  match ReadString r LF with
  | (Err e, r) => (Err e, r)
  | (Ret line, r) =>
    let n := String.length line in
    if decide (n < 2) then (Err ErrInvalidSyntax, r)
    else if negb (bool_decide (String.get (n - 2) line = Some CR))
    then (Err ErrInvalidSyntax, r)
    else (Ret (string_take (n - 2) line), r)
  end.

Definition readInteger (r : Reader) : result Z * Reader :=
  match readLine r with
  | (Err e, r) => (Err e, r)
  | (Ret line, r) =>
    match Atoi line with
    | Some n => (Ret n, r)
    | None => (Err ErrInvalidSyntax, r)
    end
  end.

Definition readCRLF (r : Reader) : option string * Reader :=
  match ReadByte r with
  | (Err e, r) => (Some e, r)
  | (Ret cr, r) =>
    if negb (Ascii.eqb cr CR) then (Some ErrInvalidSyntax, r)
    else
      match ReadByte r with
      | (Err e, r) => (Some e, r)
      | (Ret lf, r) =>
        if negb (Ascii.eqb lf LF) then (Some ErrInvalidSyntax, r)
        else (None, r)
      end
  end.

(** [make([]T, n)] for elements of [size] bytes.  The runtime panics
    ("makeslice: len out of range") when [n * size] is above [maxAlloc],
    2^48 bytes at most on the 64-bit platforms, and ends the process with a
    fatal error when the memory is not to be had.  The handler recovers from
    neither, and the model writes [Panic] for both.  [mem b] tells whether
    the runtime can give [b] bytes; an allocation of no byte always
    succeeds. *)
Definition maxAlloc : Z := (2 ^ 48)%Z.

Section Framing.
Variable mem : Z → bool.

Definition make (n size : Z) : outcome unit :=
  let bytes := (n * size)%Z in
  if (maxAlloc <? bytes)%Z then Panic
  else if (bytes =? 0)%Z || mem bytes then Done tt
  else Panic.

Definition readBulkString (r : Reader) : outcome (result string * Reader) :=
  match ReadByte r with
  | (Err e, r) => Done (Err e, r)
  | (Ret b, r) =>
    if negb (Ascii.eqb b "$") then Done (Err ErrInvalidSyntax, r)
    else
      match readInteger r with
      | (Err e, r) => Done (Err e, r)
      | (Ret length, r) =>
        if (length <? 0)%Z then Done (Ret EmptyString, r) (* Null bulk string *)
        else
          _ ←← make length 1;
          match ReadFull r (Z.to_nat length) with
          | (Err e, r) => Done (Err e, r)
          | (Ret data, r) =>
            match readCRLF r with
            | (Some e, r) => Done (Err e, r)
            | (None, r) => Done (Ret data, r)
            end
          end
      end
  end.

(** [parseArray]: [for i := 0; i < length; i++ { ... elements[i] = element }] *)
Fixpoint readElements (n : nat) (r : Reader) : outcome (result (list string) * Reader) :=
  match n with
  | O => Done (Ret [], r)
  | S n' =>
    '(element, r) ←← readBulkString r;
    match element with
    | Err e => Done (Err e, r)
    | Ret element =>
      '(elements, r) ←← readElements n' r;
      match elements with
      | Err e => Done (Err e, r)
      | Ret elements => Done (Ret (element :: elements), r)
      end
    end
  end.

(** [parseArray] up to the call of [createCommand]: the elements of the
    request.  A string header has 16 bytes. *)
Definition parseElements (r : Reader) : outcome (result (list string) * Reader) :=
  match readInteger r with
  | (Err e, r) => Done (Err e, r)
  | (Ret length, r) =>
    if (length <? 1)%Z then Done (Err "array length must be positive", r)
    else
      _ ←← make length 16;
      readElements (Z.to_nat length) r
  end.

(** [Parse] up to the call of [createCommand]: the framing of a request. *)
Definition parseFrame (r : Reader) : outcome (result (list string) * Reader) :=
  match ReadByte r with
  | (Err e, r) => Done (Err e, r)
  | (Ret firstByte, r) =>
    if Ascii.eqb firstByte "*" then parseElements r
    else if Ascii.eqb firstByte "$" then Done (Err "bulk string must be part of an array", r)
    else if Ascii.eqb firstByte "+" then Done (Err "simple string must be part of an array", r)
    else if Ascii.eqb firstByte ":" then Done (Err "integer must be part of an array", r)
    else if Ascii.eqb firstByte "-" then Done (Err "error must be part of an array", r)
    else Done (Err ErrInvalidSyntax, r)
  end.

End Framing.

Definition one_of (opt : string) (l : list string) : bool := existsb (String.eqb opt) l.

Section Parser.
(** [strconv.ParseFloat(s, 64)]: [None] for an error. *)
Variable ParseFloat : string → option float.
(** The memory of [make]. *)
Variable mem : Z → bool.

(** SET: the loop over the options, from [args[3]] on. *)
Fixpoint set_option_loop (now : Z) (rest : list string) (opts : SetOptions)
  : result SetOptions :=
  match rest with
  | [] => Ret opts
  | a :: rest' =>
    let opt := ToUpper a in
    if one_of opt ["NX"; "XX"; "GET"] then
      match SetOptions_Set opts opt with
      | Err e => Err ("invalid option: " +:+ e)
      | Ret opts => set_option_loop now rest' opts
      end
    else if String.eqb opt "KEEPTTL" then
      match SetExpiry now opts opt 0 with
      | Err e => Err ("invalid option: " +:+ e)
      | Ret opts => set_option_loop now rest' opts
      end
    else if one_of opt ["EX"; "PX"; "EXAT"; "PXAT"] then
      match rest' with
      | [] => Err ("option " +:+ opt +:+ " requires a value")
      | v :: rest'' =>
        match Atoi v with
        | None => Err ("invalid value for option " +:+ opt)
        | Some val =>
          match SetExpiry now opts opt val with
          | Err e => Err ("invalid option: " +:+ e)
          | Ret opts => set_option_loop now rest'' opts
          end
        end
      end
    else Err ("unknown option: " +:+ opt)
  end.

(** EXPIRE: [for i := 3; i < len(args); i++ { opts.Set(...) }] *)
Fixpoint expire_option_loop (rest : list string) (opts : Options) : result Options :=
  match rest with
  | [] => Ret opts
  | a :: rest' =>
    match Options_Set opts (ToUpper a) with
    | Err e => Err ("invalid option: " +:+ e)
    | Ret opts => expire_option_loop rest' opts
    end
  end.

(** ZADD: the loop labelled [optionLoop]; [i] grows at each turn, so that
    [len(args)] turns are enough. *)
Fixpoint zadd_option_loop (fuel : nat) (args : list string) (i : nat) (opts : Options)
  : result (nat * Options) :=
  match fuel with
  | O => Ret (i, opts)
  | S fuel' =>
    match args !! i with
    | None => Ret (i, opts)
    | Some a =>
      let opt := ToUpper a in
      if one_of opt ["NX"; "XX"; "GT"; "LT"; "CH"; "INCR"] then
        match Options_Set opts opt with
        | Err e => Err ("invalid option: " +:+ e)
        | Ret opts => zadd_option_loop fuel' args (S i) opts
        end
      else Ret (i, opts)
    end
  end.

(** ZADD: the loop over the pairs; [args[i+1]] panics past the end. *)
Fixpoint zadd_member_loop (fuel : nat) (args : list string) (i : nat)
    (members : list ScoreMember) : outcome (result (list ScoreMember)) :=
  match fuel with
  | O => Done (Ret members)
  | S fuel' =>
    match args !! i with
    | None => Done (Ret members)
    | Some a =>
      match ParseFloat a with
      | None => Done (Err ("invalid score value: " +:+ a))
      | Some score =>
        m ←← index args (i + 1);
        zadd_member_loop fuel' args (i + 2)
          (members ++ [ {| Score := score; Member := m |} ])
      end
    end
  end.

(** ZRANGE: the loop over the options, from [args[4]] on. *)
Fixpoint zrange_option_loop (rest : list string) (opts : ZRangeOptions)
  : result ZRangeOptions :=
  match rest with
  | [] => Ret opts
  | a :: rest' =>
    let opt := ToUpper a in
    if one_of opt ["BYSCORE"; "BYLEX"] then
      match SetRangeType opts opt with
      | Err e => Err ("invalid range type: " +:+ e)
      | Ret opts => zrange_option_loop rest' opts
      end
    else if String.eqb opt "REV" then zrange_option_loop rest' (Set_Rev opts)
    else if String.eqb opt "WITHSCORES" then zrange_option_loop rest' (Set_WithScores opts)
    else if String.eqb opt "LIMIT" then
      match rest' with
      | o :: c :: rest'' =>
        match Atoi o with
        | None => Err "invalid LIMIT offset"
        | Some offset =>
          match Atoi c with
          | None => Err "invalid LIMIT count"
          | Some count =>
            match SetLimit opts offset count with
            | Err e => Err ("invalid LIMIT parameters: " +:+ e)
            | Ret opts => zrange_option_loop rest'' opts
            end
          end
        end
      | _ => Err "LIMIT option requires offset and count"
      end
    else Err ("unknown option: " +:+ opt)
  end.

(** [createCommand], with the clock at [now] (SET's EX and PX read it).
    Where the source formats an error of [strconv] into its message, the
    model keeps the source's own words only. *)
Definition createCommand (now : Z) (args : list string) : outcome (result Command) :=
  match args with
  | [] => Done (Err "empty command")
  | name :: _ =>
    let cmd := ToUpper name in
    if String.eqb cmd "PING" then Done (Ret PingCommand)
    else if String.eqb cmd "ECHO" then Done (NewEchoCommand args)
    else if String.eqb cmd "SET" then
      match args with
      | _ :: key :: v :: rest =>
        match set_option_loop now rest NewSetOptions with
        | Err e => Done (Err e)
        | Ret opts => Done (Ret (SetCommand key v (Some opts)))
        end
      | _ => Done (Err "SET command requires at least 2 arguments")
      end
    else if String.eqb cmd "GET" then
      match args with
      | [_; key] => Done (Ret (GetCommand key))
      | _ => Done (Err "GET command requires exactly 1 argument")
      end
    else if String.eqb cmd "DEL" then
      match args with
      | _ :: key :: keys => Done (Ret (DelCommand (key :: keys)))
      | _ => Done (Err "DEL command requires at least 1 argument")
      end
    else if String.eqb cmd "EXPIRE" then
      match args with
      | _ :: key :: t :: rest =>
        match Atoi t with
        | None => Done (Err "invalid TTL value")
        | Some ttl =>
          match expire_option_loop rest NewExpireOptions with
          | Err e => Done (Err e)
          | Ret opts => Done (Ret (ExpireCommand key (wrap64 (ttl * Second)) (Some opts)))
          end
        end
      | _ => Done (Err "EXPIRE command requires at least 2 arguments")
      end
    else if String.eqb cmd "TTL" then
      match args with
      | [_; key] => Done (Ret (TtlCommand key))
      | _ => Done (Err "TTL command requires exactly 1 argument")
      end
    else if String.eqb cmd "KEYS" then
      match args with
      | [_; pattern] => Done (Ret (KeysCommand pattern))
      | _ => Done (Err "KEYS command requires exactly 1 argument")
      end
    else if String.eqb cmd "ZADD" then
      if decide (length args < 4 ∨ (length args - 2) mod 2 ≠ 0) then
        Done (Err "ZADD command requires at least one score-member pair")
      else
        match zadd_option_loop (length args) args 1 NewZAddOptions with
        | Err e => Done (Err e)
        | Ret (i, opts) =>
          let i := S i in
          r ←← zadd_member_loop (length args) args i [];
          match r with
          | Err e => Done (Err e)
          | Ret members =>
            key ←← index args 1;
            Done (Ret (ZAddCommand key members (Some opts)))
          end
        end
    else if String.eqb cmd "ZRANGE" then
      match args with
      | _ :: key :: a2 :: a3 :: rest =>
        match zrange_option_loop rest NewZRangeOptions with
        | Err e => Done (Err e)
        | Ret opts =>
          if IsByScore opts then
            match ParseFloat a2, ParseFloat a3 with
            | Some start, Some stop =>
              Done (Ret (ZRangeCommand key (Float start) (Float stop) (Some opts)))
            | None, _ => Done (Err "invalid score range start")
            | _, None => Done (Err "invalid score range stop")
            end
          else if IsByLex opts then
            Done (Ret (ZRangeCommand key (Str a2) (Str a3) (Some opts)))
          else
            match Atoi a2, Atoi a3 with
            | Some start, Some stop =>
              Done (Ret (ZRangeCommand key (Int start) (Int stop) (Some opts)))
            | None, _ => Done (Err "invalid start index")
            | _, None => Done (Err "invalid stop index")
            end
        end
      | _ => Done (Err "ZRANGE command requires at least 3 arguments")
      end
    else if String.eqb cmd "COMMAND" then Done (Ret CommandCommand)
    else Done (Err ("unknown command: " +:+ cmd))
  end.

(** [Parse]: the frame, then [createCommand] on its elements. *)
Definition Parse (now : Z) (r : Reader) : outcome (result Command * Reader) :=
  '(elements, r) ←← parseFrame mem r;
  match elements with
  | Err e => Done (Err e, r)
  | Ret elements =>
    c ←← createCommand now elements;
    Done (c, r)
  end.

End Parser.

(** ** internal/server/handler.go *)

(** A connection: what the client sends, what has been written to it, and
    how many more responses can be flushed before a write fails with
    [write_err] ([None]: writes never fail). *)
Record Conn : Type := mkConn {
  reader : Reader;
  written : string;
  writable : option nat;
  write_err : string
}.

Definition with_reader (c : Conn) (r : Reader) : Conn :=
  {| reader := r; written := written c; writable := writable c;
     write_err := write_err c |}.

(** Write [bytes] and flush. *)
Definition send (c : Conn) (bytes : string) : option string * Conn :=
  match writable c with
  | Some O => (Some (write_err c), c)
  | Some (S n) =>
    (None, {| reader := reader c; written := written c +:+ bytes;
              writable := Some n; write_err := write_err c |})
  | None =>
    (None, {| reader := reader c; written := written c +:+ bytes;
              writable := None; write_err := write_err c |})
  end.

Section Handler.
Variable coins : nat → bool.
Variable regexp_MatchString : string → string → option bool.
Variable ParseFloat : string → option float.
Variable mem : Z → bool.
(** resp/writer.go is not among the sources: the bytes its two methods
    produce are parameters. [WriteInterface] may refuse a value. *)
Variable WriteInterface : reply → result string.
Variable WriteError : string → string.
(** [clock k]: the time at which the [k]-th request of the connection is
    handled. *)
Variable clock : nat → Z.

Definition writeResponse (c : Conn) (response : reply) : option string * Conn :=
  match WriteInterface response with
  | Err e => (Some e, c)
  | Ret bytes => send c bytes
  end.

Definition writeError (c : Conn) (err : string) : option string * Conn :=
  send c (WriteError err).

(** [Handle]: the result is the error returned ([None] for nil), with the
    connection, the store and the random source as the call leaves them. *)
Fixpoint Handle_loop (fuel : nat) (k : nat) (c : Conn) (s : MemoryStore) (rng : nat)
  : outcome (option string * Conn * MemoryStore * nat) :=
  match fuel with
  | O => Diverges
  | S fuel' =>
    '(parsed, r) ←← Parse ParseFloat mem (clock k) (reader c);
    let c := with_reader c r in
    match parsed with
    | Err e =>
      if String.eqb e "EOF" then Done (None, c, s, rng)
      else Done (Some ("error parsing command: " +:+ e), c, s, rng)
    | Ret command =>
      '(response, s, rng) ←← Execute coins regexp_MatchString command s rng (clock k);
      match response with
      | Err e =>
        match writeError c e with
        | (Some werr, c) => Done (Some ("error writing error response: " +:+ werr), c, s, rng)
        | (None, c) => Handle_loop fuel' (S k) c s rng
        end
      | Ret response =>
        match writeResponse c response with
        | (Some werr, c) => Done (Some ("error writing response: " +:+ werr), c, s, rng)
        | (None, c) => Handle_loop fuel' (S k) c s rng
        end
      end
    end
  end.

(** Each turn of the loop reads at least one byte or ends the call. *)
Definition Handle (c : Conn) (s : MemoryStore) (rng : nat)
  : outcome (option string * Conn * MemoryStore * nat) :=
  Handle_loop (S (String.length (pending (reader c)))) 0 c s rng.

End Handler.

(** ** Observations and inputs the theorems speak about *)

(** The pairs of the index in the order of its level-0 pointers. *)
Definition level0 (l : skiplist) : outcome (list (float * string)) :=
  nh ←← deref (nodes l) (sl_head l);
  f ←← index (forward nh) 0;
  ns ←← take_chain (length (nodes l)) (nodes l) f;
  Done (map (λ n, (score n, member n)) ns).

(** A source of randomness that never promotes: every node gets level 1. *)
Definition no_promotion : nat → bool := λ _, false.

(** A source that promotes every second call: levels 2, 1, 2, 1, ... *)
Definition alternate : nat → bool := λ k, Nat.even k.

Definition pair_ (s : float) (m : string) : ScoreMember := {| Score := s; Member := m |}.

(** The wire form of a request with the given elements' wire forms. *)
Definition frame (header : string) (elements : list string) : string :=
  "*" +:+ header +:+ CRLF +:+ String.concat "" elements.

Definition bulk_of (len data : string) : string :=
  "$" +:+ len +:+ CRLF +:+ data +:+ CRLF.

Definition client (bytes : string) : Conn :=
  {| reader := {| pending := bytes; read_err := EOF |};
     written := ""; writable := None; write_err := "" |}.

(** Modelled from the spec: resp/writer.go is missing from the sources.
    These are the wire forms of the response grammar (section 4.E): null as
    the null bulk string, an integer after [:], a byte string as a bulk
    string, a sequence as an array, a floating-point number as the bulk
    string of its decimal text, a simple string after [+], an error after
    [-].  The decimal text of a float is left to [FormatFloat]. *)
Definition spec_bulk (s : string) : string :=
  "$" +:+ pretty (String.length s) +:+ CRLF +:+ s +:+ CRLF.

Definition spec_WriteError (err : string) : string := "-" +:+ err +:+ CRLF.

Fixpoint spec_encode (FormatFloat : float → string) (r : reply) : option string :=
  match r with
  | Nil => Some ("$-1" +:+ CRLF)
  | Str s => Some (spec_bulk s)
  | Int z => Some (":" +:+ pretty z +:+ CRLF)
  | Float f => Some (spec_bulk (FormatFloat f))
  | SimpleString s => Some ("+" +:+ s +:+ CRLF)
  | Strs l =>
    Some ("*" +:+ pretty (length l) +:+ CRLF +:+ String.concat "" (map spec_bulk l))
  | Arr l =>
    match (fix go (l : list reply) : option string :=
             match l with
             | [] => Some ""
             | x :: l' =>
               match spec_encode FormatFloat x, go l' with
               | Some a, Some b => Some (a +:+ b)
               | _, _ => None
               end
             end) l with
    | Some body => Some ("*" +:+ pretty (length l) +:+ CRLF +:+ body)
    | None => None
    end
  | ZSet _ => None
  end.

Definition spec_WriteInterface (FormatFloat : float → string) (r : reply) : result string :=
  match spec_encode FormatFloat r with
  | Some bytes => Ret bytes
  | None => Err "unsupported type"
  end.

(** Parameters of the example runs.  No run below formats a float, matches
    a pattern other than [*], or reads a score that is not a decimal
    integer. *)
Definition FormatFloat_none : float → string := λ _, "".
Definition regexp_none : string → string → option bool := λ _ _, None.
Definition ParseFloat_integer (s : string) : option float :=
  match Atoi s with
  | Some z =>
    if decide (0 ≤ z < 2 ^ 53)%Z then Some (PrimFloat.of_uint63 (Uint63.of_Z z)) else None
  | None => None
  end.
Definition clock_zero : nat → Z := λ _, 0%Z.
(** The example runs have the memory they ask for. *)
Definition mem_enough : Z → bool := λ _, true.

(** The handler of the example runs. *)
Definition serve (c : Conn) (s : MemoryStore) (rng : nat)
  : outcome (option string * Conn * MemoryStore * nat) :=
  Handle no_promotion regexp_none ParseFloat_integer mem_enough
    (spec_WriteInterface FormatFloat_none) spec_WriteError clock_zero c s rng.

(** Sequences of SET, DEL and EXPIRE on the store, each at its time. *)
Inductive store_op : Type :=
| OpSet (key v : string) (opts : option SetOptions)
| OpDel (key : string)
| OpExpire (key : string) (ttl : Z) (opts : option Options).

Definition apply_op (s : MemoryStore) (t : Z) (op : store_op) : MemoryStore :=
  match op with
  | OpSet key v opts => snd (Set_ s key (VString v) opts)
  | OpDel key => Del s key
  | OpExpire key ttl opts => snd (Expire s t key ttl opts)
  end.

Fixpoint run_ops (s : MemoryStore) (ops : list (Z * store_op)) : MemoryStore :=
  match ops with
  | [] => s
  | (t, op) :: rest => run_ops (apply_op s t op) rest
  end.

(** The request grammar of section 4.E as the parser reads it: the counts
    [N] and [L] in the decimal syntax of [Atoi], and an element of negative
    length, the null bulk string among them, standing for the empty string
    and carrying no data.  [bulk_form w a]: [w] is the wire form of the
    element [a]. *)
Inductive bulk_form : string → string → Prop :=
| bulk_data (t data : string) (L : Z) :
    Atoi t = Some L → (0 ≤ L)%Z → Z.of_nat (String.length data) = L →
    bulk_form ("$" +:+ t +:+ CRLF +:+ data +:+ CRLF) data
| bulk_null (t : string) (L : Z) :
    Atoi t = Some L → (L < 0)%Z →
    bulk_form ("$" +:+ t +:+ CRLF) "".

Inductive bulks_form : string → list string → Prop :=
| bulks_nil : bulks_form "" []
| bulks_cons (w ws a : string) (args : list string) :
    bulk_form w a → bulks_form ws args → bulks_form (w +:+ ws) (a :: args).

(** [request_form bytes args rest]: [bytes] starts with the wire form of a
    request of elements [args], a non-empty array, and goes on with [rest]. *)
Definition request_form (bytes : string) (args : list string) (rest : string) : Prop :=
  ∃ (t : string) (N : Z) (body : string),
    Atoi t = Some N ∧ (1 ≤ N)%Z ∧ Z.of_nat (length args) = N
    ∧ bulks_form body args
    ∧ bytes = "*" +:+ t +:+ CRLF +:+ body +:+ rest.

Fixpoint has_byte (c : ascii) (s : string) : bool :=
  match s with
  | EmptyString => false
  | String d s' => Ascii.eqb d c || has_byte c s'
  end.

(** ** The shape of a skip list

    [fwd h p i] is [p.forward[i]] ([None] when [p] is not a node or has no
    level [i]), [height h p] the number of levels of [p]. *)
Definition fwd (h : list skiplistNode) (p : ptr) (i : nat) : option (option ptr) :=
  match h !! p with
  | Some n => forward n !! i
  | None => None
  end.

Definition height (h : list skiplistNode) (p : ptr) : nat :=
  match h !! p with
  | Some n => length (forward n)
  | None => 0
  end.

(** [chain h i p l]: the level-[i] pointers lead from [p] through the nodes
    [l], in this order, to nil. *)
Fixpoint chain (h : list skiplistNode) (i : nat) (p : ptr) (l : list ptr) : Prop :=
  match l with
  | [] => fwd h p i = Some None
  | q :: l' => fwd h p i = Some (Some q) ∧ chain h i q l'
  end.

(** The last node of [p :: l]. *)
Definition lastd (p : ptr) (l : list ptr) : ptr := default p (last l).

(** A test on nodes, as a test on pointers. *)
Definition on_node (h : list skiplistNode) (P : skiplistNode → bool) (q : ptr) : bool :=
  match h !! q with
  | Some n => P n
  | None => false
  end.

(** The nodes of [ord] that have a level [i]. *)
Definition at_level (h : list skiplistNode) (i : nat) (ord : list ptr) : list ptr :=
  filter (λ q, i < height h q) ord.

(** [wf l ord]: the list [l] holds the nodes [ord], in this order at level
    0, and its level-[i] pointers thread the nodes of [ord] that have a
    level [i], in the same order.  Nothing is asked of the scores. *)
Record wf (l : skiplist) (ord : list ptr) : Prop := mk_wf {
  wf_head : sl_head l = 0;
  wf_head_height : height (nodes l) 0 = maxLevel;
  wf_nodup : NoDup ord;
  wf_valid : ∀ p, p ∈ ord → 0 < p < length (nodes l);
  wf_height : ∀ p, p ∈ ord → 1 ≤ height (nodes l) p ≤ sl_level l;
  wf_level : 1 ≤ sl_level l ≤ maxLevel;
  wf_chain : ∀ i, i < maxLevel → chain (nodes l) i 0 (at_level (nodes l) i ord)
}.

Definition well_formed (l : skiplist) : Prop := ∃ ord, wf l ord.

(** What a search knows of level [j] once it has passed it, having walked
    over the nodes [A] with the nodes [B] ahead: [update[j]] is the last
    node of [A] with a level [j] (the head if there is none), and the first
    node of [B] with a level [j], if any, fails the test of the search. *)
Definition settled (h : list skiplistNode) (P : skiplistNode → bool)
    (A B : list ptr) (update : list (option ptr)) (j : nat) : Prop :=
  update !! j = Some (Some (lastd 0 (at_level h j A)))
  ∧ ∀ y, head (at_level h j B) = Some y → on_node h P y = false.

(** The member and the score of the node at [q]. *)
Definition item (h : list skiplistNode) (q : ptr) : option (string * float) :=
  (λ n, (member n, score n)) <$> h !! q.

(** The memory [hi] after [delete] has unlinked [cur] from the levels
    below [i]: at these levels the node before [cur], the last node of [A]
    with that level, has taken over the pointer of [cur]. *)
Definition unlinked (h : list skiplistNode) (A : list ptr) (cur : ptr) (i : nat)
    (hi : list skiplistNode) : Prop :=
  length hi = length h
  ∧ (∀ q, height hi q = height h q)
  ∧ (∀ q, item hi q = item h q)
  ∧ (∀ q j, fwd hi q j
            = if decide (j < i ∧ q = lastd 0 (at_level h j A))
              then fwd h cur j else fwd h q j).

(** The memory [hi] after [insert] has linked the new node [p] at the
    levels below [i], in the memory [h0] where [p] was allocated: at these
    levels the last node of [A] with that level points to [p], and [p]
    where that node pointed. *)
Definition linked (h0 : list skiplistNode) (A : list ptr) (p : ptr) (i : nat)
    (hi : list skiplistNode) : Prop :=
  length hi = length h0
  ∧ (∀ q, height hi q = height h0 q)
  ∧ (∀ q, item hi q = item h0 q)
  ∧ (∀ q j, fwd hi q j
            = if decide (j < i ∧ q = lastd 0 (at_level h0 j A))
              then Some (Some p)
              else if decide (j < i ∧ q = p)
                   then fwd h0 (lastd 0 (at_level h0 j A)) j
                   else fwd h0 q j).

(** The measure of the nested calls of [insert(s, m)].  A node that
    carries the member [m] weighs 3 while its score differs from [s] and
    2 once it is [s] ([same_score]: equal, or both NaN); the other nodes
    weigh nothing.  Each nested call first gives a node the score [s] or
    removes a node that carries [m]. *)
Definition same_score (s x : float) : bool :=
  (x =? s)%float || (is_nan x && is_nan s).

Definition weight (h : list skiplistNode) (s : float) (m : string) (q : ptr) : nat :=
  match item h q with
  | Some (m', x) =>
    if String.eqb m' m then (if same_score s x then 2 else 3) else 0
  | None => 0
  end.

Definition todo (h : list skiplistNode) (ord : list ptr) (s : float) (m : string) : nat :=
  sum_list_with (weight h s m) ord.

(** ** Invariants of the store *)

(** Every sorted set of the store has a well-formed index. *)
Definition store_wf (s : MemoryStore) : Prop :=
  ∀ k set, data s !! k = Some (VSortedSet set) → well_formed (sl set).

(** The key table of section 3: a deadline belongs to a key that is there. *)
Definition deadlines_live (s : MemoryStore) : Prop :=
  ∀ k, is_Some (expires s !! k) → is_Some (data s !! k).

(** ** ZADD in the words of the spec (section 4.B)

    On the member-to-score map alone.  A pair is skipped when NX is set and
    the member exists, when XX is set and the member is absent, when GT is
    set and the member exists with [new <= old], or when LT is set and the
    member exists with [new >= old]. *)
Definition skipped (opts : option Options) (d : gmap string float) (p : ScoreMember)
  : bool :=
  match d !! Member p with
  | Some old =>
    opt_is IsNX opts
    || (opt_is IsGT opts && (Score p <=? old)%float)
    || (opt_is IsLT opts && (old <=? Score p)%float)
  | None => opt_is IsXX opts
  end.

(** A pair that is not skipped creates its member, or changes its score
    when the score it brings is not equal to the old one. *)
Definition creates (d : gmap string float) (p : ScoreMember) : bool :=
  bool_decide (d !! Member p = None).

Definition changes (d : gmap string float) (p : ScoreMember) : bool :=
  match d !! Member p with
  | Some old => negb (old =? Score p)%float
  | None => true
  end.

(** The pairs in input order: the map at the end, the number of members
    created, and the number of members created or changed. *)
Fixpoint zadd_spec (opts : option Options) (d : gmap string float)
    (pairs : list ScoreMember) : gmap string float * Z * Z :=
  match pairs with
  | [] => (d, 0%Z, 0%Z)
  | p :: rest =>
    if skipped opts d p then zadd_spec opts d rest
    else
      let '(d', added, changed) := zadd_spec opts (<[Member p := Score p]> d) rest in
      (d', (if creates d p then 1 else 0) + added, (if changes d p then 1 else 0) + changed)%Z
  end.

(** The map of the sorted set under [key], empty when the key is absent. *)
Definition dict_at (s : MemoryStore) (key : string) : gmap string float :=
  match data s !! key with
  | Some (VSortedSet set) => dict set
  | _ => ∅
  end.

Definition empty_set : SortedSet :=
  {| dict := ∅; sl := newSkiplist; scores := []; members := [] |}.

(** The ZADD options with the options of [names] set, as the option loop of
    [createCommand] builds them (a refused option leaves them as they are). *)
Definition zadd_options (names : list string) : Options :=
  foldl (λ o name, match Options_Set o name with
                   | Ret o' => o'
                   | Err _ => o
                   end) NewZAddOptions names.

(** ** The stores a server goes through *)

(** [reachable coins s]: the store [s] comes from the new store by calls of
    the operations of the store, at any times and with any arguments, the
    values set by [Set] being strings as those of [SetCommand] are. *)
Inductive reachable (coins : nat → bool) : MemoryStore → Prop :=
| reach_new : reachable coins NewMemoryStore
| reach_Get s now key :
    reachable coins s → reachable coins (Get s now key).2
| reach_Set s key v opts :
    reachable coins s → reachable coins (Set_ s key (VString v) opts).2
| reach_Del s key :
    reachable coins s → reachable coins (Del s key)
| reach_Expire s now key ttl opts :
    reachable coins s → reachable coins (Expire s now key ttl opts).2
| reach_TTL s now key :
    reachable coins s → reachable coins (TTL s now key).2
| reach_ZAdd s rng key pairs opts r s' rng' :
    reachable coins s →
    ZAdd coins s rng key pairs opts = Done (r, s', rng') →
    reachable coins s'.

(** The key holds a string whose deadline, if any, is not past. *)
Definition live_string (s : MemoryStore) (now : Z) (key : string) : bool :=
  negb (isExpired s now key)
  && match data s !! key with
     | Some (VString _) => true
     | _ => false
     end.

(** The options of a SET name no deadline: no EX, PX, EXAT, PXAT, KEEPTTL. *)
Definition no_expiry_option (opts : option SetOptions) : Prop :=
  match opts with
  | Some o => ExpiryType o = ""
  | None => True
  end.

(** ** What a skip list holds *)

(** The member and the score of a node. *)
Definition node_pair (n : skiplistNode) : string * float := (member n, score n).

Definition pair_at (h : list skiplistNode) (q : ptr) : string * float :=
  match h !! q with
  | Some n => node_pair n
  | None => (EmptyString, 0%float)
  end.

(** The pairs of the nodes [ord], in this order. *)
Definition contents (h : list skiplistNode) (ord : list ptr) : list (string * float) :=
  map (pair_at h) ord.

(** [holds l xs]: the list [l] is well formed, its level-0 pointers go
    through nodes that carry the pairs [xs], in this order, and its field
    [length] is their number. *)
Definition holds (l : skiplist) (xs : list (string * float)) : Prop :=
  ∃ ord, wf l ord ∧ sl_length l = Z.of_nat (length ord)
         ∧ contents (nodes l) ord = xs.

(** The elements of [xs] from the index [start] to the index [stop], both
    included; a negative index counts from the end, [-1] being the last
    element, and the indexes are cut at the ends of [xs]. *)
Definition range_of {A : Type} (xs : list A) (start stop : Z) : list A :=
  let n := Z.of_nat (length xs) in
  let start := if (start <? 0)%Z then (n + start)%Z else start in
  let stop := if (stop <? 0)%Z then (n + stop)%Z else stop in
  let start := Z.max 0 start in
  let stop := Z.min (n - 1) stop in
  if (start >? stop)%Z then []
  else take (Z.to_nat (stop - start + 1)) (drop (Z.to_nat start) xs).

(** [below s m x]: the pair [x] comes before the pair of score [s] and
    member [m] in the order of the index, by score and then by member. *)
Definition below (s : float) (m : string) (x : string * float) : bool :=
  (x.2 <? s)%float || ((x.2 =? s)%float && String.ltb x.1 m).

(** [precedes x y]: [y] does not come before [x]. *)
Definition precedes (x y : string * float) : bool := negb (below x.2 x.1 y).

Fixpoint sorted (xs : list (string * float)) : bool :=
  match xs with
  | x :: r => match r with
              | y :: _ => precedes x y
              | [] => true
              end && sorted r
  | [] => true
  end.

(** No score is NaN. *)
Definition no_nan (xs : list (string * float)) : bool :=
  forallb (λ x, (x.2 =? x.2)%float) xs.

(** What [insert(s, m)] does to the pairs of a list, from [xs] to [xs'],
    with the result [b]: the pair is there afterwards, the pairs of the
    other members are untouched, a member that was not there gets a node of
    its own, and a sorted list without NaN stays one. *)
Definition insert_post (s : float) (m : string) (xs xs' : list (string * float))
    (b : bool) : Prop :=
  (m, s) ∈ xs'
  ∧ filter (λ x, x.1 ≠ m) xs' = filter (λ x, x.1 ≠ m) xs
  ∧ (m ∉ xs.*1 → b = true ∧ ∃ A B, xs = A ++ B ∧ xs' = A ++ (m, s) :: B)
  ∧ ((s =? s)%float = true → no_nan xs = true → sorted xs = true →
     sorted xs' = true ∧ no_nan xs' = true).

(** ** A sorted set and its index *)

(** What a pair gives to a reply of ZRANGE. *)
Definition pair_items (withScores : bool) (x : string * float) : list reply :=
  if withScores then [Str x.1; Float x.2] else [Str x.1].

Definition pair_of (p : ScoreMember) : string * float := (Member p, Score p).

(** [in_sync set xs]: the index of the set holds the pairs [xs], sorted by
    score and then by member, without NaN, one pair for each member, and the
    map of the set holds the same pairs. *)
Definition in_sync (set : SortedSet) (xs : list (string * float)) : Prop :=
  holds (sl set) xs ∧ NoDup xs.*1 ∧ sorted xs = true ∧ no_nan xs = true
  ∧ ∀ m x, dict set !! m = Some x ↔ (m, x) ∈ xs.

(** ZRANGE by rank, without LIMIT: the options name no other kind of range
    and no count. *)
Definition by_rank (opts : option ZRangeOptions) : Prop :=
  match opts with
  | Some o => IsByScore o = false ∧ IsByLex o = false ∧ (Limit_Count o ≤ 0)%Z
  | None => True
  end.

Definition with_scores (opts : option ZRangeOptions) : bool :=
  match opts with
  | Some o => IsWithScores o
  | None => false
  end.

(** The score is in the closed range from [min] to [max]. *)
Definition in_score_range (min max : float) (x : string * float) : bool :=
  (min <=? x.2)%float && (x.2 <=? max)%float.

Definition by_score (opts : option ZRangeOptions) : Prop :=
  match opts with
  | Some o => IsByScore o = true ∧ IsRev o = false ∧ (Limit_Count o ≤ 0)%Z
  | None => False
  end.

Definition by_lex (opts : option ZRangeOptions) : Prop :=
  match opts with
  | Some o => IsByScore o = false ∧ IsByLex o = true ∧ (Limit_Count o ≤ 0)%Z
  | None => False
  end.

Definition reversed (opts : option ZRangeOptions) : bool :=
  match opts with
  | Some o => IsRev o
  | None => false
  end.

(** ** The words of a request *)

(** The option words of ZADD, as the option loop of [createCommand] lists
    them. *)
Definition zadd_words : list string := ["NX"; "XX"; "GT"; "LT"; "CH"; "INCR"].

(** A string of ASCII bytes: on these [ToUpper] is [strings.ToUpper]. *)
Definition ascii_only (s : string) : Prop :=
  Forall (λ c, byte_val c < 128) (list_ascii_of_string s).

(** The words [score member score member ...] of a list of pairs. *)
Definition pair_args (pairs : list (string * string)) : list string :=
  concat (map (λ p, [p.1; p.2]) pairs).

(** At most one of the flags is set. *)
Definition at_most_one (flags : list bool) : Prop :=
  length (filter (λ b, b = true) flags) ≤ 1.

(** The options [a] and [b] are not both active. *)
Definition exclusive (o : Options) (a b : string) : Prop :=
  IsSet o a && IsSet o b = false.

(** Every allocation of at most [n] bytes succeeds. *)
Definition allocatable (mem : Z → bool) (n : Z) : Prop :=
  (n ≤ maxAlloc)%Z ∧ ∀ b, (0 < b ≤ n)%Z → mem b = true.

(** * Theorems *)

(** ** The ordered index and the sorted set *)

(** C2 (the code departs from the claim).  On the list holding (1, "a"),
    [insert(2, "a")] looks for the member at the place of its new score,
    does not find it, and links a second node: the call returns true for a
    member that is present, the length goes from 1 to 2, and the member
    occurs twice. *)
Lemma insert_present_member_with_greater_score :
  ∃ l1 l2 rng1 rng2,
    sl_insert no_promotion newSkiplist 0 1%float "a" = Done (true, l1, rng1)
    ∧ level0 l1 = Done [(1%float, "a")]
    ∧ sl_length l1 = 1%Z
    ∧ sl_insert no_promotion l1 rng1 2%float "a" = Done (true, l2, rng2)
    ∧ level0 l2 = Done [(1%float, "a"); (2%float, "a")]
    ∧ sl_length l2 = 2%Z.
Proof. do 4 eexists. repeat split; vm_compute; reflexivity. Qed.

(** C1 (the code departs from the claim).  After [ZADD k 1 a] and
    [ZADD k 2 a] the map holds the single pair (a, 2) and the index holds
    (1, a) and (2, a): the two do not hold the same pairs, and the member
    occurs twice in the index. *)
Lemma ZAdd_score_change_keeps_old_pair :
  ∃ s1 s2 rng1 rng2 set,
    ZAdd no_promotion NewMemoryStore 0 "k" [pair_ 1%float "a"] None
      = Done (Ret (Int 1), s1, rng1)
    ∧ ZAdd no_promotion s1 rng1 "k" [pair_ 2%float "a"] None
      = Done (Ret (Int 0), s2, rng2)
    ∧ data s2 !! "k" = Some (VSortedSet set)
    ∧ map_to_list (dict set) = [("a", 2%float)]
    ∧ level0 (sl set) = Done [(1%float, "a"); (2%float, "a")].
Proof. do 5 eexists. repeat split; vm_compute; reflexivity. Qed.

(** C7 (the code departs from the claim).  On the set {a:1, b:2, c:3} the
    reverse range by score over [2, 3] is empty, and over [1, 3] it comes
    out in ascending order: the reverse branch skips the nodes whose score
    is above [max] from the head, where the scores are the lowest, and then
    follows the forward pointers.  The forward range over [2, 3] is b, c. *)
Lemma RangeByScore_rev_follows_forward_pointers :
  ∃ s rng set,
    ZAdd no_promotion NewMemoryStore 0 "z"
      [pair_ 1%float "a"; pair_ 2%float "b"; pair_ 3%float "c"] None
      = Done (Ret (Int 3), s, rng)
    ∧ data s !! "z" = Some (VSortedSet set)
    ∧ RangeByScore set 2%float 3%float true false = Done []
    ∧ RangeByScore set 1%float 3%float true false = Done [Str "a"; Str "b"; Str "c"]
    ∧ RangeByScore set 2%float 3%float false false = Done [Str "b"; Str "c"].
Proof. do 3 eexists. repeat split; vm_compute; reflexivity. Qed.

(** C6, counterexample.  [ZADD k CH 1 a 2 a] on the new store returns 2,
    and the set it leaves has the single member [a]: with CH the call
    counts the pairs that created or changed a member, not the members. *)
Lemma ZAdd_CH_counts_pairs :
  ∃ s rng set,
    ZAdd no_promotion NewMemoryStore 0 "k" [pair_ 1%float "a"; pair_ 2%float "a"]
      (Some (zadd_options ["CH"]))
      = Done (Ret (Int 2), s, rng)
    ∧ data s !! "k" = Some (VSortedSet set)
    ∧ map_to_list (dict set) = [("a", 2%float)].
Proof. do 3 eexists. repeat split; vm_compute; reflexivity. Qed.

(** ** DEL *)

(** C4 (the code departs from the claim).  [DEL z] on a key that holds a
    sorted set returns 0 and leaves the store as it was: [Execute] asks
    [Get] whether the key is there, and [Get] answers a sorted set with a
    nil value and a WRONGTYPE error, which [Execute] drops. *)
Lemma Del_keeps_sorted_set :
  ∃ s rng set,
    ZAdd no_promotion NewMemoryStore 0 "z" [pair_ 1%float "a"] None
      = Done (Ret (Int 1), s, rng)
    ∧ data s !! "z" = Some (VSortedSet set)
    ∧ Execute no_promotion regexp_none (DelCommand ["z"]) s rng 0
      = Done (Ret (Int 0), s, rng).
Proof. do 3 eexists. repeat split; vm_compute; reflexivity. Qed.

(** ** The request parser *)

(** C9 (the code departs from the claim).  [ZADD k NX 1 m] is refused
    before any option is read: the test on the number of arguments counts
    the option as half of a pair. *)
Lemma createCommand_ZADD_with_option_refused :
  ∀ (ParseFloat : string → option float) (now : Z),
    createCommand ParseFloat now ["ZADD"; "k"; "NX"; "1"; "m"]
    = Done (Err "ZADD command requires at least one score-member pair").
Proof. reflexivity. Qed.

(** With an even number of arguments after the key the option loop starts
    at the key, stops there, and the option is read as a score. *)
Lemma createCommand_ZADD_option_read_as_score :
  createCommand ParseFloat_integer 0 ["ZADD"; "k"; "NX"; "CH"; "1"; "m"]
  = Done (Err "invalid score value: NX").
Proof. vm_compute. reflexivity. Qed.

(** C5, counterexample.  The request [ECHO] with a null bulk string as its
    argument is accepted: the null bulk string is read as the empty
    string. *)
Lemma Parse_accepts_null_bulk_string :
  parseFrame mem_enough
    {| pending := frame "2" [bulk_of "4" "ECHO"; "$-1" +:+ CRLF];
       read_err := EOF |}
  = Done (Ret ["ECHO"; ""], {| pending := ""; read_err := EOF |})
  ∧ Parse ParseFloat_integer mem_enough 0
      {| pending := frame "2" [bulk_of "4" "ECHO"; "$-1" +:+ CRLF];
         read_err := EOF |}
    = Done (Ret (EchoCommand ""), {| pending := ""; read_err := EOF |}).
Proof. split; vm_compute; reflexivity. Qed.

(** ** The connection handler *)


(** The same handler when the store refuses a command: [GET] on a key that
    holds a sorted set.  The error is written and the next request is
    served. *)
Lemma Handle_store_error_continues :
  ∃ s rng,
    serve (client (frame "4" [bulk_of "4" "ZADD"; bulk_of "1" "z"; bulk_of "1" "1";
                              bulk_of "1" "a"]
                   +:+ frame "2" [bulk_of "3" "GET"; bulk_of "1" "z"]
                   +:+ frame "1" [bulk_of "4" "PING"]))
          NewMemoryStore 0
    = Done (None,
            {| reader := {| pending := ""; read_err := EOF |};
               written := ":1" +:+ CRLF
                          +:+ "-WRONGTYPE Operation against a key holding a sorted set"
                          +:+ CRLF +:+ "+PONG" +:+ CRLF;
               writable := None; write_err := "" |},
            s, rng).
Proof. do 2 eexists. vm_compute. reflexivity. Qed.

(** ** Lazy expiry: TTL and GET *)

Lemma sat64_pos (z : Z) : (0 < sat64 z ↔ 0 < z)%Z.
Proof. unfold sat64, int64_min, int64_max. lia. Qed.

Lemma whole_seconds_nonneg (d : Z) : (0 < d → 0 ≤ whole_seconds d)%Z.
Proof.
  intros Hd. unfold whole_seconds, Second.
  apply Z.quot_pos; lia.
Qed.

(** On every store, [TTL] answers -2 exactly when the [GET] that follows
    it, with the clock unchanged, finds nothing. *)
Lemma TTL_then_Get (s : MemoryStore) (now : Z) (k : string) :
  fst (TTL s now k) = (-2)%Z ↔ fst (Get (snd (TTL s now k)) now k) = Ret Nil.
Proof.
  unfold TTL.
  destruct (data s !! k) as [v|] eqn:Hd.
  - destruct (expires s !! k) as [e|] eqn:He.
    + destruct (Z.leb_spec (Until now e) 0) as [Hr|Hr]; simpl.
      * split; [intros _|done].
        unfold Get, isExpired, remove; simpl.
        by rewrite !lookup_delete_eq.
      * pose proof (whole_seconds_nonneg (Until now e) Hr) as Hw.
        assert (0 < e - now)%Z as Hpos by (by apply sat64_pos).
        split; [lia|].
        unfold Get, isExpired. rewrite He, Hd.
        destruct (Z.ltb_spec e now); [lia|].
        destruct v; discriminate.
    + simpl. split; [discriminate|].
      unfold Get, isExpired. rewrite He, Hd. destruct v; discriminate.
  - simpl. split; [intros _|done].
    unfold Get, isExpired. rewrite Hd.
    destruct (expires s !! k) as [e|]; [destruct (e <? now)%Z|]; done.
Qed.

(** C8.  After any sequence of SET, DEL and EXPIRE operations, [TTL k]
    returns -2 if and only if the [GET k] called right after it (the clock
    has not moved) returns null; and a key whose deadline is past is absent
    for both: [TTL] returns -2 and [GET] returns null. *)
Theorem TTL_absent_iff_Get_null :
  ∀ (ops : list (Z * store_op)) (now : Z) (k : string),
    let s := run_ops NewMemoryStore ops in
    (fst (TTL s now k) = (-2)%Z ↔ fst (Get (snd (TTL s now k)) now k) = Ret Nil)
    ∧ (∀ deadline, expires s !! k = Some deadline → (deadline < now)%Z →
         fst (TTL s now k) = (-2)%Z ∧ fst (Get s now k) = Ret Nil).
Proof.
  intros ops now k s. split; [apply TTL_then_Get|].
  intros e He Hlt. split.
  - unfold TTL. rewrite He.
    destruct (data s !! k); [|done].
    assert (Until now e <= 0)%Z as Hr
      by (unfold Until, sat64, int64_min, int64_max; lia).
    apply Z.leb_le in Hr. by rewrite Hr.
  - unfold Get, isExpired. rewrite He.
    apply Z.ltb_lt in Hlt. by rewrite Hlt.
Qed.

(** A run for C8: SET k v, then EXPIRE k 5s at time 0; at time 6s the
    deadline is past. *)
Lemma TTL_absent_iff_Get_null_witness :
  let s := run_ops NewMemoryStore
             [(0%Z, OpSet "k" "v" None); (0%Z, OpExpire "k" (5 * Second) None)] in
  fst (TTL s (6 * Second) "k") = (-2)%Z ∧ fst (Get s (6 * Second) "k") = Ret Nil.
Proof.
  intros s.
  apply (proj2 (TTL_absent_iff_Get_null
                  [(0%Z, OpSet "k" "v" None); (0%Z, OpExpire "k" (5 * Second) None)]
                  (6 * Second) "k") (5 * Second)%Z).
  - vm_compute. reflexivity.
  - vm_compute. reflexivity.
Defined.

(** On the same store the two accessors disagree at one instant only, the
    deadline itself: [TTL] tests [remaining <= 0], [Get] tests
    [now.After(deadline)]. *)
Lemma TTL_Get_at_the_deadline :
  let s := run_ops NewMemoryStore
             [(0%Z, OpSet "k" "v" None); (0%Z, OpExpire "k" (5 * Second) None)] in
  fst (TTL s (5 * Second) "k") = (-2)%Z ∧ fst (Get s (5 * Second) "k") = Ret (Str "v").
Proof. split; vm_compute; reflexivity. Qed.

(** ** The framing of requests *)

Lemma sapp_cons (c : ascii) (s t : string) : String c s +:+ t = String c (s +:+ t).
Proof. reflexivity. Qed.

Lemma sapp_nil_r (s : string) : s +:+ "" = s.
Proof. induction s as [|c s IH]; [done|]. by rewrite sapp_cons, IH. Qed.

Lemma sapp_assoc (s t u : string) : (s +:+ t) +:+ u = s +:+ (t +:+ u).
Proof. induction s as [|c s IH]; [done|]. by rewrite !sapp_cons, IH. Qed.

Lemma slength_app (s t : string) :
  String.length (s +:+ t) = String.length s + String.length t.
Proof. induction s as [|c s IH]; [done|]. rewrite sapp_cons. simpl. by rewrite IH. Qed.

Lemma string_take_app (s t : string) : string_take (String.length s) (s +:+ t) = s.
Proof. induction s as [|c s IH]; [by destruct t|]. rewrite sapp_cons. simpl. by rewrite IH. Qed.

Lemma string_drop_app (s t : string) : string_drop (String.length s) (s +:+ t) = t.
Proof. induction s as [|c s IH]; [by destruct t|]. rewrite sapp_cons. simpl. by rewrite IH. Qed.

Lemma string_take_drop (n : nat) (s : string) :
  n ≤ String.length s →
  s = string_take n s +:+ string_drop n s ∧ String.length (string_take n s) = n.
Proof.
  revert s. induction n as [|n IH]; intros s Hn.
  - by destruct s.
  - destruct s as [|c s]; simpl in *; [lia|].
    destruct (IH s) as [H1 H2]; [lia|].
    rewrite sapp_cons, <- H1. simpl. by rewrite H2.
Qed.

Lemma get_app_length (s : string) (c : ascii) (t : string) :
  String.get (String.length s) (s +:+ String c t) = Some c.
Proof. induction s as [|d s IH]; [done|]. rewrite sapp_cons. simpl. exact IH. Qed.

Lemma snoc_cases (s : string) : s = "" ∨ ∃ t c, s = t +:+ String c "".
Proof.
  induction s as [|d s IH]; [by left|right].
  destruct IH as [->|(t & c & ->)].
  - by exists "", d.
  - by exists (String d t), c.
Qed.

Lemma has_byte_app (c : ascii) (s t : string) :
  has_byte c (s +:+ t) = has_byte c s || has_byte c t.
Proof.
  induction s as [|d s IH]; [done|].
  rewrite sapp_cons. simpl. rewrite IH. by rewrite orb_assoc.
Qed.

Lemma split_after_Some (d : ascii) (s l r : string) :
  split_after d s = Some (l, r) →
  ∃ l0, l = l0 +:+ String d "" ∧ s = l0 +:+ String d r ∧ has_byte d l0 = false.
Proof.
  revert l. induction s as [|c s IH]; intros l H; [done|].
  simpl in H. destruct (Ascii.eqb c d) eqn:Hc.
  - apply Ascii.eqb_eq in Hc as ->. simplify_eq. by exists "".
  - destruct (split_after d s) as [[l' r']|]; [|done]. simplify_eq.
    destruct (IH l' eq_refl) as (l0 & -> & -> & Hl0).
    exists (String c l0). repeat split; simpl. by rewrite Hc.
Qed.

Lemma split_after_app (d : ascii) (l0 r : string) :
  has_byte d l0 = false →
  split_after d (l0 +:+ String d r) = Some (l0 +:+ String d "", r).
Proof.
  induction l0 as [|c l0 IH]; intros H.
  - change ("" +:+ String d r) with (String d r). simpl. by rewrite Ascii.eqb_refl.
  - simpl in H. apply orb_false_iff in H as [Hc Hl].
    rewrite !sapp_cons. simpl. rewrite Hc, (IH Hl). done.
Qed.

Lemma readLine_Ret (r : Reader) (line : string) (r' : Reader) :
  readLine r = (Ret line, r') →
  pending r = line +:+ CRLF +:+ pending r' ∧ read_err r' = read_err r
  ∧ has_byte LF line = false.
Proof.
  unfold readLine, ReadString.
  destruct (split_after LF (pending r)) as [[raw s]|] eqn:Hs; [|done].
  apply split_after_Some in Hs as (l0 & -> & Hp & Hl0).
  case_decide as Hn; [done|].
  case_bool_decide as Hg; [|done]. simpl. intros [= <- <-]. simpl.
  rewrite slength_app in Hn, Hg |- *. simpl in *.
  destruct (snoc_cases l0) as [->|(t & c & ->)]; [simpl in Hn; lia|].
  rewrite slength_app in Hg |- *. simpl in *.
  replace (String.length t + 1 + 1 - 2) with (String.length t) in * by lia.
  rewrite !sapp_assoc in Hg |- *. rewrite sapp_cons in Hg |- *.
  rewrite get_app_length in Hg. simplify_eq.
  rewrite string_take_app. rewrite Hp, !sapp_assoc.
  rewrite has_byte_app in Hl0. apply orb_false_iff in Hl0 as [Ht _].
  done.
Qed.

Lemma readLine_app (line rest e : string) :
  has_byte LF line = false →
  readLine {| pending := line +:+ CRLF +:+ rest; read_err := e |}
  = (Ret line, {| pending := rest; read_err := e |}).
Proof.
  intros Hl. unfold readLine, ReadString. simpl.
  change (line +:+ CRLF +:+ rest) with (line +:+ String CR (String LF rest)).
  replace (line +:+ String CR (String LF rest))
    with ((line +:+ String CR "") +:+ String LF rest)
    by (by rewrite sapp_assoc).
  rewrite split_after_app by (by rewrite has_byte_app, Hl).
  rewrite !slength_app. simpl.
  case_decide; [lia|].
  replace (String.length line + 1 + 1 - 2) with (String.length line) by lia.
  rewrite !sapp_assoc, sapp_cons, get_app_length.
  rewrite bool_decide_eq_true_2 by done. simpl.
  by rewrite string_take_app.
Qed.

Lemma digits_no_LF (s : string) (acc v : Z) :
  digits s acc = Some v → has_byte LF s = false.
Proof.
  revert acc. induction s as [|c s IH]; intros acc H; [done|].
  simpl in H. destruct (digit c) eqn:Hd; [|done].
  simpl. rewrite (IH _ H), orb_false_r.
  apply Ascii.eqb_neq. intros ->. by vm_compute in Hd.
Qed.

Lemma Atoi_no_LF (s : string) (n : Z) : Atoi s = Some n → has_byte LF s = false.
Proof.
  unfold Atoi. intros H.
  assert (∀ body, (match body with
                   | "" => None
                   | _ => match digits body 0 with
                          | Some v => Some v
                          | None => None
                          end
                   end : option Z) ≠ None → has_byte LF body = false) as Hb.
  { intros body Hne. destruct (digits body 0) eqn:Hd.
    - by eapply digits_no_LF.
    - by destruct body. }
  destruct s as [|c s]; [done|].
  destruct (Ascii.eqb c "-") eqn:Hm; [|destruct (Ascii.eqb c "+") eqn:Hp].
  - apply Ascii.eqb_eq in Hm as ->. simpl.
    apply Hb. destruct s; [done|]. by destruct (digits _ 0).
  - apply Ascii.eqb_eq in Hp as ->. simpl.
    apply Hb. destruct s; [done|]. by destruct (digits _ 0).
  - apply Hb. by destruct (digits _ 0).
Qed.

Lemma readInteger_Ret (r : Reader) (n : Z) (r' : Reader) :
  readInteger r = (Ret n, r') →
  ∃ t, Atoi t = Some n ∧ pending r = t +:+ CRLF +:+ pending r'
       ∧ read_err r' = read_err r.
Proof.
  unfold readInteger.
  destruct (readLine r) as [[line|e] r1] eqn:Hl; [|done].
  destruct (Atoi line) as [v|] eqn:Ha; [|done].
  intros [= <- <-]. apply readLine_Ret in Hl as (? & ? & ?). by exists line.
Qed.

Lemma readInteger_app (t rest e : string) (n : Z) :
  Atoi t = Some n →
  readInteger {| pending := t +:+ CRLF +:+ rest; read_err := e |}
  = (Ret n, {| pending := rest; read_err := e |}).
Proof.
  intros Ha. unfold readInteger.
  rewrite readLine_app by (by eapply Atoi_no_LF). by rewrite Ha.
Qed.

Lemma ReadByte_Ret (r : Reader) (c : ascii) (r' : Reader) :
  ReadByte r = (Ret c, r') ↔
  pending r = String c (pending r') ∧ read_err r' = read_err r.
Proof.
  unfold ReadByte. destruct r as [p e]; simpl. destruct p as [|d p].
  - split; [done|]. by intros [? _].
  - split.
    + by intros [= <- <-].
    + destruct r' as [p' e']; simpl. by intros [[= <- <-] <-].
Qed.

Lemma ReadFull_Ret (r : Reader) (n : nat) (data : string) (r' : Reader) :
  ReadFull r n = (Ret data, r') →
  pending r = data +:+ pending r' ∧ String.length data = n
  ∧ read_err r' = read_err r.
Proof.
  unfold ReadFull. case_decide as Hn.
  - intros [= <- <-]. simpl. by destruct (string_take_drop n (pending r) Hn).
  - by destruct (_ && _).
Qed.

Lemma ReadFull_app (data rest e : string) :
  ReadFull {| pending := data +:+ rest; read_err := e |} (String.length data)
  = (Ret data, {| pending := rest; read_err := e |}).
Proof.
  unfold ReadFull. simpl. rewrite slength_app.
  case_decide; [|lia]. unfold rest_of. simpl.
  by rewrite string_take_app, string_drop_app.
Qed.

Lemma readCRLF_None (r r' : Reader) :
  readCRLF r = (None, r') ↔
  pending r = CRLF +:+ pending r' ∧ read_err r' = read_err r.
Proof.
  unfold readCRLF, ReadByte. destruct r as [p e], r' as [p' e']; simpl.
  change (CRLF +:+ p') with (String CR (String LF p')).
  destruct p as [|c p]; [by split; [|intros [? _]]|]. simpl.
  destruct (Ascii.eqb c CR) eqn:Hc; simpl.
  - apply Ascii.eqb_eq in Hc as ->.
    destruct p as [|d p]; [by split; [|intros [? _]]|]. simpl.
    destruct (Ascii.eqb d LF) eqn:Hd; simpl.
    + apply Ascii.eqb_eq in Hd as ->. split.
      * by intros [= <- <-].
      * by intros [[= <-] <-].
    + split; [done|]. intros [[= ->] _]. by rewrite Ascii.eqb_refl in Hd.
  - split; [done|]. intros [[= -> _] _]. by rewrite Ascii.eqb_refl in Hc.
Qed.

Lemma make_Done (mem : Z → bool) (n size k : Z) :
  allocatable mem k → (0 ≤ n * size ≤ k)%Z → make mem n size = Done tt.
Proof.
  intros [Hmax Hmem] Hn. unfold make. cbv zeta.
  destruct (Z.ltb_spec maxAlloc (n * size)); [lia|].
  destruct (Z.eqb_spec (n * size) 0); [done|].
  by rewrite Hmem by lia.
Qed.

Lemma make_Panic (mem : Z → bool) (n size : Z) :
  (maxAlloc < n * size)%Z → make mem n size = Panic.
Proof. intros Hn. unfold make. cbv zeta. by destruct (Z.ltb_spec maxAlloc (n * size)); [|lia]. Qed.

Lemma allocatable_le (mem : Z → bool) (n k : Z) :
  allocatable mem k → (n ≤ k)%Z → allocatable mem n.
Proof. intros [Hmax Hmem] Hn. split; [lia|]. intros b Hb. apply Hmem. lia. Qed.

Lemma readBulkString_Ret (mem : Z → bool) (r : Reader) (a : string) (r' : Reader) :
  readBulkString mem r = Done (Ret a, r') →
  ∃ w, bulk_form w a ∧ pending r = w +:+ pending r' ∧ read_err r' = read_err r.
Proof.
  unfold readBulkString.
  destruct (ReadByte r) as [[b|?] r1] eqn:Hb; [|done].
  apply ReadByte_Ret in Hb as [Hp1 He1].
  destruct (Ascii.eqb b "$") eqn:Hd; [|done]. simpl.
  apply Ascii.eqb_eq in Hd as ->.
  destruct (readInteger r1) as [[len|?] r2] eqn:Hi; [|done].
  apply readInteger_Ret in Hi as (t & Ha & Hp2 & He2).
  destruct (Z.ltb_spec len 0) as [Hneg|Hpos].
  - intros [= <- <-]. exists ("$" +:+ t +:+ CRLF). split; [by eapply bulk_null|].
    rewrite Hp1, Hp2. split; [|congruence].
    by rewrite !sapp_assoc.
  - destruct (make mem len 1) as [[]| |]; simpl; [|done..].
    destruct (ReadFull r2 (Z.to_nat len)) as [[data|?] r3] eqn:Hf; [|done].
    apply ReadFull_Ret in Hf as (Hp3 & Hlen & He3).
    destruct (readCRLF r3) as [[?|] r4] eqn:Hc; [done|].
    apply readCRLF_None in Hc as [Hp4 He4].
    intros [= <- <-]. exists ("$" +:+ t +:+ CRLF +:+ data +:+ CRLF).
    split; [eapply bulk_data; [done|done|lia]|].
    rewrite Hp1, Hp2, Hp3, Hp4. split; [|congruence].
    by rewrite !sapp_assoc.
Qed.

Lemma sapp_nil_l (s : string) : "" +:+ s = s.
Proof. reflexivity. Qed.

(** The wire form of an element is at least as long as its data. *)
Lemma bulk_form_length (w a : string) :
  bulk_form w a → 0 < String.length w ∧ String.length a ≤ String.length w.
Proof.
  intros [t data L Ha HL Hlen|t L Ha HL].
  - rewrite !slength_app. simpl. lia.
  - simpl. lia.
Qed.

Lemma bulks_form_length (body : string) (args : list string) :
  bulks_form body args → length args ≤ String.length body.
Proof.
  induction 1 as [|w ws a args Hw Hws IH]; [done|].
  apply bulk_form_length in Hw. rewrite slength_app. simpl. lia.
Qed.

Lemma readBulkString_app (mem : Z → bool) (w a rest e : string) :
  bulk_form w a → allocatable mem (Z.of_nat (String.length w)) →
  readBulkString mem {| pending := w +:+ rest; read_err := e |}
  = Done (Ret a, {| pending := rest; read_err := e |}).
Proof.
  intros Hw Hmem. pose proof (bulk_form_length _ _ Hw) as [_ Hlen'].
  destruct Hw as [t data L Ha HL Hlen|t L Ha HL]; unfold readBulkString.
  - rewrite !sapp_assoc, sapp_cons, sapp_nil_l. simpl. unfold rest_of. simpl.
    rewrite (readInteger_app _ _ _ _ Ha).
    destruct (Z.ltb_spec L 0); [lia|].
    rewrite (make_Done mem L 1 _ Hmem) by lia. simpl.
    replace (Z.to_nat L) with (String.length data) by lia.
    rewrite ReadFull_app.
    change (CRLF +:+ rest) with (String CR (String LF rest)).
    by unfold readCRLF, ReadByte; simpl.
  - rewrite !sapp_assoc, sapp_cons, sapp_nil_l. simpl. unfold rest_of. simpl.
    rewrite (readInteger_app _ _ _ _ Ha).
    by destruct (Z.ltb_spec L 0); [|lia].
Qed.

Lemma readElements_Ret (mem : Z → bool) (n : nat) (r : Reader) (args : list string)
    (r' : Reader) :
  readElements mem n r = Done (Ret args, r') →
  ∃ body, bulks_form body args ∧ length args = n
          ∧ pending r = body +:+ pending r' ∧ read_err r' = read_err r.
Proof.
  revert r args. induction n as [|n IH]; intros r args; simpl.
  - intros [= <- <-]. exists "". by repeat split; [constructor|..].
  - destruct (readBulkString mem r) as [[[a|?] r1]| |] eqn:Hb; simpl; [|done..].
    destruct (readElements mem n r1) as [[[l|?] r2]| |] eqn:Hr; simpl; [|done..].
    intros [= <- <-].
    apply readBulkString_Ret in Hb as (w & Hw & Hp1 & He1).
    apply IH in Hr as (body & Hbody & Hlen & Hp2 & He2).
    exists (w +:+ body). repeat split.
    + by constructor.
    + simpl. by rewrite Hlen.
    + by rewrite Hp1, Hp2, sapp_assoc.
    + congruence.
Qed.

Lemma readElements_app (mem : Z → bool) (body rest e : string) (args : list string) :
  bulks_form body args → allocatable mem (Z.of_nat (String.length body)) →
  readElements mem (length args) {| pending := body +:+ rest; read_err := e |}
  = Done (Ret args, {| pending := rest; read_err := e |}).
Proof.
  induction 1 as [|w ws a args Hw Hws IH]; intros Hmem; [done|].
  rewrite slength_app in Hmem.
  simpl. rewrite sapp_assoc, (readBulkString_app _ _ _ _ _ Hw)
    by (eapply allocatable_le; [exact Hmem|lia]).
  simpl. rewrite IH by (eapply allocatable_le; [exact Hmem|lia]). done.
Qed.

(** What the framing accepts has the request form. *)
Lemma parseFrame_Ret (mem : Z → bool) (r : Reader) (args : list string) (r' : Reader) :
  parseFrame mem r = Done (Ret args, r') →
  read_err r' = read_err r ∧ request_form (pending r) args (pending r').
Proof.
  unfold parseFrame.
  destruct (ReadByte r) as [[b|?] r1] eqn:Hb; [|done].
  apply ReadByte_Ret in Hb as [Hp1 He1].
  destruct (Ascii.eqb b "*") eqn:Hs.
  - apply Ascii.eqb_eq in Hs as ->. unfold parseElements.
    destruct (readInteger r1) as [[N|?] r2] eqn:Hi; [|done].
    apply readInteger_Ret in Hi as (t & Ha & Hp2 & He2).
    destruct (Z.ltb_spec N 1) as [|HN]; [done|].
    destruct (make mem N 16) as [[]| |]; simpl; [|done..].
    intros Hr. apply readElements_Ret in Hr as (body & Hbody & Hlen & Hp3 & He3).
    split; [congruence|].
    exists t, N, body. repeat split; [done|done|lia|done|].
    rewrite Hp1, Hp2, Hp3. simpl. by rewrite ?sapp_assoc.
  - by repeat destruct (Ascii.eqb b _).
Qed.

(** The framing accepts every request form for which the memory is to be
    had: 16 bytes for each element of the array, and the bytes of each
    element, all of them bounded by the length of the input. *)
Lemma parseFrame_app (mem : Z → bool) (r : Reader) (args : list string) (rest : string) :
  allocatable mem (16 * Z.of_nat (String.length (pending r))) →
  request_form (pending r) args rest →
  parseFrame mem r = Done (Ret args, {| pending := rest; read_err := read_err r |}).
Proof.
  intros Hmem (t & N & body & Ha & HN & Hlen & Hbody & Hp).
  destruct r as [p e]. simpl in *. subst p.
  pose proof (bulks_form_length _ _ Hbody) as Hargs.
  rewrite !slength_app in Hmem. simpl in Hmem.
  unfold parseFrame. rewrite ?sapp_assoc, sapp_cons, sapp_nil_l. simpl.
  unfold rest_of, parseElements. simpl.
  rewrite (readInteger_app _ _ _ _ Ha).
  destruct (Z.ltb_spec N 1); [lia|].
  rewrite (make_Done mem N 16 _ Hmem) by lia. simpl.
  replace (Z.to_nat N) with (length args) by lia.
  apply readElements_app; [done|].
  eapply allocatable_le; [exact Hmem|lia].
Qed.

(** An element whose declared length is beyond the limit of an allocation
    makes the parser panic, as an array of such a length does. *)
Lemma readBulkString_Panic (mem : Z → bool) (t rest e : string) (L : Z) :
  Atoi t = Some L → (maxAlloc < L)%Z →
  readBulkString mem {| pending := "$" +:+ t +:+ CRLF +:+ rest; read_err := e |}
  = Panic.
Proof.
  intros Ha HL. unfold readBulkString. rewrite sapp_cons, sapp_nil_l. simpl.
  unfold rest_of. simpl. rewrite (readInteger_app _ _ _ _ Ha).
  destruct (Z.ltb_spec L 0); [unfold maxAlloc in HL; lia|].
  by rewrite make_Panic by lia.
Qed.

Lemma Parse_panics_on_huge_element :
  Parse ParseFloat_integer mem_enough 0
    {| pending := "*1" +:+ CRLF +:+ "$9223372036854775807" +:+ CRLF; read_err := EOF |}
  = Panic.
Proof. vm_compute. reflexivity. Qed.

(** C5, as amended.  The request parser accepts only non-empty arrays of
    bulk strings, in which an element of negative length, the null bulk
    string ['$-1'] among them, is read as the empty string; and it accepts
    such a request exactly when [createCommand] makes a command of its
    elements, as long as the memory for them is to be had:
    - when the framing of [Parse] returns the elements [args] and leaves
      [rest] unread, the input is ['*' N CRLF] followed by the wire forms
      of [N >= 1] elements and by [rest], each element being ['$' L CRLF],
      [L] bytes and [CRLF] for [L >= 0], or ['$' L CRLF] alone for [L < 0];
    - on such an input the framing returns the elements, when every
      allocation of up to 16 bytes for each byte of the input succeeds;
    - a command comes out of [Parse] only for such an input, as the result
      of [createCommand] on the elements, and then it does come out, on
      the same condition on the memory;
    - an input that starts with another byte than ['*'] (a simple string,
      an integer, an error, a bare bulk string) is rejected;
    - an array of length below 1 is rejected;
    - an array whose declared length is beyond the limit of an allocation
      is not rejected: the parser panics. *)
Theorem parser_accepts_request_forms :
  ∀ (mem : Z → bool) (r : Reader),
    (∀ args rest,
       parseFrame mem r = Done (Ret args, {| pending := rest; read_err := read_err r |})
       → request_form (pending r) args rest)
    ∧ (allocatable mem (16 * Z.of_nat (String.length (pending r))) →
       ∀ args rest,
         request_form (pending r) args rest →
         parseFrame mem r
         = Done (Ret args, {| pending := rest; read_err := read_err r |}))
    ∧ (∀ ParseFloat now c r',
         Parse ParseFloat mem now r = Done (Ret c, r') →
         ∃ args, request_form (pending r) args (pending r')
                 ∧ createCommand ParseFloat now args = Done (Ret c))
    ∧ (allocatable mem (16 * Z.of_nat (String.length (pending r))) →
       ∀ ParseFloat now c args rest,
         request_form (pending r) args rest →
         createCommand ParseFloat now args = Done (Ret c) →
         Parse ParseFloat mem now r
         = Done (Ret c, {| pending := rest; read_err := read_err r |}))
    ∧ (∀ b s, pending r = String b s → b ≠ "*"%char →
         ∃ e r', parseFrame mem r = Done (Err e, r'))
    ∧ (∀ t N rest,
         pending r = "*" +:+ t +:+ CRLF +:+ rest → Atoi t = Some N → (N < 1)%Z →
         ∃ r', parseFrame mem r = Done (Err "array length must be positive", r'))
    ∧ (∀ t N rest,
         pending r = "*" +:+ t +:+ CRLF +:+ rest → Atoi t = Some N →
         (maxAlloc < N * 16)%Z →
         parseFrame mem r = Panic ∧ ∀ ParseFloat now, Parse ParseFloat mem now r = Panic).
Proof.
  intros mem r. split; [|split; [|split; [|split; [|split; [|split]]]]].
  - intros args rest Hf. by apply parseFrame_Ret in Hf as [_ Hf].
  - intros Hmem args rest. by apply parseFrame_app.
  - intros pf now c r'. unfold Parse.
    destruct (parseFrame mem r) as [[[args|?] r1]| |] eqn:Hf; simpl; try done.
    apply parseFrame_Ret in Hf as [_ Hf].
    destruct (createCommand pf now args) as [[c'|?]| |] eqn:Hc; simpl; try done.
    intros [= <- <-]. by exists args.
  - intros Hmem pf now c args rest Hf Hc. unfold Parse.
    rewrite (parseFrame_app mem r args rest Hmem Hf). simpl. by rewrite Hc.
  - intros b s Hp Hb. unfold parseFrame, ReadByte. rewrite Hp. simpl.
    apply Ascii.eqb_neq in Hb. rewrite Hb.
    destruct (Ascii.eqb b "$"); [by eexists _, _|].
    destruct (Ascii.eqb b "+"); [by eexists _, _|].
    destruct (Ascii.eqb b ":"); [by eexists _, _|].
    destruct (Ascii.eqb b "-"); by eexists _, _.
  - intros t N rest Hp Ha HN. destruct r as [p e]. simpl in Hp. subst p.
    unfold parseFrame. rewrite sapp_cons, sapp_nil_l. simpl.
    unfold rest_of, parseElements. simpl.
    rewrite (readInteger_app _ _ _ _ Ha).
    destruct (Z.ltb_spec N 1); [|lia]. by eexists.
  - intros t N rest Hp Ha HN. destruct r as [p e]. simpl in Hp. subst p.
    assert (parseFrame mem {| pending := "*" +:+ t +:+ CRLF +:+ rest; read_err := e |}
            = Panic) as HP.
    { unfold parseFrame. rewrite sapp_cons, sapp_nil_l. simpl.
      unfold rest_of, parseElements. simpl.
      rewrite (readInteger_app _ _ _ _ Ha).
      destruct (Z.ltb_spec N 1); [unfold maxAlloc in HN; lia|].
      by rewrite make_Panic. }
    split; [done|]. intros pf now. unfold Parse. by rewrite HP.
Qed.

(** An array of length 0, an input that starts with a simple string, the
    request [PING] with the memory it asks for, and an array that declares
    2^63 - 1 elements. *)
Lemma parser_accepts_request_forms_witness :
  (∃ r', parseFrame mem_enough
           {| pending := "*" +:+ "0" +:+ CRLF +:+ ""; read_err := EOF |}
         = Done (Err "array length must be positive", r'))
  ∧ (∃ e r', parseFrame mem_enough {| pending := "+OK" +:+ CRLF; read_err := EOF |}
             = Done (Err e, r'))
  ∧ Parse ParseFloat_integer mem_enough 0
      {| pending := "*" +:+ "1" +:+ CRLF +:+ bulk_of "4" "PING" +:+ "";
         read_err := EOF |}
    = Done (Ret PingCommand, {| pending := ""; read_err := EOF |})
  ∧ parseFrame mem_enough
      {| pending := "*" +:+ "9223372036854775807" +:+ CRLF +:+ ""; read_err := EOF |}
    = Panic.
Proof.
  split; [|split; [|split]].
  - apply (proj1 (proj2 (proj2 (proj2 (proj2 (proj2 (parser_accepts_request_forms
             mem_enough
             {| pending := "*" +:+ "0" +:+ CRLF +:+ ""; read_err := EOF |}))))))
             "0" 0%Z "").
    + reflexivity.
    + reflexivity.
    + lia.
  - apply (proj1 (proj2 (proj2 (proj2 (proj2 (parser_accepts_request_forms
             mem_enough {| pending := "+OK" +:+ CRLF; read_err := EOF |})))))
             "+"%char ("OK" +:+ CRLF)).
    + reflexivity.
    + discriminate.
  - refine (proj1 (proj2 (proj2 (proj2 (parser_accepts_request_forms
              mem_enough
              {| pending := "*" +:+ "1" +:+ CRLF +:+ bulk_of "4" "PING" +:+ "";
                 read_err := EOF |})))) _ ParseFloat_integer 0%Z PingCommand
              ["PING"] "" _ _).
    + split; [vm_compute; discriminate|]. reflexivity.
    + exists "1", 1%Z, (bulk_of "4" "PING"). split; [reflexivity|].
      split; [lia|]. split; [reflexivity|]. split; [|reflexivity].
      rewrite <- (sapp_nil_r (bulk_of "4" "PING")). constructor; [|constructor].
      apply (bulk_data "4" "PING" 4); [reflexivity|lia|reflexivity].
    + reflexivity.
  - apply (proj2 (proj2 (proj2 (proj2 (proj2 (proj2 (parser_accepts_request_forms
             mem_enough
             {| pending := "*" +:+ "9223372036854775807" +:+ CRLF +:+ "";
                read_err := EOF |}))))))
             "9223372036854775807" 9223372036854775807%Z "").
    + reflexivity.
    + vm_compute. reflexivity.
    + vm_compute. reflexivity.
Defined.

(** ** The connection handler *)




















(** ** The skip list: every operation returns

    The pointer structure of a list built by [insert] and [delete] is
    that of [wf]; on such a list the loops that follow pointers end, no
    index leaves its slice, and [wf] holds again afterwards.  The order of
    the scores plays no part in this (and does not hold when a score is
    NaN). *)

Lemma lastd_nil (p : ptr) : lastd p [] = p.
Proof. done. Qed.

Lemma lastd_cons (p q : ptr) (l : list ptr) : lastd p (q :: l) = lastd q l.
Proof.
  unfold lastd. destruct l as [|x l]; [done|].
  rewrite last_cons_cons.
  destruct (proj2 (last_is_Some (x :: l))) as [y Hy]; [done|]. by rewrite Hy.
Qed.

Lemma lastd_snoc (p q : ptr) (l : list ptr) : lastd p (l ++ [q]) = q.
Proof. unfold lastd. by rewrite last_snoc. Qed.

Lemma lastd_app (p : ptr) (l1 l2 : list ptr) :
  lastd p (l1 ++ l2) = lastd (lastd p l1) l2.
Proof.
  revert p. induction l1 as [|x l1 IH]; intros p; [done|].
  simpl. by rewrite !lastd_cons, IH.
Qed.

Lemma lastd_elem (p : ptr) (l : list ptr) : lastd p l = p ∨ lastd p l ∈ l.
Proof.
  revert p. induction l as [|x l IH]; intros p; [by left|].
  right. rewrite lastd_cons. destruct (IH x) as [->|?]; set_solver.
Qed.

Lemma fwd_Some_node (h : list skiplistNode) (p : ptr) (i : nat) x :
  fwd h p i = Some x → ∃ n, h !! p = Some n ∧ forward n !! i = Some x.
Proof. unfold fwd. destruct (h !! p) as [n|]; [|done]. by exists n. Qed.

Lemma chain_node (h : list skiplistNode) (i : nat) (p : ptr) (l : list ptr) :
  chain h i p l → ∃ n, h !! p = Some n ∧ i < length (forward n).
Proof.
  destruct l as [|q l]; simpl; [intros H|intros [H _]];
    apply fwd_Some_node in H as (n & Hn & Hf); exists n; split; try done;
    by eapply lookup_lt_Some.
Qed.

Lemma chain_app (h : list skiplistNode) (i : nat) (p : ptr) (l1 l2 : list ptr) :
  chain h i p (l1 ++ l2) → chain h i (lastd p l1) l2.
Proof.
  revert p. induction l1 as [|x l1 IH]; intros p; [done|].
  simpl. intros [_ H]. rewrite lastd_cons. by apply IH.
Qed.

Lemma chain_head (h : list skiplistNode) (i : nat) (p : ptr) (l : list ptr) :
  chain h i p l → fwd h p i = Some (head l).
Proof. destruct l; simpl; [done|]. by intros [? _]. Qed.

(** The inner loop stops on the last node of the longest run of nodes
    that pass the test. *)
Lemma walk_spec (h : list skiplistNode) (P : skiplistNode → bool) (i : nat)
    (l : list ptr) :
  ∀ (fuel : nat) (p : ptr),
    chain h i p l → length l < fuel →
    ∃ l1 l2, l = l1 ++ l2
             ∧ walk fuel h P i p = Done (lastd p l1)
             ∧ Forall (λ q, on_node h P q = true) l1
             ∧ (∀ y, head l2 = Some y → on_node h P y = false).
Proof.
  induction l as [|q l IH]; intros fuel p Hc Hf.
  - exists [], []. destruct fuel as [|fuel]; [simpl in Hf; lia|].
    simpl in Hc. apply fwd_Some_node in Hc as (n & Hn & Hi).
    repeat split; [|done|done].
    simpl. unfold deref, index. rewrite Hn. simpl. by rewrite Hi.
  - destruct fuel as [|fuel]; [simpl in Hf; lia|].
    destruct Hc as [Hp Hc].
    apply fwd_Some_node in Hp as (n & Hn & Hi).
    destruct (chain_node _ _ _ _ Hc) as (nq & Hq & _).
    destruct (P nq) eqn:HP.
    + destruct (IH fuel q Hc) as (l1 & l2 & -> & Hw & Hall & Hstop);
        [simpl in Hf; lia|].
      exists (q :: l1), l2. repeat split; [| |done].
      * simpl. unfold deref, index. rewrite Hn. simpl. rewrite Hi. simpl.
        rewrite Hq. simpl. rewrite HP. by rewrite lastd_cons.
      * constructor; [|done]. unfold on_node. by rewrite Hq.
    + exists [], (q :: l). repeat split; [|done|].
      * simpl. unfold deref, index. rewrite Hn. simpl. rewrite Hi. simpl.
        rewrite Hq. simpl. by rewrite HP.
      * intros y [= <-]. unfold on_node. by rewrite Hq.
Qed.

Lemma NoDup_split_unique (c : nat) (x1 y1 x2 y2 : list nat) :
  NoDup (x1 ++ c :: y1) → x1 ++ c :: y1 = x2 ++ c :: y2 → x1 = x2 ∧ y1 = y2.
Proof.
  revert x2. induction x1 as [|a x1 IH]; intros x2 Hnd Heq.
  - destruct x2 as [|b x2]; simpl in *; [by inversion Heq|].
    inversion Heq; subst. apply NoDup_cons in Hnd as [Hn _].
    destruct Hn. apply elem_of_app. right. left.
  - destruct x2 as [|b x2]; simpl in *; inversion Heq; subst.
    + apply NoDup_cons in Hnd as [Hn _].
      destruct Hn. apply elem_of_app. right. left.
    + apply NoDup_cons in Hnd as [_ Hnd].
      by destruct (IH x2 Hnd H1) as [-> ->].
Qed.

Lemma at_level_app (h : list skiplistNode) (i : nat) (l1 l2 : list ptr) :
  at_level h i (l1 ++ l2) = at_level h i l1 ++ at_level h i l2.
Proof. apply filter_app. Qed.

Lemma at_level_cons (h : list skiplistNode) (i : nat) (q : ptr) (l : list ptr) :
  at_level h i (q :: l)
  = if decide (i < height h q) then q :: at_level h i l else at_level h i l.
Proof. unfold at_level. by rewrite filter_cons. Qed.

Lemma elem_of_at_level (h : list skiplistNode) (i : nat) (q : ptr) (l : list ptr) :
  q ∈ at_level h i l ↔ i < height h q ∧ q ∈ l.
Proof. unfold at_level. by rewrite list_elem_of_filter. Qed.

Lemma lastd_at_level (h : list skiplistNode) (i : nat) (A : list ptr) :
  (A ≠ [] → i < height h (lastd 0 A)) →
  lastd 0 (at_level h i A) = lastd 0 A.
Proof.
  destruct A as [|a A] using rev_ind; [done|].
  rewrite lastd_snoc. intros H. rewrite at_level_app, at_level_cons.
  rewrite decide_True by (apply H; by destruct A).
  by rewrite lastd_snoc.
Qed.

Section Search.
Context (h : list skiplistNode) (P : skiplistNode → bool) (ord : list ptr) (L : nat).
Hypothesis Hnd : NoDup ord.
Hypothesis Hchain : ∀ i, i < maxLevel → chain h i 0 (at_level h i ord).
Hypothesis Hlen : length ord < length h.
Hypothesis HL : L ≤ maxLevel.

(** The search returns; every level it passes is settled. *)
Lemma search_spec (lvl : nat) :
  ∀ (A B : list ptr) (update : list (option ptr)),
    ord = A ++ B →
    lvl ≤ L →
    (A ≠ [] → lvl ≤ height h (lastd 0 A)) →
    length update = maxLevel →
    (∀ j, lvl ≤ j < L → settled h P A B update j) →
    ∃ A' B' update',
      search h P lvl (lastd 0 A) update = Done (lastd 0 A', update')
      ∧ ord = A' ++ B'
      ∧ length update' = maxLevel
      ∧ (∀ j, j < L → settled h P A' B' update' j)
      ∧ (∀ j, L ≤ j → update' !! j = update !! j)
      ∧ (A' = A ∨ (A' ≠ [] ∧ on_node h P (lastd 0 A') = true)).
Proof.
  induction lvl as [|i IH]; intros A B update Hord Hlvl Htall Hupd Hset.
  { exists A, B, update. repeat split; try done.
    - apply Hset. lia.
    - apply Hset. lia.
    - by left. }
  assert (i < maxLevel) as Hi by lia.
  assert (lastd 0 (at_level h i A) = lastd 0 A) as Hlast.
  { apply lastd_at_level. intros HA. specialize (Htall HA). lia. }
  assert (chain h i (lastd 0 A) (at_level h i B)) as Hc.
  { pose proof (Hchain i Hi) as Hc. rewrite Hord, at_level_app in Hc.
    apply chain_app in Hc. by rewrite Hlast in Hc. }
  assert (NoDup B) as HndB.
  { rewrite Hord in Hnd. by apply NoDup_app in Hnd as (_ & _ & ?). }
  destruct (walk_spec h P i _ (chain_fuel h) _ Hc) as (l1 & l2 & Hl & Hw & Hall & Hstop).
  { unfold chain_fuel, at_level.
    pose proof (length_filter (λ q, i < height h q) B) as Hf.
    rewrite Hord, length_app in Hlen. lia. }
  cbn [search]. rewrite Hw. cbn [obind]. unfold assign.
  rewrite decide_True by lia. cbn [obind].
  destruct l1 as [|c' l1'] using rev_ind.
  - (* the walk stays *)
    rewrite lastd_nil.
    destruct (IH A B (<[i := Some (lastd 0 A)]> update)) as
      (A' & B' & update' & Hs & Hord' & Hupd' & Hset' & Hkeep & Hmove);
      [done|lia|intros HA; specialize (Htall HA); lia|by rewrite length_insert|..].
    { intros j Hj. destruct (decide (j = i)) as [->|Hne].
      - split.
        + rewrite list_lookup_insert_eq by lia. by rewrite Hlast.
        + intros y Hy. apply Hstop. by rewrite Hl in Hy.
      - destruct (Hset j) as [Hu Hst]; [lia|]. split; [|done].
        by rewrite list_lookup_insert_ne. }
    exists A', B', update'. repeat split; try done; try apply Hset'; try done.
    intros j Hj. rewrite Hkeep by done. apply list_lookup_insert_ne. lia.
  - (* the walk ends on [c'] *)
    rewrite lastd_snoc.
    assert (c' ∈ at_level h i B) as Hc'.
    { rewrite Hl. set_solver. }
    apply elem_of_at_level in Hc' as [Hh Hin].
    apply list_elem_of_split in Hin as (B1 & B2 & ->).
    assert (at_level h i B1 = l1' ∧ at_level h i B2 = l2) as [HB1 HB2].
    { apply (NoDup_split_unique c').
      - rewrite <- (decide_True (c' :: at_level h i B2) (at_level h i B2) Hh).
        rewrite <- at_level_cons, <- at_level_app.
        by apply NoDup_filter.
      - rewrite <- (decide_True (c' :: at_level h i B2) (at_level h i B2) Hh).
        rewrite <- at_level_cons, <- at_level_app, Hl.
        by rewrite <- app_assoc. }
    assert (∀ j, i < j → j < L → settled h P A (B1 ++ c' :: B2) update j →
              at_level h j (B1 ++ [c']) = []) as Hempty.
    { intros j Hij HjL [_ Hst].
      destruct (at_level h j (B1 ++ [c'])) as [|z zs] eqn:Hz; [done|exfalso].
      assert (z ∈ at_level h j (B1 ++ [c'])) as Hzin by (rewrite Hz; set_solver).
      apply elem_of_at_level in Hzin as [Hzh Hzin].
      assert (on_node h P z = true) as HPz.
      { eapply (proj1 (Forall_forall _ _) Hall).
        rewrite <- HB1.
        replace (at_level h i B1 ++ [c']) with (at_level h i (B1 ++ [c'])).
        - apply elem_of_at_level. split; [lia|done].
        - rewrite at_level_app, at_level_cons. by rewrite decide_True. }
      rewrite (Hst z) in HPz; [done|].
      replace (B1 ++ c' :: B2) with ((B1 ++ [c']) ++ B2) by (by rewrite <- app_assoc).
      by rewrite at_level_app, Hz. }
    destruct (IH (A ++ B1 ++ [c']) B2 (<[i := Some c']> update)) as
      (A' & B' & update' & Hs & Hord' & Hupd' & Hset' & Hkeep & Hmove).
    { rewrite Hord. by rewrite <- !app_assoc. }
    { lia. }
    { intros _. rewrite !app_assoc, lastd_snoc. lia. }
    { by rewrite length_insert. }
    { intros j Hj. destruct (decide (j = i)) as [->|Hne].
      - split.
        + rewrite list_lookup_insert_eq by lia.
          rewrite !app_assoc, at_level_app, at_level_cons.
          rewrite decide_True by done. by rewrite lastd_snoc.
        + intros y Hy. apply Hstop. by rewrite <- HB2.
      - destruct (Hset j) as [Hu Hst]; [lia|].
        pose proof (Hempty j ltac:(lia) ltac:(lia) (conj Hu Hst)) as He.
        split.
        + rewrite list_lookup_insert_ne by done.
          by rewrite at_level_app, He, app_nil_r.
        + intros y Hy. apply Hst.
          replace (B1 ++ c' :: B2) with ((B1 ++ [c']) ++ B2)
            by (by rewrite <- app_assoc).
          by rewrite at_level_app, He. }
    rewrite !app_assoc, lastd_snoc in Hs.
    exists A', B', update'. repeat split; try done; try apply Hset'; try done.
    + intros j Hj. rewrite Hkeep by done. apply list_lookup_insert_ne. lia.
    + right. destruct Hmove as [->|Hm]; [|done].
      split.
      { intros Hnil. apply (f_equal length) in Hnil.
        rewrite !length_app in Hnil. simpl in Hnil. lia. }
      rewrite !app_assoc, lastd_snoc.
      eapply (proj1 (Forall_forall _ _) Hall). set_solver.
Qed.
End Search.

(** *** Writes to the memory of the list *)

Lemma deref_index {A : Type} (h : list skiplistNode) (p : ptr) (i : nat)
    (x : option ptr) (k : option ptr → outcome A) :
  fwd h p i = Some x →
  obind (deref h p) (λ n, obind (index (forward n) i) k) = k x.
Proof.
  intros (n & Hn & Hi)%fwd_Some_node. unfold deref, index.
  rewrite Hn. simpl. by rewrite Hi.
Qed.

Lemma height_fwd (h : list skiplistNode) (p : ptr) (i : nat) :
  i < height h p ↔ is_Some (fwd h p i).
Proof.
  unfold height, fwd. destruct (h !! p) as [n|].
  - by rewrite lookup_lt_is_Some.
  - split; [lia|]. by intros [? ?].
Qed.

Lemma write_forward_spec (h : list skiplistNode) (p : ptr) (i : nat) (x : option ptr) :
  i < height h p →
  ∃ h', write_forward h p i x = Done h'
        ∧ length h' = length h
        ∧ (∀ q j, fwd h' q j = if decide (q = p ∧ j = i) then Some x else fwd h q j)
        ∧ (∀ q, height h' q = height h q)
        ∧ (∀ q, item h' q = item h q).
Proof.
  unfold height. destruct (h !! p) as [n|] eqn:Hn; [|lia]. intros Hi.
  exists (<[p := set_forward n (<[i := x]> (forward n))]> h).
  assert (p < length h) as Hp by (by eapply lookup_lt_Some).
  repeat split.
  - unfold write_forward, deref, index, assign. rewrite Hn. simpl.
    by rewrite decide_True.
  - by rewrite length_insert.
  - intros q j. unfold fwd. destruct (decide (q = p)) as [->|Hq].
    + rewrite list_lookup_insert_eq by done. simpl. rewrite Hn.
      destruct (decide (j = i)) as [->|Hj].
      * rewrite decide_True by done. by rewrite list_lookup_insert_eq.
      * rewrite decide_False by (intros [_ ?]; done).
        by rewrite list_lookup_insert_ne.
    + rewrite decide_False by (intros [? _]; done).
      by rewrite list_lookup_insert_ne.
  - intros q. unfold height. destruct (decide (q = p)) as [->|Hq].
    + rewrite list_lookup_insert_eq by done. rewrite Hn. simpl.
      by rewrite length_insert.
    + by rewrite list_lookup_insert_ne.
  - intros q. unfold item. destruct (decide (q = p)) as [->|Hq].
    + rewrite list_lookup_insert_eq by done. by rewrite Hn.
    + by rewrite list_lookup_insert_ne.
Qed.

Lemma write_backward_spec (h : list skiplistNode) (p : ptr) (b : option ptr) :
  p < length h →
  ∃ h', write_backward h p b = Done h'
        ∧ length h' = length h
        ∧ (∀ q j, fwd h' q j = fwd h q j)
        ∧ (∀ q, height h' q = height h q)
        ∧ (∀ q, item h' q = item h q).
Proof.
  intros Hp. destruct (lookup_lt_is_Some_2 h p Hp) as [n Hn].
  exists (<[p := set_backward n b]> h). repeat split.
  - unfold write_backward, deref, index. by rewrite Hn.
  - by rewrite length_insert.
  - intros q j. unfold fwd. destruct (decide (q = p)) as [->|Hq].
    + rewrite list_lookup_insert_eq by done. by rewrite Hn.
    + by rewrite list_lookup_insert_ne.
  - intros q. unfold height. destruct (decide (q = p)) as [->|Hq].
    + rewrite list_lookup_insert_eq by done. by rewrite Hn.
    + by rewrite list_lookup_insert_ne.
  - intros q. unfold item. destruct (decide (q = p)) as [->|Hq].
    + rewrite list_lookup_insert_eq by done. by rewrite Hn.
    + by rewrite list_lookup_insert_ne.
Qed.

Lemma write_score_spec (h : list skiplistNode) (p : ptr) (s : float) (n : skiplistNode) :
  h !! p = Some n →
  ∃ h', write_score h p s = Done h'
        ∧ length h' = length h
        ∧ (∀ q j, fwd h' q j = fwd h q j)
        ∧ (∀ q, height h' q = height h q)
        ∧ (∀ q, item h' q = if decide (q = p) then Some (member n, s) else item h q).
Proof.
  intros Hn. assert (p < length h) as Hp by (by eapply lookup_lt_Some).
  exists (<[p := set_score n s]> h). repeat split.
  - unfold write_score, deref, index. by rewrite Hn.
  - by rewrite length_insert.
  - intros q j. unfold fwd. destruct (decide (q = p)) as [->|Hq].
    + rewrite list_lookup_insert_eq by done. by rewrite Hn.
    + by rewrite list_lookup_insert_ne.
  - intros q. unfold height. destruct (decide (q = p)) as [->|Hq].
    + rewrite list_lookup_insert_eq by done. by rewrite Hn.
    + by rewrite list_lookup_insert_ne.
  - intros q. unfold item. destruct (decide (q = p)) as [->|Hq].
    + by rewrite list_lookup_insert_eq.
    + by rewrite list_lookup_insert_ne.
Qed.

(** *** Chains under writes *)

Lemma chain_ext (h h' : list skiplistNode) (i : nat) (l : list ptr) :
  ∀ p, (∀ q, q ∈ p :: l → fwd h' q i = fwd h q i) → chain h i p l → chain h' i p l.
Proof.
  induction l as [|x l IH]; intros p Hext; simpl.
  - rewrite Hext by set_solver. done.
  - rewrite Hext by set_solver. intros [? Hc]. split; [done|].
    apply IH; [|done]. intros q Hq. apply Hext. set_solver.
Qed.

Lemma at_level_ext (h h' : list skiplistNode) (i : nat) (l : list ptr) :
  (∀ q, q ∈ l → height h' q = height h q) → at_level h' i l = at_level h i l.
Proof.
  intros Hext. induction l as [|x l IH]; [done|].
  rewrite !at_level_cons, Hext by (by left).
  rewrite IH; [done|]. intros q Hq. apply Hext. by right.
Qed.

Lemma at_level_0 (h : list skiplistNode) (l : list ptr) :
  (∀ q, q ∈ l → 1 ≤ height h q) → at_level h 0 l = l.
Proof.
  intros Hh. induction l as [|x l IH]; [done|].
  rewrite at_level_cons, decide_True by (apply Hh; set_solver).
  rewrite IH; [done|]. intros q Hq. apply Hh. set_solver.
Qed.

(** Unlinking [c]: its predecessor takes over its pointer. *)
Lemma chain_delete (h h' : list skiplistNode) (j : nat) (c : ptr) (l1 l2 : list ptr) :
  ∀ p0,
    chain h j p0 (l1 ++ c :: l2) →
    NoDup (p0 :: l1 ++ c :: l2) →
    fwd h' (lastd p0 l1) j = fwd h c j →
    (∀ q, q ∈ p0 :: l1 ++ l2 → q ≠ lastd p0 l1 → fwd h' q j = fwd h q j) →
    chain h' j p0 (l1 ++ l2).
Proof.
  induction l1 as [|x l1 IH]; intros p0 Hc Hnd Hu Hext; simpl in *.
  - destruct Hc as [_ Hc]. rewrite lastd_nil in Hu, Hext.
    apply NoDup_cons in Hnd as [Hp0 Hnd]. apply NoDup_cons in Hnd as [Hcl2 Hnd].
    destruct l2 as [|y l2]; simpl in *.
    + by rewrite Hu.
    + destruct Hc as [? Hc]. rewrite Hu. split; [done|].
      apply (chain_ext h); [|done]. intros q Hq. apply Hext; set_solver.
  - destruct Hc as [Hp Hc]. rewrite lastd_cons in Hu, Hext.
    apply NoDup_cons in Hnd as [Hp0 Hnd].
    assert (p0 ≠ lastd x l1) as Hne.
    { intros ->. destruct (lastd_elem x l1) as [Heq|Hin]; set_solver. }
    split.
    + rewrite Hext; [done|set_solver|done].
    + apply IH; [done|done|done|]. intros q Hq. apply Hext. set_solver.
Qed.

(** Linking [p] after the last node of [l1]. *)
Lemma chain_insert (h h' : list skiplistNode) (j : nat) (p : ptr) (l1 l2 : list ptr) :
  ∀ p0,
    chain h j p0 (l1 ++ l2) →
    NoDup (p0 :: l1 ++ l2) → p ∉ p0 :: l1 ++ l2 →
    fwd h' (lastd p0 l1) j = Some (Some p) →
    fwd h' p j = fwd h (lastd p0 l1) j →
    (∀ q, q ∈ p0 :: l1 ++ l2 → q ≠ lastd p0 l1 → fwd h' q j = fwd h q j) →
    chain h' j p0 (l1 ++ p :: l2).
Proof.
  induction l1 as [|x l1 IH]; intros p0 Hc Hnd Hp Hu Hnew Hext; simpl in *.
  - rewrite lastd_nil in Hu, Hnew, Hext. split; [done|].
    apply NoDup_cons in Hnd as [Hp0 Hnd].
    destruct l2 as [|y l2]; simpl in *.
    + by rewrite Hnew.
    + destruct Hc as [? Hc]. rewrite Hnew. split; [done|].
      apply (chain_ext h); [|done]. intros q Hq. apply Hext; set_solver.
  - destruct Hc as [Hp0x Hc]. rewrite lastd_cons in Hu, Hnew, Hext.
    apply NoDup_cons in Hnd as [Hp0 Hnd].
    assert (p0 ≠ lastd x l1) as Hne.
    { intros ->. destruct (lastd_elem x l1) as [Heq|Hin]; set_solver. }
    split.
    + rewrite Hext; [done|set_solver|done].
    + apply IH; [done|done|set_solver|done|done|].
      intros q Hq. apply Hext. set_solver.
Qed.

(** *** [delete] *)

Lemma wf_head_node (l : skiplist) (ord : list ptr) :
  wf l ord → 0 < length (nodes l).
Proof.
  intros Hwf. pose proof (wf_head_height _ _ Hwf) as Hh. unfold height in Hh.
  destruct (nodes l !! 0) as [n|] eqn:Hn; [by eapply lookup_lt_Some|].
  unfold maxLevel in Hh. lia.
Qed.

Lemma wf_length (l : skiplist) (ord : list ptr) :
  wf l ord → length ord < length (nodes l).
Proof.
  intros Hwf. pose proof (wf_head_node _ _ Hwf) as H0.
  assert (ord ⊆+ seq 1 (length (nodes l) - 1)) as Hsub.
  { apply NoDup_submseteq; [by apply (wf_nodup l)|].
    intros x Hx. apply elem_of_seq. pose proof (wf_valid _ _ Hwf x Hx). lia. }
  apply submseteq_length in Hsub. rewrite length_seq in Hsub. lia.
Qed.

Lemma wf_not_head (l : skiplist) (ord : list ptr) : wf l ord → 0 ∉ ord.
Proof. intros Hwf H0. pose proof (wf_valid _ _ Hwf 0 H0). lia. Qed.

Lemma shrink_spec (h : list skiplistNode) (ord : list ptr) (lvl : nat) :
  (∀ i, i < maxLevel → chain h i 0 (at_level h i ord)) →
  lvl ≤ maxLevel → 1 ≤ lvl →
  (∀ p, p ∈ ord → height h p ≤ lvl) →
  ∃ lvl', shrink h 0 lvl = Done lvl' ∧ 1 ≤ lvl' ≤ lvl
          ∧ (∀ p, p ∈ ord → height h p ≤ lvl').
Proof.
  intros Hchain. induction lvl as [|l IH]; intros Hmax H1 Hh; [lia|].
  cbn [shrink]. case_decide as Hl.
  - pose proof (chain_head _ _ _ _ (Hchain l ltac:(lia))) as Hf.
    rewrite (deref_index _ _ _ _ _ Hf).
    destruct (head (at_level h l ord)) as [y|] eqn:Hy.
    + exists (S l). repeat split; [lia|lia|done].
    + destruct IH as (lvl' & Hs & Hb & Hh'); [lia|lia| |].
      * intros p Hp. apply head_None in Hy.
        destruct (decide (l < height h p)) as [Ht|]; [|lia].
        assert (p ∈ at_level h l ord) as Hin by (by apply elem_of_at_level).
        rewrite Hy in Hin. by apply not_elem_of_nil in Hin.
      * exists lvl'. repeat split; [done|lia|lia|done].
  - exists (S l). repeat split; [lia|lia|done].
Qed.

Section Unlink.
Context (h : list skiplistNode) (P : skiplistNode → bool) (A B' : list ptr)
        (cur : ptr) (update : list (option ptr)) (L : nat).
Hypothesis Hnd : NoDup (0 :: A ++ cur :: B').
Hypothesis Hchain : ∀ i, i < maxLevel → chain h i 0 (at_level h i (A ++ cur :: B')).
Hypothesis HL : L ≤ maxLevel.
Hypothesis Hcur : 1 ≤ height h cur ≤ L.
Hypothesis Hset : ∀ j, j < L → settled h P A (cur :: B') update j.

Lemma before_chain (j : nat) :
  j < maxLevel →
  chain h j (lastd 0 (at_level h j A)) (at_level h j (cur :: B')).
Proof.
  intros Hj. pose proof (Hchain j Hj) as Hc.
  rewrite at_level_app in Hc. by apply chain_app in Hc.
Qed.

Lemma before_not_cur (j : nat) : lastd 0 (at_level h j A) ≠ cur.
Proof.
  apply NoDup_cons in Hnd as [H0 Hnd'].
  apply NoDup_app in Hnd' as (_ & Hdis & _).
  intros Heq. destruct (lastd_elem 0 (at_level h j A)) as [H|H].
  - rewrite Heq in H. apply H0. apply elem_of_app. right. rewrite <- H. left.
  - rewrite Heq in H. apply elem_of_at_level in H as [_ H].
    apply (Hdis cur H). left.
Qed.

Lemma cur_not_ahead : cur ∉ B'.
Proof.
  apply NoDup_cons in Hnd as [_ Hnd'].
  apply NoDup_app in Hnd' as (_ & _ & Hnd'').
  by apply NoDup_cons in Hnd'' as [? _].
Qed.

Lemma unlink_spec (n : nat) :
  ∀ (i : nat) (hi : list skiplistNode),
    i + n = L → i ≤ height h cur → unlinked h A cur i hi →
    ∃ h', unlink n i hi update cur = Done h'
          ∧ unlinked h A cur (height h cur) h'.
Proof.
  induction n as [|n IH]; intros i hi Hin Hi Hinv.
  { exists hi. split; [done|]. by replace (height h cur) with i by lia. }
  assert (i < L) as HiL by lia.
  destruct (Hset i HiL) as [Hu _].
  destruct Hinv as (Hlen & Hhe & Hit & Hfw).
  pose proof (before_chain i ltac:(lia)) as Hc.
  pose proof (chain_head _ _ _ _ Hc) as Hf.
  cbn [unlink]. unfold index at 1. rewrite Hu. cbn [obind].
  assert (fwd hi (lastd 0 (at_level h i A)) i
          = Some (head (at_level h i (cur :: B')))) as Hf'.
  { rewrite Hfw, decide_False by lia. done. }
  rewrite (deref_index _ _ _ _ _ Hf').
  rewrite at_level_cons.
  destruct (decide (i < height h cur)) as [Ht|Ht].
  - simpl. rewrite decide_True by done.
    destruct (proj1 (height_fwd h cur i) Ht) as [x Hx].
    assert (fwd hi cur i = Some x) as Hx'.
    { rewrite Hfw, decide_False; [done|].
      intros [_ Heq]. by apply (before_not_cur i). }
    rewrite (deref_index _ _ _ _ _ Hx').
    destruct (write_forward_spec hi (lastd 0 (at_level h i A)) i x)
      as (h2 & Hw & Hlen2 & Hfw2 & Hhe2 & Hit2).
    { rewrite Hhe. apply height_fwd. by rewrite Hf. }
    rewrite Hw. cbn [obind].
    apply IH; [lia|lia|].
    repeat split.
    + congruence.
    + intros q. by rewrite Hhe2.
    + intros q. by rewrite Hit2.
    + intros q j. rewrite Hfw2, Hfw.
      destruct (decide (q = lastd 0 (at_level h i A) ∧ j = i)) as [[-> ->]|Hne].
      * by rewrite decide_True by (split; [lia|done]).
      * destruct (decide (j < i ∧ q = lastd 0 (at_level h j A))) as [[? ?]|Hn2].
        -- by rewrite decide_True by (split; [lia|done]).
        -- rewrite decide_False; [done|]. intros [Hj Hq].
           destruct (decide (j = i)) as [->|]; [by apply Hne|].
           apply Hn2. split; [lia|done].
  - exists hi. split.
    + rewrite decide_False; [done|].
      intros Heq. apply head_Some_elem_of in Heq.
      apply elem_of_at_level in Heq as [_ Heq]. by apply cur_not_ahead.
    + replace (height h cur) with i by lia. done.
Qed.

Lemma unlinked_chain (hi : list skiplistNode) (j : nat) :
  unlinked h A cur (height h cur) hi → j < maxLevel →
  chain hi j 0 (at_level hi j (A ++ B')).
Proof.
  intros (Hlen & Hhe & Hit & Hfw) Hj.
  rewrite (at_level_ext h hi) by (intros; apply Hhe).
  pose proof (Hchain j Hj) as Hc.
  rewrite at_level_app, at_level_cons in Hc. rewrite at_level_app.
  destruct (decide (j < height h cur)) as [Ht|Ht].
  - apply (chain_delete h hi j cur); [done| | |].
    + apply NoDup_cons in Hnd as [H0 Hnd']. apply NoDup_cons. split.
      * intros Hin. apply H0. apply elem_of_app in Hin as [Hin|Hin].
        -- apply elem_of_at_level in Hin as [_ ?]. apply elem_of_app. by left.
        -- apply elem_of_app. right. apply elem_of_cons in Hin as [->|Hin]; [left|].
           right. by apply elem_of_at_level in Hin as [_ ?].
      * rewrite <- (decide_True (cur :: at_level h j B') (at_level h j B') Ht).
        rewrite <- at_level_cons, <- at_level_app. by apply NoDup_filter.
    + by rewrite Hfw, decide_True.
    + intros q _ Hq. rewrite Hfw, decide_False; [done|]. by intros [_ ?].
  - apply (chain_ext h); [|done].
    intros q _. rewrite Hfw, decide_False; [done|]. intros [? _]. lia.
Qed.
End Unlink.

Lemma chains_ext (h h' : list skiplistNode) (ord : list ptr) :
  (∀ q j, fwd h' q j = fwd h q j) → (∀ q, height h' q = height h q) →
  (∀ i, i < maxLevel → chain h i 0 (at_level h i ord)) →
  ∀ i, i < maxLevel → chain h' i 0 (at_level h' i ord).
Proof.
  intros Hf Hh Hc i Hi. rewrite (at_level_ext h h') by (intros; apply Hh).
  apply (chain_ext h); [|by apply Hc]. intros q _. apply Hf.
Qed.

Lemma wf_level0_chain (l : skiplist) (A B : list ptr) :
  wf l (A ++ B) → chain (nodes l) 0 (lastd 0 A) B.
Proof.
  intros Hwf. pose proof (wf_chain _ _ Hwf 0 ltac:(unfold maxLevel; lia)) as Hc.
  rewrite at_level_0 in Hc by (intros q Hq; by apply (wf_height _ _ Hwf)).
  by apply chain_app in Hc.
Qed.

(** [delete] returns.  It looks at the node [cur] on which its search
    stops, the first of [B]; when [cur] carries the member, it is unlinked
    and the list is well formed on the other nodes. *)
Lemma sl_delete_spec (l : skiplist) (ord : list ptr) (s : float) (m : string) :
  wf l ord →
  ∃ A B b l',
    ord = A ++ B
    ∧ (A = [] ∨ (A ≠ [] ∧ on_node (nodes l) (less s m) (lastd 0 A) = true))
    ∧ sl_delete l s m = Done (b, l')
    ∧ match B with
      | cur :: B' =>
        if on_node (nodes l) (λ n, String.eqb (member n) m) cur
        then b = true ∧ wf l' (A ++ B')
             ∧ length (nodes l') = length (nodes l)
             ∧ (∀ q, item (nodes l') q = item (nodes l) q)
        else b = false ∧ l' = l
      | [] => b = false ∧ l' = l
      end.
Proof.
  intros Hwf.
  pose proof (wf_length _ _ Hwf) as Hlen.
  pose proof (wf_not_head _ _ Hwf) as H0.
  destruct Hwf as [Hhd Hhh Hnd Hval Hhe Hlv Hch].
  destruct l as [h hd tl len L]. simpl in *. subst hd.
  destruct (search_spec h (less s m) ord L Hnd Hch Hlen ltac:(lia) L [] ord
              (replicate maxLevel None))
    as (A & B & update & Hs & Hord & Hupd & Hset & _ & Hmove);
    [done|done|done|by rewrite length_replicate|intros j ?; lia|].
  rewrite lastd_nil in Hs.
  exists A, B.
  assert (wf (mkSkiplist h 0 tl len L) (A ++ B)) as Hwf.
  { rewrite <- Hord. by constructor. }
  pose proof (wf_level0_chain _ _ _ Hwf) as Hc0. simpl in Hc0.
  pose proof (chain_head _ _ _ _ Hc0) as Hf0.
  unfold sl_delete. cbn [nodes sl_level sl_head sl_tail sl_length].
  rewrite Hs. cbn [obind].
  rewrite (deref_index _ _ _ _ _ Hf0).
  destruct B as [|cur B']; simpl.
  { by exists false, (mkSkiplist h 0 tl len L). }
  assert (cur ∈ ord) as Hcur by (rewrite Hord; set_solver).
  destruct (lookup_lt_is_Some_2 h cur) as [ncur Hncur];
    [pose proof (Hval cur Hcur); lia|].
  unfold deref at 1, index at 1. rewrite Hncur. cbn [obind].
  unfold on_node. rewrite Hncur.
  destruct (String.eqb (member ncur) m) eqn:Hm; simpl.
  2:{ by exists false, (mkSkiplist h 0 tl len L). }
  assert (NoDup (0 :: A ++ cur :: B')) as Hnd0.
  { apply NoDup_cons. by rewrite <- Hord. }
  rewrite Hord in Hch.
  destruct (unlink_spec h (less s m) A B' cur update L Hnd0 Hch ltac:(lia)
              (Hhe cur Hcur) Hset L 0 h) as (h1 & Hun & Hinv); [lia|lia| |].
  { by repeat split. }
  rewrite Hun. cbn [obind].
  pose proof (unlinked_chain h A B' cur L Hnd0 Hch ltac:(lia) (Hhe cur Hcur) h1)
    as Hch1.
  destruct Hinv as (Hlen1 & Hhe1 & Hit1 & Hfw1).
  assert (fwd h1 cur 0 = Some (head B')) as Hnx.
  { rewrite Hfw1, decide_False.
    - simpl in Hc0. destruct Hc0 as [_ Hc0]. by apply chain_head in Hc0.
    - intros [_ Heq]. by eapply (before_not_cur h A B' cur Hnd0). }
  apply fwd_Some_node in Hnx as (ncur' & Hncur' & Hnx).
  unfold deref at 1, index at 1. rewrite Hncur'. cbn [obind].
  unfold index at 1. rewrite Hnx. cbn [obind].
  assert (∃ h2 tl2,
            match head B' with
            | Some q =>
              obind (write_backward h1 q (backward ncur')) (λ h', Done (h', tl))
            | None => Done (h1, backward ncur')
            end = Done (h2, tl2)
            ∧ length h2 = length h1
            ∧ (∀ q j, fwd h2 q j = fwd h1 q j)
            ∧ (∀ q, height h2 q = height h1 q)
            ∧ (∀ q, item h2 q = item h1 q)) as (h2 & tl2 & -> & Hlen2 & Hfw2 & Hhe2 & Hit2).
  { destruct (head B') as [q|] eqn:Hq.
    - apply head_Some_elem_of in Hq.
      destruct (write_backward_spec h1 q (backward ncur'))
        as (h2 & Hw & ? & ? & ? & ?).
      { rewrite Hlen1. pose proof (Hval q). rewrite Hord in H. 
        assert (q ∈ A ++ cur :: B') as Hin by set_solver.
        specialize (H Hin). lia. }
      exists h2, tl. rewrite Hw. done.
    - by exists h1, (backward ncur'). }
  cbn [obind].
  assert (∀ i, i < maxLevel → chain h2 i 0 (at_level h2 i (A ++ B'))) as Hch2.
  { apply (chains_ext h1); [done|done|]. intros i Hi. apply Hch1; [|done].
    repeat split; done. }
  destruct (shrink_spec h2 (A ++ B') L Hch2) as (lvl' & Hsh & Hlvl' & Hhe');
    [lia|lia| |].
  { intros p Hp. rewrite Hhe2, Hhe1. apply Hhe. rewrite Hord. set_solver. }
  rewrite Hsh. cbn [obind].
  eexists true, _. split; [done|]. split; [done|]. split; [reflexivity|].
  split; [done|]. split; [|split].
  - constructor; simpl.
    + done.
    + by rewrite Hhe2, Hhe1.
    + rewrite Hord in Hnd. apply NoDup_app in Hnd as (? & Hd & Hn).
      apply NoDup_cons in Hn as [? ?]. apply NoDup_app. repeat split; try done.
      intros x Hx Hx'. apply (Hd x Hx). by right.
    + intros p Hp. rewrite Hlen2, Hlen1. apply Hval. rewrite Hord. set_solver.
    + intros p Hp. split.
      * rewrite Hhe2, Hhe1. apply Hhe. rewrite Hord. set_solver.
      * by apply Hhe'.
    + lia.
    + done.
  - simpl. congruence.
  - simpl. intros q. by rewrite Hit2, Hit1.
Qed.

(** *** [insert] of a new node *)

Lemma randomLevel_loop_range (coins : nat → bool) (n : nat) :
  ∀ lvl rng, 1 ≤ lvl ≤ maxLevel →
    1 ≤ fst (randomLevel_loop coins n lvl rng) ≤ maxLevel.
Proof.
  induction n as [|n IH]; intros lvl rng Hl; simpl; [done|].
  case_decide; [|done]. destruct (coins rng); [|done]. apply IH. lia.
Qed.

Lemma randomLevel_range (coins : nat → bool) (rng : nat) :
  1 ≤ fst (randomLevel coins rng) ≤ maxLevel.
Proof. apply randomLevel_loop_range. unfold maxLevel. lia. Qed.

Lemma raise_spec (n : nat) :
  ∀ (i : nat) (hd : ptr) (update : list (option ptr)),
    i + n ≤ length update →
    ∃ update', raise n i hd update = Done update'
               ∧ length update' = length update
               ∧ (∀ j, update' !! j
                       = if decide (i ≤ j < i + n) then Some (Some hd) else update !! j).
Proof.
  induction n as [|n IH]; intros i hd update Hn.
  - exists update. repeat split. intros j. rewrite decide_False; [done|lia].
  - cbn [raise]. unfold assign. rewrite decide_True by lia. cbn [obind].
    destruct (IH (S i) hd (<[i := Some hd]> update)) as (u' & Hr & Hlen & Hu).
    { rewrite length_insert. lia. }
    exists u'. split; [done|]. split; [by rewrite Hlen, length_insert|].
    intros j. rewrite Hu.
    destruct (decide (j = i)) as [->|Hne].
    + rewrite decide_False by lia. rewrite decide_True by lia.
      apply list_lookup_insert_eq. lia.
    + rewrite list_lookup_insert_ne by done.
      destruct (decide (S i ≤ j < S i + n)).
      * rewrite decide_True; [done|lia].
      * rewrite decide_False; [done|lia].
Qed.

Section Link.
Context (h0 : list skiplistNode) (A B : list ptr) (p : ptr)
        (update : list (option ptr)) (lvl : nat).
Hypothesis Hnd : NoDup (0 :: A ++ B).
Hypothesis Hp : p ∉ 0 :: A ++ B.
Hypothesis Hchain : ∀ i, i < maxLevel → chain h0 i 0 (at_level h0 i (A ++ B)).
Hypothesis Hlvl : lvl ≤ maxLevel.
Hypothesis Hhp : height h0 p = lvl.
Hypothesis Hupd : ∀ j, j < lvl → update !! j = Some (Some (lastd 0 (at_level h0 j A))).

Lemma pred_chain (j : nat) :
  j < maxLevel → chain h0 j (lastd 0 (at_level h0 j A)) (at_level h0 j B).
Proof.
  intros Hj. pose proof (Hchain j Hj) as Hc.
  rewrite at_level_app in Hc. by apply chain_app in Hc.
Qed.

Lemma pred_not_new (j : nat) : lastd 0 (at_level h0 j A) ≠ p.
Proof.
  intros Heq. apply Hp. destruct (lastd_elem 0 (at_level h0 j A)) as [H|H].
  - rewrite Heq in H. rewrite H. left.
  - rewrite Heq in H. apply elem_of_at_level in H as [_ H].
    right. apply elem_of_app. by left.
Qed.

Lemma link_spec (n : nat) :
  ∀ (i : nat) (hi : list skiplistNode),
    i + n = lvl → linked h0 A p i hi →
    ∃ h', link n i hi update p = Done h' ∧ linked h0 A p lvl h'.
Proof.
  induction n as [|n IH]; intros i hi Hin Hinv.
  { exists hi. split; [done|]. by replace lvl with i by lia. }
  destruct Hinv as (Hlen & Hhe & Hit & Hfw).
  pose proof (pred_chain i ltac:(lia)) as Hc.
  pose proof (chain_head _ _ _ _ Hc) as Hf.
  pose proof (pred_not_new i) as Hne.
  cbn [link]. unfold index at 1. rewrite Hupd by lia. cbn [obind].
  assert (fwd hi (lastd 0 (at_level h0 i A)) i
          = Some (head (at_level h0 i B))) as Hf'.
  { rewrite Hfw, decide_False by lia. rewrite decide_False by lia. done. }
  rewrite (deref_index _ _ _ _ _ Hf').
  destruct (write_forward_spec hi p i (head (at_level h0 i B)))
    as (h1 & Hw1 & Hlen1 & Hfw1 & Hhe1 & Hit1).
  { rewrite Hhe, Hhp. lia. }
  rewrite Hw1. cbn [obind].
  destruct (write_forward_spec h1 (lastd 0 (at_level h0 i A)) i (Some p))
    as (h2 & Hw2 & Hlen2 & Hfw2 & Hhe2 & Hit2).
  { rewrite Hhe1, Hhe. apply height_fwd. by rewrite Hf. }
  rewrite Hw2. cbn [obind].
  apply IH; [lia|]. repeat split.
  - congruence.
  - intros q. by rewrite Hhe2, Hhe1.
  - intros q. by rewrite Hit2, Hit1.
  - intros q j. rewrite Hfw2, Hfw1, Hfw.
    destruct (decide (q = lastd 0 (at_level h0 i A) ∧ j = i)) as [[-> ->]|Hn1].
    { by rewrite decide_True by (split; [lia|done]). }
    destruct (decide (q = p ∧ j = i)) as [[-> ->]|Hn2].
    { rewrite decide_False by (intros [_ ?]; by apply (pred_not_new i)).
      rewrite decide_True by (split; [lia|done]). done. }
    destruct (decide (j < i ∧ q = lastd 0 (at_level h0 j A))) as [[? ?]|Hn3].
    { by rewrite decide_True by (split; [lia|done]). }
    rewrite (decide_False (P := j < S i ∧ q = lastd 0 (at_level h0 j A))).
    2:{ intros [Hj Hq]. destruct (decide (j = i)) as [->|]; [by apply Hn1|].
        apply Hn3. split; [lia|done]. }
    destruct (decide (j < i ∧ q = p)) as [[? ?]|Hn4].
    { by rewrite decide_True by (split; [lia|done]). }
    rewrite decide_False; [done|].
    intros [Hj Hq]. destruct (decide (j = i)) as [->|]; [by apply Hn2|].
    apply Hn4. split; [lia|done].
Qed.

Lemma linked_chain (hi : list skiplistNode) (j : nat) :
  linked h0 A p lvl hi → j < maxLevel →
  chain hi j 0 (at_level hi j (A ++ p :: B)).
Proof.
  intros (Hlen & Hhe & Hit & Hfw) Hj.
  rewrite (at_level_ext h0 hi) by (intros; apply Hhe).
  pose proof (Hchain j Hj) as Hc. rewrite at_level_app in Hc.
  rewrite at_level_app, at_level_cons, Hhp.
  destruct (decide (j < lvl)) as [Ht|Ht].
  - apply (chain_insert h0 hi j p); [done| | | | |].
    + apply NoDup_cons in Hnd as [H0 Hnd']. apply NoDup_cons. split.
      * intros Hin. apply H0. rewrite <- at_level_app in Hin.
        by apply elem_of_at_level in Hin as [_ ?].
      * rewrite <- at_level_app. by apply NoDup_filter.
    + intros Hin. apply Hp. apply elem_of_cons in Hin as [->|Hin]; [left|right].
      rewrite <- at_level_app in Hin. by apply elem_of_at_level in Hin as [_ ?].
    + by rewrite Hfw, decide_True.
    + rewrite Hfw, decide_False by (intros [_ ?]; by apply (pred_not_new j)).
      by rewrite decide_True.
    + intros q Hq Hne. rewrite Hfw, decide_False by (by intros [_ ?]).
      rewrite decide_False; [done|]. intros [_ ->]. apply Hp.
      apply elem_of_cons in Hq as [->|Hq]; [left|right].
      rewrite <- at_level_app in Hq. by apply elem_of_at_level in Hq as [_ ?].
  - apply (chain_ext h0); [|done].
    intros q _. rewrite Hfw, decide_False by lia. by rewrite decide_False by lia.
Qed.
End Link.

Lemma at_level_nil (h : list skiplistNode) (j : nat) (l : list ptr) :
  (∀ q, q ∈ l → height h q ≤ j) → at_level h j l = [].
Proof.
  intros Hh. induction l as [|x l IH]; [done|].
  rewrite at_level_cons, decide_False.
  - apply IH. intros q Hq. apply Hh. by right.
  - specialize (Hh x ltac:(left)). lia.
Qed.

Lemma alloc_old (h : list skiplistNode) (n : skiplistNode) (q : ptr) :
  q < length h →
  (∀ j, fwd (h ++ [n]) q j = fwd h q j)
  ∧ height (h ++ [n]) q = height h q
  ∧ item (h ++ [n]) q = item h q.
Proof.
  intros Hq. unfold fwd, height, item. by rewrite lookup_app_l.
Qed.

Lemma alloc_new (h : list skiplistNode) (n : skiplistNode) :
  height (h ++ [n]) (length h) = length (forward n)
  ∧ item (h ++ [n]) (length h) = Some (member n, score n).
Proof.
  unfold height, item. rewrite lookup_app_r by lia.
  by rewrite Nat.sub_diag.
Qed.

(** The second half of [insert] returns: the new node is linked after the
    nodes [A] the search walked over. *)
Lemma insert_new_spec (coins : nat → bool) (P : skiplistNode → bool) (l : skiplist)
    (A B : list ptr) (update : list (option ptr)) (rng : nat) (s : float) (m : string) :
  wf l (A ++ B) → length update = maxLevel →
  (∀ j, j < sl_level l → settled (nodes l) P A B update j) →
  ∃ l', insert_new coins l rng update s m
        = Done (true, l', snd (randomLevel coins rng))
        ∧ wf l' (A ++ length (nodes l) :: B)
        ∧ length (nodes l') = S (length (nodes l))
        ∧ (∀ q, q < length (nodes l) → item (nodes l') q = item (nodes l) q)
        ∧ item (nodes l') (length (nodes l)) = Some (m, s).
Proof.
  intros Hwf Hupd Hset.
  pose proof (wf_head_node _ _ Hwf) as Hpos.
  pose proof (wf_not_head _ _ Hwf) as H0.
  destruct Hwf as [Hhd Hhh Hnd Hval Hhe Hlv Hch].
  destruct l as [h hd tl len L]. simpl in *. subst hd.
  unfold insert_new. cbn [nodes sl_level sl_head sl_tail sl_length].
  pose proof (randomLevel_range coins rng) as Hr.
  destruct (randomLevel coins rng) as [lvl rng'] eqn:Hrl. simpl in Hr. simpl.
  set (new := {| member := m; score := s; forward := replicate lvl None;
                 backward := None; level := lvl |}).
  set (h0 := h ++ [new]). set (p := length h).
  assert (∀ q, q ∈ 0 :: A ++ B → q < length h) as Hold.
  { intros q [->|Hq]%elem_of_cons; [done|]. apply Hval in Hq. lia. }
  assert (∀ j X, X ⊆ A ++ B → at_level h0 j X = at_level h j X) as Hat.
  { intros j X HX. apply at_level_ext. intros q Hq.
    apply (alloc_old h new q). apply Hold. right. by apply HX. }
  assert (∃ update2 L2,
            (if decide (L < lvl)
             then obind (raise (lvl - L) L 0 update) (λ u, Done (u, lvl))
             else Done (update, L)) = Done (update2, L2)
            ∧ L2 = L `max` lvl
            ∧ ∀ j, j < lvl →
                update2 !! j = Some (Some (lastd 0 (at_level h0 j A))))
    as (update2 & L2 & -> & HL2 & Hu2).
  { case_decide as HLl.
    - destruct (raise_spec (lvl - L) L 0 update) as (u' & -> & _ & Hu'); [lia|].
      exists u', lvl. split; [done|]. split; [lia|].
      intros j Hj. rewrite Hu', Hat by set_solver.
      case_decide as Hj'.
      + rewrite at_level_nil; [done|]. intros q Hq.
        assert (q ∈ A ++ B) as Hq' by set_solver.
        pose proof (Hhe q Hq'). lia.
      + apply Hset. lia.
    - exists update, L. split; [done|]. split; [lia|].
      intros j Hj. rewrite Hat by set_solver. apply Hset. lia. }
  cbn [obind].
  assert (NoDup (0 :: A ++ B)) as Hnd0 by (by apply NoDup_cons).
  assert (p ∉ 0 :: A ++ B) as Hp.
  { intros Hin. apply Hold in Hin. unfold p in Hin. lia. }
  assert (∀ i, i < maxLevel → chain h0 i 0 (at_level h0 i (A ++ B))) as Hch0.
  { intros i Hi. rewrite Hat by done. apply (chain_ext h); [|by apply Hch].
    intros q Hq. apply (alloc_old h new q). apply Hold.
    apply elem_of_cons in Hq as [->|Hq]; [left|right].
    by apply elem_of_at_level in Hq as [_ ?]. }
  assert (height h0 p = lvl) as Hhp.
  { unfold h0, p. rewrite (proj1 (alloc_new h new)). simpl.
    by rewrite length_replicate. }
  destruct (link_spec h0 A B p update2 lvl Hp Hch0 ltac:(lia) Hhp Hu2 lvl 0 h0)
    as (h1 & Hlk & Hinv); [lia|by repeat split|].
  rewrite Hlk. cbn [obind].
  pose proof (linked_chain h0 A B p lvl Hnd0 Hp Hch0 ltac:(lia) Hhp h1) as Hch1.
  destruct Hinv as (Hlen1 & Hhe1 & Hit1 & Hfw1).
  unfold index at 1. rewrite Hu2 by lia. cbn [obind].
  assert (length h0 = S (length h)) as Hlen0.
  { unfold h0. rewrite length_app. simpl. lia. }
  assert (∃ h2,
            (if decide (Some (lastd 0 (at_level h0 0 A)) = Some 0)
             then write_backward h1 p None
             else write_backward h1 p (Some (lastd 0 (at_level h0 0 A))))
            = Done h2
            ∧ length h2 = length h1
            ∧ (∀ q j, fwd h2 q j = fwd h1 q j)
            ∧ (∀ q, height h2 q = height h1 q)
            ∧ (∀ q, item h2 q = item h1 q)) as (h2 & -> & Hlen2 & Hfw2 & Hhe2 & Hit2).
  { case_decide.
    - apply write_backward_spec. unfold p. lia.
    - apply write_backward_spec. unfold p. lia. }
  cbn [obind].
  assert (fwd h2 p 0 = Some (head B)) as Hf0.
  { rewrite Hfw2, Hfw1.
    rewrite decide_False
      by (intros [_ ?]; by eapply (pred_not_new h0 A B p Hp 0)).
    rewrite decide_True by (split; [lia|done]).
    pose proof (pred_chain h0 A B Hch0 0 ltac:(unfold maxLevel; lia)) as Hc.
    apply chain_head in Hc. rewrite Hc. do 2 f_equal.
    rewrite Hat by set_solver. apply at_level_0.
    intros q Hq. apply Hhe. set_solver. }
  rewrite (deref_index _ _ _ _ _ Hf0).
  assert (∃ h3 tl3,
            match head B with
            | Some q => obind (write_backward h2 q (Some p)) (λ h', Done (h', tl))
            | None => Done (h2, Some p)
            end = Done (h3, tl3)
            ∧ length h3 = length h2
            ∧ (∀ q j, fwd h3 q j = fwd h2 q j)
            ∧ (∀ q, height h3 q = height h2 q)
            ∧ (∀ q, item h3 q = item h2 q)) as (h3 & tl3 & -> & Hlen3 & Hfw3 & Hhe3 & Hit3).
  { destruct (head B) as [q|] eqn:Hq.
    - apply head_Some_elem_of in Hq.
      destruct (write_backward_spec h2 q (Some p)) as (h3 & Hw & ? & ? & ? & ?).
      { rewrite Hlen2, Hlen1, Hlen0.
        assert (q < length h) by (apply Hold; set_solver). lia. }
      exists h3, tl. rewrite Hw. done.
    - by exists h2, (Some p). }
  cbn [obind].
  eexists. split; [reflexivity|]. split; [|split; [|split]].
  - constructor; simpl.
    + done.
    + rewrite Hhe3, Hhe2, Hhe1. unfold h0.
      by rewrite (proj1 (proj2 (alloc_old h new 0 Hpos))).
    + apply NoDup_app in Hnd as (? & Hd & ?). apply NoDup_app.
      split; [done|]. split.
      * intros x Hx [->|Hx']%elem_of_cons; [|by apply (Hd x)].
        apply Hp. right. apply elem_of_app. by left.
      * apply NoDup_cons. split; [|done]. intros Hin. apply Hp. right.
        apply elem_of_app. by right.
    + intros q Hq. rewrite Hlen3, Hlen2, Hlen1, Hlen0.
      apply elem_of_app in Hq as [Hq|[->|Hq]%elem_of_cons].
      * assert (q ∈ A ++ B) as Hq' by set_solver. apply Hval in Hq'. lia.
      * unfold p. lia.
      * assert (q ∈ A ++ B) as Hq' by set_solver. apply Hval in Hq'. lia.
    + intros q Hq. rewrite Hhe3, Hhe2, Hhe1.
      assert (q = p ∨ q ∈ A ++ B) as [->|Hq'] by set_solver.
      * rewrite Hhp. lia.
      * unfold h0.
        rewrite (proj1 (proj2 (alloc_old h new q (Hold q ltac:(set_solver))))).
        pose proof (Hhe q Hq'). lia.
    + lia.
    + apply (chains_ext h1).
      * intros q j. by rewrite Hfw3, Hfw2.
      * intros q. by rewrite Hhe3, Hhe2.
      * intros i Hi. apply Hch1; [|done]. by repeat split.
  - simpl. lia.
  - simpl. intros q Hq. rewrite Hit3, Hit2, Hit1.
    by apply (alloc_old h new q).
  - simpl. rewrite Hit3, Hit2, Hit1. apply (alloc_new h new).
Qed.

(** *** The nested calls of [insert] *)

(** A NaN compares false with everything. *)
Lemma nan_compare (x y : float) :
  (x =? x)%float = false →
  (y <? x)%float = false ∧ (y =? x)%float = false.
Proof.
  rewrite !FloatAxioms.eqb_spec, FloatAxioms.ltb_spec.
  unfold SFeqb, SFltb.
  destruct (Prim2SF x) as [sx|sx| |sx mx ex]; simpl.
  - done.
  - by destruct sx.
  - intros _. by destruct (Prim2SF y).
  - rewrite Z.compare_refl, Pos.compare_cont_refl. by destruct sx.
Qed.

Lemma same_score_refl (s : float) : same_score s s = true.
Proof. unfold same_score, is_nan. by destruct (s =? s)%float. Qed.

Lemma same_score_nan (s x : float) :
  same_score s x = true → (x =? s)%float = false →
  (x =? x)%float = false ∧ (s =? s)%float = false.
Proof.
  unfold same_score, is_nan. intros H Hne. rewrite Hne in H. simpl in H.
  apply andb_true_iff in H as [H1 H2].
  by apply negb_true_iff in H1, H2.
Qed.

Lemma less_nan (s : float) (m : string) (n : skiplistNode) :
  (s =? s)%float = false → less s m n = false.
Proof.
  intros Hs. unfold less.
  destruct (nan_compare s (score n) Hs) as [-> ->]. done.
Qed.

Lemma on_node_item (h : list skiplistNode) (f : string → float → bool) (q : ptr) :
  on_node h (λ n, f (member n) (score n)) q
  = match item h q with
    | Some (m', x) => f m' x
    | None => false
    end.
Proof. unfold on_node, item. by destruct (h !! q). Qed.

Lemma sum_list_le (f g : ptr → nat) (l : list ptr) :
  (∀ q, q ∈ l → f q ≤ g q) → sum_list_with f l ≤ sum_list_with g l.
Proof.
  induction l as [|x l IH]; intros H; simpl; [done|].
  pose proof (H x ltac:(left)).
  assert (sum_list_with f l ≤ sum_list_with g l); [|lia].
  apply IH. intros q Hq. apply H. by right.
Qed.

Lemma sum_list_lt (f g : ptr → nat) (l : list ptr) (c : ptr) :
  (∀ q, q ∈ l → f q ≤ g q) → c ∈ l → f c < g c →
  sum_list_with f l < sum_list_with g l.
Proof.
  intros H Hc Hlt. apply list_elem_of_split in Hc as (l1 & l2 & ->).
  rewrite !sum_list_with_app. simpl.
  assert (sum_list_with f l1 ≤ sum_list_with g l1).
  { apply sum_list_le. intros q Hq. apply H. set_solver. }
  assert (sum_list_with f l2 ≤ sum_list_with g l2).
  { apply sum_list_le. intros q Hq. apply H. set_solver. }
  lia.
Qed.

Lemma todo_bound (h : list skiplistNode) (ord : list ptr) (s : float) (m : string) :
  todo h ord s m ≤ 3 * length ord.
Proof.
  unfold todo. induction ord as [|x l IH]; simpl; [lia|].
  assert (weight h s m x ≤ 3); [|lia].
  unfold weight. repeat case_match; lia.
Qed.

Lemma todo_ext (h h' : list skiplistNode) (ord : list ptr) (s : float) (m : string) :
  (∀ q, q ∈ ord → item h' q = item h q) → todo h' ord s m = todo h ord s m.
Proof.
  intros H. unfold todo. induction ord as [|x l IH]; simpl; [done|].
  rewrite IH by (intros q Hq; apply H; by right).
  unfold weight. by rewrite H by left.
Qed.

Lemma todo_remove (h : list skiplistNode) (X Y : list ptr) (c : ptr) (s : float)
    (m : string) :
  on_node h (λ n, String.eqb (member n) m) c = true →
  todo h (X ++ Y) s m + 2 ≤ todo h (X ++ c :: Y) s m.
Proof.
  intros Hc. unfold todo. rewrite !sum_list_with_app. simpl.
  assert (2 ≤ weight h s m c); [|lia].
  rewrite (on_node_item h (λ m' _, String.eqb m' m)) in Hc.
  unfold weight. destruct (item h c) as [[m' x]|]; [|done].
  rewrite Hc. destruct (same_score s x); lia.
Qed.

(** Writing the score [s] into a node that carries [m]. *)
Lemma todo_write (h h' : list skiplistNode) (ord : list ptr) (cur : ptr)
    (s old : float) (m : string) :
  item h cur = Some (m, old) →
  (∀ q, item h' q = if decide (q = cur) then Some (m, s) else item h q) →
  cur ∈ ord →
  todo h' ord s m ≤ todo h ord s m
  ∧ (same_score s old = false → todo h' ord s m < todo h ord s m).
Proof.
  intros Hcur Hit Hin.
  assert (∀ q, q ∈ ord → weight h' s m q ≤ weight h s m q) as Hle.
  { intros q _. unfold weight. rewrite Hit. case_decide as Hq; [|done].
    subst q. rewrite Hcur, String.eqb_refl, same_score_refl.
    destruct (same_score s old); lia. }
  split.
  - by apply sum_list_le.
  - intros Hs. apply (sum_list_lt _ _ _ cur); [done|done|].
    unfold weight. rewrite Hit, decide_True by done.
    rewrite Hcur, String.eqb_refl, same_score_refl, Hs. lia.
Qed.

Lemma on_node_less_nan (h : list skiplistNode) (s : float) (m : string) (q : ptr) :
  (s =? s)%float = false → on_node h (less s m) q = false.
Proof.
  intros Hs. unfold on_node. destruct (h !! q); [|done]. by apply less_nan.
Qed.

Lemma wf_ext (l : skiplist) (ord : list ptr) (h' : list skiplistNode)
    (tl' : option ptr) (len' : Z) :
  wf l ord →
  length h' = length (nodes l) →
  (∀ q j, fwd h' q j = fwd (nodes l) q j) →
  (∀ q, height h' q = height (nodes l) q) →
  wf {| nodes := h'; sl_head := sl_head l; sl_tail := tl'; sl_length := len';
        sl_level := sl_level l |} ord.
Proof.
  intros [Hhd Hhh Hnd Hval Hhe Hlv Hch] Hlen Hfw Hh. constructor; simpl.
  - done.
  - by rewrite Hh.
  - done.
  - intros p Hp. rewrite Hlen. by apply Hval.
  - intros p Hp. rewrite Hh. by apply Hhe.
  - done.
  - by apply (chains_ext (nodes l)).
Qed.

(** [insert] returns a well-formed list, whatever the scores: the nesting
    of its calls is bounded by [todo]. *)
Lemma insert_rec_spec (coins : nat → bool) (depth : nat) :
  ∀ (l : skiplist) (ord : list ptr) (rng : nat) (s : float) (m : string),
    wf l ord → todo (nodes l) ord s m < depth →
    ∃ b l' rng' ord',
      insert_rec coins depth l rng s m = Done (b, l', rng') ∧ wf l' ord'.
Proof.
  induction depth as [|d IH]; intros l ord rng s m Hwf Hd; [lia|].
  pose proof (wf_length _ _ Hwf) as Hlen.
  pose proof Hwf as [Hhd Hhh Hnd Hval Hhe Hlv Hch].
  destruct l as [h hd tl len L]. simpl in *. subst hd.
  destruct (search_spec h (less s m) ord L Hnd Hch Hlen ltac:(lia) L [] ord
              (replicate maxLevel None))
    as (A & B & update & Hs & Hord & Hupd & Hset & _ & Hmove);
    [done|done|done|by rewrite length_replicate|intros j ?; lia|].
  rewrite lastd_nil in Hs. simpl (replicate _ _) in Hs. subst ord.
  pose proof (wf_level0_chain _ _ _ Hwf) as Hc0. simpl in Hc0.
  pose proof (chain_head _ _ _ _ Hc0) as Hf0.
  cbn [insert_rec]. cbv zeta. cbn [nodes sl_level sl_head sl_tail sl_length].
  rewrite Hs. cbn [obind].
  rewrite (deref_index _ _ _ _ _ Hf0).
  destruct B as [|cur B']; cbn [head obind].
  { destruct (insert_new_spec coins (less s m) _ A [] update rng s m Hwf Hupd Hset)
      as (l' & Hn & Hwf' & _).
    rewrite Hn. by eexists _, _, _, _. }
  assert (cur ∈ A ++ cur :: B') as Hcur by set_solver.
  destruct (lookup_lt_is_Some_2 h cur) as [ncur Hncur];
    [pose proof (Hval cur Hcur); lia|].
  unfold deref at 1, index at 1. rewrite Hncur. cbn [obind].
  destruct (String.eqb (member ncur) m) eqn:Hm.
  2:{ destruct (insert_new_spec coins (less s m) _ A (cur :: B') update rng s m
                  Hwf Hupd Hset) as (l' & Hn & Hwf' & _).
      rewrite Hn. by eexists _, _, _, _. }
  apply String.eqb_eq in Hm.
  destruct (write_score_spec h cur s ncur Hncur)
    as (h1 & Hw & Hlen1 & Hfw1 & Hhe1 & Hit1).
  rewrite Hw. cbn [obind].
  pose proof (wf_ext _ _ h1 tl len Hwf Hlen1 Hfw1 Hhe1) as Hwf1. simpl in Hwf1.
  destruct (score ncur =? s)%float eqn:Heq.
  { by eexists _, _, _, _. }
  assert (item h cur = Some (m, score ncur)) as Hitem.
  { unfold item. rewrite Hncur. simpl. by rewrite Hm. }
  rewrite Hm in Hit1.
  destruct (todo_write h h1 (A ++ cur :: B') cur s (score ncur) m Hitem Hit1 Hcur)
    as [Hle Hlt].
  assert (on_node h1 (λ n, String.eqb (member n) m) cur = true) as Hcarry.
  { rewrite (on_node_item h1 (λ m' _, String.eqb m' m)), Hit1.
    rewrite decide_True by done. apply String.eqb_refl. }
  (* when the old and the new score are both NaN, both searches stay at
     the head and [delete] removes [cur] *)
  assert (same_score s (score ncur) = true →
          A = [] ∧ ∀ A2 B2, A ++ cur :: B' = A2 ++ B2 →
            (A2 = [] ∨ (A2 ≠ [] ∧ on_node h1 (less (score ncur) m) (lastd 0 A2) = true)) →
            B2 = cur :: B') as Hnan.
  { intros Hss. destruct (same_score_nan _ _ Hss Heq) as [Hold Hnew]. split.
    - destruct Hmove as [?|[_ Hmv]]; [done|].
      by rewrite on_node_less_nan in Hmv.
    - intros A2 B2 Hsplit [->|[_ Hmv]].
      + destruct Hmove as [->|[_ Hmv]]; [by simpl in Hsplit|].
        by rewrite on_node_less_nan in Hmv.
      + by rewrite on_node_less_nan in Hmv. }
  destruct (sl_delete_spec _ _ (score ncur) m Hwf1)
    as (A2 & B2 & b & l2 & Hord2 & Hmove2 & Hdel & Hcase).
  simpl in Hmove2, Hcase. rewrite Hdel. cbn [obind].
  assert (b = false ∧ l2 = mkSkiplist h1 0 tl len L →
          ∃ b' l' rng' ord',
            insert_rec coins d l2 rng s m = Done (b', l', rng') ∧ wf l' ord') as Hkeep.
  { intros [-> ->]. destruct (same_score s (score ncur)) eqn:Hss.
    - destruct (Hnan eq_refl) as [-> HB2].
      specialize (HB2 A2 B2 Hord2 Hmove2). subst B2.
      rewrite Hcarry in Hcase. by destruct Hcase.
    - apply (IH _ (A ++ cur :: B')); [done|]. simpl.
      specialize (Hlt eq_refl). lia. }
  destruct B2 as [|c2 B2']; [by apply Hkeep|].
  destruct (on_node h1 (λ n, String.eqb (member n) m) c2) eqn:Hc2;
    [|by apply Hkeep].
  destruct Hcase as (-> & Hwf2 & Hlen2 & Hit2).
  apply (IH _ (A2 ++ B2')); [done|].
  rewrite (todo_ext h1) by (intros; apply Hit2).
  pose proof (todo_remove h1 A2 B2' c2 s m Hc2) as Hrm.
  rewrite <- Hord2 in Hrm. lia.
Qed.

Lemma sl_insert_spec (coins : nat → bool) (l : skiplist) (rng : nat) (s : float)
    (m : string) :
  well_formed l →
  ∃ b l' rng', sl_insert coins l rng s m = Done (b, l', rng') ∧ well_formed l'.
Proof.
  intros [ord Hwf]. unfold sl_insert, insert_depth.
  destruct (insert_rec_spec coins (3 * length (nodes l) + 2) l ord rng s m Hwf)
    as (b & l' & rng' & ord' & Hi & Hwf').
  { pose proof (todo_bound (nodes l) ord s m).
    pose proof (wf_length _ _ Hwf). lia. }
  exists b, l', rng'. split; [done|]. by exists ord'.
Qed.

Lemma newSkiplist_wf : wf newSkiplist [].
Proof.
  constructor; simpl; try done.
  - constructor.
  - intros p Hp. by apply not_elem_of_nil in Hp.
  - intros p Hp. by apply not_elem_of_nil in Hp.
  - unfold maxLevel. lia.
  - intros i Hi. change (replicate maxLevel (@None nat) !! i = Some None).
    by apply lookup_replicate_2.
Qed.

(** ** ZADD *)

Lemma Add_spec (coins : nat → bool) (set : SortedSet) (rng : nat) (m : string)
    (x : float) :
  well_formed (sl set) →
  ∃ set' rng', Add coins set rng m x = Done (set', rng')
               ∧ well_formed (sl set')
               ∧ dict set' = <[m := x]> (dict set).
Proof.
  intros Hwf. unfold Add.
  destruct (sl_insert_spec coins (sl set) rng x m Hwf) as (b & l' & rng' & -> & Hwf').
  simpl. by eexists _, _.
Qed.

(** The loop of [ZAdd] returns, with the counts and the map of
    [zadd_spec]. *)
Lemma ZAdd_loop_spec (coins : nat → bool) (opts : option Options)
    (pairs : list ScoreMember) :
  ∀ (set : SortedSet) (rng : nat) (changed added : Z),
    well_formed (sl set) →
    ∃ set' rng',
      ZAdd_loop coins set rng pairs opts changed added
      = Done (set', rng',
              (changed + (zadd_spec opts (dict set) pairs).2)%Z,
              (added + (zadd_spec opts (dict set) pairs).1.2)%Z)
      ∧ well_formed (sl set')
      ∧ dict set' = (zadd_spec opts (dict set) pairs).1.1.
Proof.
  induction pairs as [|p rest IH]; intros set rng changed added Hwf.
  { exists set, rng. simpl. rewrite !Z.add_0_r. done. }
  cbn [ZAdd_loop zadd_spec]. unfold skipped, creates, changes.
  destruct (dict set !! Member p) as [old|] eqn:Hd; simpl.
  - rewrite !andb_true_r, andb_false_r.
    destruct (opt_is IsNX opts); simpl; [by apply IH|].
    destruct (opt_is IsGT opts && (Score p <=? old)%float); simpl; [by apply IH|].
    destruct (opt_is IsLT opts && (old <=? Score p)%float); simpl; [by apply IH|].
    destruct (Add_spec coins set rng (Member p) (Score p) Hwf)
      as (set1 & rng1 & -> & Hwf1 & Hd1).
    cbn [obind].
    destruct (IH set1 rng1
                (if negb (old =? Score p)%float then (changed + 1)%Z else changed)
                added Hwf1) as (set' & rng' & -> & Hwf' & Hd').
    rewrite Hd1 in Hd' |- *.
    destruct (zadd_spec opts (<[Member p:=Score p]> (dict set)) rest) as [[d' a] c].
    simpl in *. exists set', rng'. split; [|done].
    destruct (negb (old =? Score p)%float); by rewrite ?Z.add_0_l, ?Z.add_assoc.
  - rewrite !andb_false_r, andb_true_r. simpl.
    destruct (opt_is IsXX opts); simpl; [by apply IH|].
    destruct (Add_spec coins set rng (Member p) (Score p) Hwf)
      as (set1 & rng1 & -> & Hwf1 & Hd1).
    cbn [obind].
    destruct (IH set1 rng1 (changed + 1)%Z (added + 1)%Z Hwf1)
      as (set' & rng' & -> & Hwf' & Hd').
    rewrite Hd1 in Hd' |- *.
    destruct (zadd_spec opts (<[Member p:=Score p]> (dict set)) rest) as [[d' a] c].
    simpl in *. exists set', rng'. split; [|done].
    by rewrite ?Z.add_0_l, ?Z.add_assoc.
Qed.

(** The count of added pairs is the growth of the set: a member is created
    at most once in a call. *)
Lemma zadd_spec_added (opts : option Options) (pairs : list ScoreMember) :
  ∀ d : gmap string float,
    Z.of_nat (size (zadd_spec opts d pairs).1.1)
    = (Z.of_nat (size d) + (zadd_spec opts d pairs).1.2)%Z.
Proof.
  induction pairs as [|p rest IH]; intros d; cbn [zadd_spec].
  { simpl. lia. }
  destruct (skipped opts d p); [apply IH|].
  specialize (IH (<[Member p:=Score p]> d)).
  destruct (zadd_spec opts (<[Member p:=Score p]> d) rest) as [[d' a] c].
  simpl in *. rewrite IH. unfold creates.
  destruct (d !! Member p) as [old|] eqn:Hd.
  - rewrite bool_decide_eq_false_2 by done.
    rewrite map_size_insert_Some by (by eexists). lia.
  - rewrite bool_decide_eq_true_2 by done.
    rewrite map_size_insert_None by done. lia.
Qed.

(** When every pair is skipped on the map at hand, nothing is written and
    nothing counted. *)
Lemma zadd_spec_all_skipped (opts : option Options) (d : gmap string float)
    (pairs : list ScoreMember) :
  forallb (skipped opts d) pairs = true →
  zadd_spec opts d pairs = (d, 0%Z, 0%Z).
Proof.
  induction pairs as [|p rest IH]; [done|].
  cbn [forallb zadd_spec]. intros [Hp Hrest]%andb_true_iff.
  rewrite Hp. by apply IH.
Qed.

Lemma ZAdd_loop_all_skipped (coins : nat → bool) (opts : option Options)
    (set : SortedSet) (rng : nat) (pairs : list ScoreMember) (changed added : Z) :
  forallb (skipped opts (dict set)) pairs = true →
  ZAdd_loop coins set rng pairs opts changed added = Done (set, rng, changed, added).
Proof.
  induction pairs as [|p rest IH]; [done|].
  cbn [forallb ZAdd_loop]. intros [Hp Hrest]%andb_true_iff.
  specialize (IH Hrest). unfold skipped in Hp.
  destruct (dict set !! Member p) as [old|] eqn:Hd; simpl in *.
  - rewrite !andb_true_r, andb_false_r.
    destruct (opt_is IsNX opts); simpl in *; [done|].
    destruct (opt_is IsGT opts && (Score p <=? old)%float); simpl in *; [done|].
    by rewrite Hp.
  - rewrite !andb_false_r, andb_true_r. simpl. by rewrite Hp.
Qed.

(** *** The invariants of the store *)

Lemma NewMemoryStore_wf : store_wf NewMemoryStore.
Proof. intros k set Hk. simpl in Hk. by rewrite lookup_empty in Hk. Qed.

Lemma NewMemoryStore_live : deadlines_live NewMemoryStore.
Proof. intros k [x Hk]. simpl in Hk. by rewrite lookup_empty in Hk. Qed.

Lemma remove_wf (s : MemoryStore) (key : string) :
  store_wf s → store_wf (remove s key).
Proof.
  intros Hs k set Hk. simpl in Hk.
  apply lookup_delete_Some in Hk as [_ Hk]. by eapply Hs.
Qed.

Lemma remove_live (s : MemoryStore) (key : string) :
  deadlines_live s → deadlines_live (remove s key).
Proof.
  intros Hs k [x Hk]. simpl in *.
  apply lookup_delete_Some in Hk as [Hne Hk].
  rewrite lookup_delete_ne by done. apply Hs. by eexists.
Qed.

Lemma Get_wf (s : MemoryStore) (now : Z) (key : string) :
  store_wf s → store_wf (Get s now key).2.
Proof.
  intros Hs. unfold Get. destruct (isExpired s now key); simpl.
  { by apply remove_wf. }
  by destruct (data s !! key) as [[v|set]|].
Qed.

Lemma Get_live (s : MemoryStore) (now : Z) (key : string) :
  deadlines_live s → deadlines_live (Get s now key).2.
Proof.
  intros Hs. unfold Get. destruct (isExpired s now key); simpl.
  { by apply remove_live. }
  by destruct (data s !! key) as [[v|set]|].
Qed.

Lemma Set_wf (s : MemoryStore) (key v : string) (opts : option SetOptions) :
  store_wf s → store_wf (Set_ s key (VString v) opts).2.
Proof.
  intros Hs. unfold Set_.
  repeat match goal with |- context [if ?b then _ else _] => destruct b end;
    simpl; try done;
    intros k set Hk; simpl in Hk;
    (apply lookup_insert_Some in Hk as [[_ Hk]|[_ Hk]]; [done|by eapply Hs]).
Qed.

Lemma Set_live (s : MemoryStore) (key : string) (v : value)
    (opts : option SetOptions) :
  deadlines_live s → deadlines_live (Set_ s key v opts).2.
Proof.
  intros Hs. unfold Set_.
  assert (Hins : ∀ e : gmap string Z,
             (∀ k, k ≠ key → is_Some (e !! k) → is_Some (expires s !! k)) →
             deadlines_live {| data := <[key:=v]> (data s); expires := e |}).
  { intros e He k Hk. simpl in *.
    destruct (decide (k = key)) as [->|Hne].
    - rewrite lookup_insert_eq. by eexists.
    - rewrite lookup_insert_ne by done. apply Hs. by apply He. }
  assert (Hdel : ∀ k, k ≠ key → is_Some (delete key (expires s) !! k) →
                      is_Some (expires s !! k)).
  { intros k Hne. by rewrite lookup_delete_ne. }
  assert (Hset : ∀ x k, k ≠ key → is_Some (<[key:=x]> (expires s) !! k) →
                        is_Some (expires s !! k)).
  { intros x k Hne. by rewrite lookup_insert_ne. }
  repeat match goal with |- context [if ?b then _ else _] => destruct b end;
    simpl; try done; apply Hins;
    (destruct opts as [o|]; [|done]);
    repeat match goal with |- context [if ?b then _ else _] => destruct b end;
    eauto.
Qed.

Lemma Expire_wf (s : MemoryStore) (now : Z) (key : string) (ttl : Z)
    (opts : option Options) :
  store_wf s → store_wf (Expire s now key ttl opts).2.
Proof.
  intros Hs. unfold Expire. destruct (data s !! key) as [v|]; [|done].
  match goal with |- context [match ?g with Some _ => _ | None => _ end] =>
    destruct g end; [done|].
  destruct (ttl <=? 0)%Z; simpl; [by apply remove_wf|done].
Qed.

Lemma Expire_live (s : MemoryStore) (now : Z) (key : string) (ttl : Z)
    (opts : option Options) :
  deadlines_live s → deadlines_live (Expire s now key ttl opts).2.
Proof.
  intros Hs. unfold Expire. destruct (data s !! key) as [v|] eqn:Hd; [|done].
  match goal with |- context [match ?g with Some _ => _ | None => _ end] =>
    destruct g end; [done|].
  destruct (ttl <=? 0)%Z; simpl; [by apply remove_live|].
  intros k Hk. simpl in *. destruct (decide (k = key)) as [->|Hne].
  - by eexists.
  - rewrite lookup_insert_ne in Hk by done. by apply Hs.
Qed.

Lemma TTL_wf (s : MemoryStore) (now : Z) (key : string) :
  store_wf s → store_wf (TTL s now key).2.
Proof.
  intros Hs. unfold TTL. destruct (data s !! key) as [v|]; [|done].
  destruct (expires s !! key) as [e|]; [|done].
  destruct (Until now e <=? 0)%Z; simpl; [by apply remove_wf|done].
Qed.

Lemma TTL_live (s : MemoryStore) (now : Z) (key : string) :
  deadlines_live s → deadlines_live (TTL s now key).2.
Proof.
  intros Hs. unfold TTL. destruct (data s !! key) as [v|]; [|done].
  destruct (expires s !! key) as [e|]; [|done].
  destruct (Until now e <=? 0)%Z; simpl; [by apply remove_live|done].
Qed.

Lemma put_wf (s : MemoryStore) (key : string) (set : SortedSet) :
  store_wf s → well_formed (sl set) →
  store_wf {| data := <[key := VSortedSet set]> (data s); expires := expires s |}.
Proof.
  intros Hs Hset k set' Hk. simpl in Hk.
  apply lookup_insert_Some in Hk as [[_ Hk]|[_ Hk]]; [by simplify_eq|by eapply Hs].
Qed.

Lemma put_live (s : MemoryStore) (key : string) (v : value) :
  deadlines_live s →
  deadlines_live {| data := <[key := v]> (data s); expires := expires s |}.
Proof.
  intros Hs k Hk. simpl in *. destruct (decide (k = key)) as [->|Hne].
  - rewrite lookup_insert_eq. by eexists.
  - rewrite lookup_insert_ne by done. by apply Hs.
Qed.

Lemma empty_set_wf : well_formed (sl empty_set).
Proof. exists []. apply newSkiplist_wf. Qed.

(** [ZAdd] returns on every store whose skip lists are well formed, and
    keeps them so. *)
Lemma ZAdd_total (coins : nat → bool) (s : MemoryStore) (rng : nat) (key : string)
    (pairs : list ScoreMember) (opts : option Options) :
  store_wf s →
  ∃ r s' rng', ZAdd coins s rng key pairs opts = Done (r, s', rng')
               ∧ store_wf s'
               ∧ (deadlines_live s → deadlines_live s').
Proof.
  intros Hs. unfold ZAdd.
  assert (Hset : well_formed (sl match data s !! key with
                                 | Some (VSortedSet ss) => ss
                                 | _ => empty_set
                                 end)).
  { destruct (data s !! key) as [[v|set]|] eqn:Hk;
      [apply empty_set_wf|by eapply Hs|apply empty_set_wf]. }
  fold empty_set.
  destruct (data s !! key) as [[v|set0]|] eqn:Hk.
  { by eexists _, _, _. }
  all: match type of Hset with well_formed (sl ?st) =>
         destruct (opt_is IsINCR opts);
         [|destruct (ZAdd_loop_spec coins opts pairs st rng 0 0 Hset)
             as (set' & rng' & -> & Hwf' & _); cbn [obind];
           destruct (opt_is IsCH opts); eexists _, _, _;
           (split; [done|split; [by apply put_wf|apply put_live]])]
       end.
  all: destruct pairs as [|p [|q rest]];
    try (eexists _, _, _; (split; [done|split; [by apply put_wf|apply put_live]])).
  all: repeat match goal with |- context [if ?b then _ else _] => destruct b end;
    try (eexists _, _, _; (split; [done|split; [by apply put_wf|apply put_live]])).
  all: match goal with |- context [Add _ ?st ?r ?m ?x] =>
         destruct (Add_spec coins st r m x Hset) as (set' & rng' & -> & Hwf' & _)
       end; cbn [obind]; eexists _, _, _;
       (split; [done|split; [by apply put_wf|apply put_live]]).
Qed.

(** [skipped] is the gating of the four options, read as a proposition. *)
Lemma skipped_iff (opts : option Options) (d : gmap string float) (p : ScoreMember) :
  skipped opts d p = true ↔
    (opt_is IsNX opts = true ∧ is_Some (d !! Member p))
    ∨ (opt_is IsXX opts = true ∧ d !! Member p = None)
    ∨ (opt_is IsGT opts = true
       ∧ ∃ old, d !! Member p = Some old ∧ (Score p <=? old)%float = true)
    ∨ (opt_is IsLT opts = true
       ∧ ∃ old, d !! Member p = Some old ∧ (old <=? Score p)%float = true).
Proof.
  unfold skipped. destruct (d !! Member p) as [old|] eqn:Hd.
  - rewrite !orb_true_iff, !andb_true_iff. split.
    + intros [[HNX|[HGT Hle]]|[HLT Hle]].
      * left. split; [done|by eexists].
      * right; right; left. split; [done|]. by exists old.
      * right; right; right. split; [done|]. by exists old.
    + intros [[HNX _]|[[_ ?]|[[HGT (o & ? & Hle)]|[HLT (o & ? & Hle)]]]];
        simplify_eq; tauto.
  - split.
    + intros HXX. right; left. done.
    + intros [[_ [? ?]]|[[HXX _]|[[_ (o & ? & _)]|[_ (o & ? & _)]]]];
        simplify_eq; done.
Qed.

Lemma elem_of_Keys (re : string → string → option bool) (s : MemoryStore) (now : Z)
    (pattern key : string) :
  key ∈ Keys re s now pattern ↔
    is_Some (data s !! key) ∧ isExpired s now key = false
    ∧ matchPattern re key pattern = true.
Proof.
  unfold Keys. rewrite list_elem_of_filter, andb_true_iff, negb_true_iff.
  rewrite list_elem_of_In, in_map_iff. split.
  - intros [[He Hm] ([k v] & <- & Hin)]. split; [|done].
    apply list_elem_of_In, elem_of_map_to_list in Hin. by exists v.
  - intros ([v Hv] & He & Hm). split; [done|]. exists (key, v). split; [done|].
    by apply list_elem_of_In, elem_of_map_to_list.
Qed.

(** C6, as amended.  A ZADD call without INCR on a key that does not hold
    a string goes through the pairs in input order; a pair is skipped
    exactly when [skipped] says so on the map as the earlier pairs left it
    (NX and the member exists, XX and it is absent, GT and it exists with
    new_score <= old_score, LT and it exists with new_score >= old_score),
    and every other pair writes member -> score.  The call returns the number
    of pairs that created a member, which is the number of new members of
    the set, or with CH the number of pairs that created a member or wrote
    a score different from the old one: a count of pairs, in which a member
    that several pairs name is counted once for each of them that changes
    it. *)
Theorem ZAdd_gating_and_count (coins : nat → bool) (s : MemoryStore) (rng : nat)
    (key : string) (pairs : list ScoreMember) (opts : option Options) :
  store_wf s →
  (∀ v, data s !! key ≠ Some (VString v)) →
  opt_is IsINCR opts = false →
  ∃ s' rng',
    ZAdd coins s rng key pairs opts
    = Done (Ret (Int (if opt_is IsCH opts
                      then (zadd_spec opts (dict_at s key) pairs).2
                      else (zadd_spec opts (dict_at s key) pairs).1.2)),
            s', rng')
    ∧ dict_at s' key = (zadd_spec opts (dict_at s key) pairs).1.1
    ∧ Z.of_nat (size (dict_at s' key))
      = (Z.of_nat (size (dict_at s key))
         + (zadd_spec opts (dict_at s key) pairs).1.2)%Z
    ∧ store_wf s'.
Proof.
  intros Hs Hstr HINCR. unfold ZAdd, dict_at. fold empty_set.
  assert (Hset : well_formed (sl match data s !! key with
                                 | Some (VSortedSet ss) => ss
                                 | _ => empty_set
                                 end)).
  { destruct (data s !! key) as [[v|set]|] eqn:Hk;
      [apply empty_set_wf|by eapply Hs|apply empty_set_wf]. }
  destruct (data s !! key) as [[v|set0]|] eqn:Hk; [by destruct (Hstr v)| |];
    rewrite HINCR.
  - destruct (ZAdd_loop_spec coins opts pairs set0 rng 0 0 Hset)
      as (set' & rng' & -> & Hwf' & Hd').
    cbn [obind]. rewrite !Z.add_0_l.
    exists {| data := <[key := VSortedSet set']> (data s); expires := expires s |}, rng'.
    cbn [data]. rewrite lookup_insert_eq, Hd'.
    split; [by destruct (opt_is IsCH opts)|].
    split; [done|]. split; [apply zadd_spec_added|by apply put_wf].
  - destruct (ZAdd_loop_spec coins opts pairs empty_set rng 0 0 Hset)
      as (set' & rng' & -> & Hwf' & Hd').
    cbn [obind]. rewrite !Z.add_0_l.
    exists {| data := <[key := VSortedSet set']> (data s); expires := expires s |}, rng'.
    cbn [data]. rewrite lookup_insert_eq, Hd'.
    split; [by destruct (opt_is IsCH opts)|].
    split; [done|]. split; [apply zadd_spec_added|by apply put_wf].
Qed.

(** ZADD k GT CH 1 a 5 a 0 a 2 b 3 c on the empty store: three members
    are created, the second pair changes a score and the third is skipped
    under GT, four changes in all. *)
Lemma ZAdd_gating_and_count_witness :
  let pairs := [mkScoreMember 1 "a"; mkScoreMember 5 "a"; mkScoreMember 0 "a";
                mkScoreMember 2 "b"; mkScoreMember 3 "c"] in
  store_wf NewMemoryStore
  ∧ skipped (Some (zadd_options ["GT"; "CH"])) {[ "a" := 5%float ]}
      (mkScoreMember 0 "a") = true
  ∧ ∃ s' rng',
      ZAdd no_promotion NewMemoryStore 0 "k" pairs (Some (zadd_options ["GT"; "CH"]))
      = Done (Ret (Int 4), s', rng')
      ∧ dict_at s' "k" = <["a" := 5%float]> (<["b" := 2%float]> (<["c" := 3%float]> ∅))
      ∧ Z.of_nat (size (dict_at s' "k")) = 3%Z
      ∧ store_wf s'.
Proof.
  intros pairs. split; [apply NewMemoryStore_wf|]. split; [vm_compute; reflexivity|].
  destruct (ZAdd_gating_and_count no_promotion NewMemoryStore 0 "k" pairs (Some (zadd_options ["GT"; "CH"])))
    as (s' & rng' & HZ & Hd & Hsz & Hwf).
  - apply NewMemoryStore_wf.
  - intros v. vm_compute. discriminate.
  - vm_compute. reflexivity.
  - exists s', rng'. split; [exact HZ|]. split; [|split; [exact Hsz|exact Hwf]].
    rewrite Hd. vm_compute. reflexivity.
Defined.

(** C10. A ZADD on a key that has no entry in the store (no value and, the
    deadlines being those of stored keys, no deadline) returns and leaves a
    sorted set under the key whatever the options do to the pairs: KEYS
    lists the key for every pattern that matches it, and GET on it fails
    with the WRONGTYPE error.  When every pair is skipped the set stored is
    the empty one, and without INCR the call returns 0. *)
Theorem ZAdd_absent_key_creates_set (coins : nat → bool)
    (re : string → string → option bool) (s : MemoryStore) (rng : nat) (key : string)
    (pairs : list ScoreMember) (opts : option Options) (now : Z) (pattern : string) :
  deadlines_live s →
  data s !! key = None →
  matchPattern re key pattern = true →
  ∃ r s' rng' set,
    ZAdd coins s rng key pairs opts = Done (r, s', rng')
    ∧ data s' !! key = Some (VSortedSet set)
    ∧ key ∈ Keys re s' now pattern
    ∧ Get s' now key
      = (Err "WRONGTYPE Operation against a key holding a sorted set", s')
    ∧ (forallb (skipped opts ∅) pairs = true → set = empty_set)
    ∧ (forallb (skipped opts ∅) pairs = true → opt_is IsINCR opts = false →
       r = Ret (Int 0)).
Proof.
  intros Hlive Hk Hm.
  assert (He : expires s !! key = None).
  { destruct (expires s !! key) as [e|] eqn:He; [|done].
    destruct (Hlive key) as [v Hv]; [by eexists|]. by rewrite Hk in Hv. }
  assert (Hafter : ∀ set,
    let s' := {| data := <[key := VSortedSet set]> (data s); expires := expires s |} in
    data s' !! key = Some (VSortedSet set)
    ∧ key ∈ Keys re s' now pattern
    ∧ Get s' now key
      = (Err "WRONGTYPE Operation against a key holding a sorted set", s')).
  { intros set s'.
    assert (Hd : data s' !! key = Some (VSortedSet set)) by apply lookup_insert_eq.
    assert (Hx : isExpired s' now key = false).
    { unfold isExpired, s'. cbn [expires]. by rewrite He. }
    split; [done|]. split.
    - apply elem_of_Keys. split; [by eexists|done].
    - unfold Get. by rewrite Hx, Hd. }
  unfold ZAdd. rewrite Hk. fold empty_set.
  destruct (opt_is IsINCR opts) eqn:HINCR.
  - destruct pairs as [|p [|q rest]].
    + eexists _, _, _, empty_set. split; [done|].
      destruct (Hafter empty_set) as (? & ? & ?). by repeat split.
    + replace (dict empty_set !! Member p) with (@None float) by done.
      cbn [default is_Some]. rewrite bool_decide_eq_false_2 by (by intros [? ?]).
      rewrite andb_false_r, andb_true_r. cbn [negb].
      destruct (opt_is IsXX opts) eqn:HXX.
      * eexists _, _, _, empty_set. split; [done|].
        destruct (Hafter empty_set) as (? & ? & ?). by repeat split.
      * destruct (Add_spec coins empty_set rng (Member p) (0 + Score p)%float
                    empty_set_wf) as (set' & rng' & -> & _ & _).
        cbn [obind]. eexists _, _, _, set'. split; [done|].
        destruct (Hafter set') as (? & ? & ?).
        split; [done|]. split; [done|]. split; [done|].
        assert (Hno : forallb (skipped opts ∅) [p] = true → False).
        { cbn [forallb]. unfold skipped. rewrite lookup_empty, HXX. done. }
        split; intros Hall; by destruct (Hno Hall).
    + eexists _, _, _, empty_set. split; [done|].
      destruct (Hafter empty_set) as (? & ? & ?).
      split; [done|]. split; [done|]. split; [done|]. by split.
  - destruct (ZAdd_loop_spec coins opts pairs empty_set rng 0 0 empty_set_wf)
      as (set' & rng' & HZ & _ & _).
    rewrite HZ. cbn [obind]. rewrite !Z.add_0_l.
    exists (Ret (Int (if opt_is IsCH opts
                      then (zadd_spec opts (dict empty_set) pairs).2
                      else (zadd_spec opts (dict empty_set) pairs).1.2))),
           {| data := <[key := VSortedSet set']> (data s); expires := expires s |},
           rng', set'.
    split; [by destruct (opt_is IsCH opts)|].
    destruct (Hafter set') as (? & ? & ?).
    split; [done|]. split; [done|]. split; [done|].
    assert (Hskip : forallb (skipped opts ∅) pairs = true →
                    set' = empty_set
                    ∧ zadd_spec opts (dict empty_set) pairs = (∅, 0%Z, 0%Z)).
    { intros Hall.
      rewrite (ZAdd_loop_all_skipped coins opts empty_set rng pairs 0 0 Hall) in HZ.
      rewrite (zadd_spec_all_skipped opts (dict empty_set) pairs Hall).
      split; [|done]. by simplify_eq. }
    split.
    + intros Hall. by destruct (Hskip Hall).
    + intros Hall _. destruct (Hskip Hall) as [_ ->].
      by destruct (opt_is IsCH opts).
Qed.

(** ZADD k XX 1 a 2 b on the empty store: both pairs are skipped, and the
    key is there. *)
Lemma ZAdd_absent_key_creates_set_witness :
  let pairs := [mkScoreMember 1 "a"; mkScoreMember 2 "b"] in
  let opts := Some (zadd_options ["XX"]) in
  deadlines_live NewMemoryStore
  ∧ ∃ s' rng',
      ZAdd no_promotion NewMemoryStore 0 "k" pairs opts = Done (Ret (Int 0), s', rng')
      ∧ data s' !! "k" = Some (VSortedSet empty_set)
      ∧ "k" ∈ Keys regexp_none s' 0 "*"
      ∧ Get s' 0 "k"
        = (Err "WRONGTYPE Operation against a key holding a sorted set", s').
Proof.
  intros pairs opts. split; [apply NewMemoryStore_live|].
  destruct (ZAdd_absent_key_creates_set no_promotion regexp_none NewMemoryStore 0 "k"
              pairs opts 0 "*")
    as (r & s' & rng' & set & HZ & Hd & HK & HG & Hset & Hr).
  - apply NewMemoryStore_live.
  - vm_compute. reflexivity.
  - vm_compute. reflexivity.
  - exists s', rng'.
    rewrite (Hr ltac:(vm_compute; reflexivity) ltac:(vm_compute; reflexivity)) in HZ.
    rewrite (Hset ltac:(vm_compute; reflexivity)) in Hd.
    split; [exact HZ|]. split; [exact Hd|]. split; [exact HK|exact HG].
Defined.

(** The key of C10 must have no entry: a sorted set whose deadline is past
    and that no access has reclaimed yet still has one, ZADD goes on with
    it, and the key stays expired, to KEYS and to GET. *)
Lemma ZAdd_on_unreclaimed_key :
  ∃ r1 s1 rng1 s2 r3 s3 rng3,
    ZAdd no_promotion NewMemoryStore 0 "k" [mkScoreMember 1 "a"] None
    = Done (r1, s1, rng1)
    ∧ Expire s1 0 "k" (1 * Second) None = (None, s2)
    ∧ ZAdd no_promotion s2 rng1 "k" [mkScoreMember 2 "b"] None = Done (r3, s3, rng3)
    ∧ r3 = Ret (Int 1)
    ∧ Keys regexp_none s3 (2 * Second) "*" = []
    ∧ fst (Get s3 (2 * Second) "k") = Ret Nil.
Proof.
  do 7 eexists.
  split; [vm_compute; reflexivity|]. split; [vm_compute; reflexivity|].
  split; [vm_compute; reflexivity|]. split; [reflexivity|].
  split; vm_compute; reflexivity.
Qed.

(** * The store: how its operations compose *)

Lemma isExpired_remove (s : MemoryStore) (now : Z) (key k : string) :
  isExpired (remove s key) now k = if decide (k = key) then false else isExpired s now k.
Proof.
  unfold isExpired, remove. cbn [expires]. destruct (decide (k = key)) as [->|Hne].
  - by rewrite lookup_delete_eq.
  - by rewrite lookup_delete_ne.
Qed.

Lemma Get_absent (s : MemoryStore) (now : Z) (key : string) :
  data s !! key = None → expires s !! key = None → Get s now key = (Ret Nil, s).
Proof. intros Hd He. unfold Get, isExpired. by rewrite He, Hd. Qed.

Lemma Get_frame (s s' : MemoryStore) (now : Z) (k : string) :
  data s' !! k = data s !! k → expires s' !! k = expires s !! k →
  (Get s' now k).1 = (Get s now k).1.
Proof.
  intros Hd He. unfold Get, isExpired. rewrite Hd, He.
  destruct (expires s !! k) as [e|]; [destruct (e <? now)%Z; [done|]|];
    by destruct (data s !! k) as [[v|set]|].
Qed.

Lemma TTL_frame (s s' : MemoryStore) (now : Z) (k : string) :
  data s' !! k = data s !! k → expires s' !! k = expires s !! k →
  (TTL s' now k).1 = (TTL s now k).1.
Proof.
  intros Hd He. unfold TTL. rewrite Hd, He.
  destruct (data s !! k) as [v|]; [|done].
  destruct (expires s !! k) as [e|]; [|done].
  by destruct (Until now e <=? 0)%Z.
Qed.

Lemma Keys_frame (re : string → string → option bool) (s s' : MemoryStore) (now : Z)
    (pattern k : string) :
  data s' !! k = data s !! k → expires s' !! k = expires s !! k →
  k ∈ Keys re s' now pattern ↔ k ∈ Keys re s now pattern.
Proof.
  intros Hd He. rewrite !elem_of_Keys. unfold isExpired. by rewrite Hd, He.
Qed.

Lemma Get_not_null (s : MemoryStore) (now : Z) (key : string) :
  (Get s now key).1 ≠ Ret Nil ↔ is_Some (data s !! key) ∧ isExpired s now key = false.
Proof.
  unfold Get. destruct (isExpired s now key); simpl.
  { split; [done|]. by intros [_ ?]. }
  destruct (data s !! key) as [[v|set]|]; simpl.
  - split; [by eauto|done].
  - split; [by eauto|done].
  - split; [done|]. by intros [[? ?] _].
Qed.

(** X1. On every store the server can reach, a deadline belongs to a key
    that has a value, the index of every sorted set is well formed, and
    ZADD returns, whatever its arguments. *)
Theorem reachable_store_invariants (coins : nat → bool) (s : MemoryStore) :
  reachable coins s →
  deadlines_live s ∧ store_wf s
  ∧ ∀ rng key pairs opts,
      ∃ r s' rng', ZAdd coins s rng key pairs opts = Done (r, s', rng').
Proof.
  intros Hr.
  assert (deadlines_live s ∧ store_wf s) as [Hl Hw].
  { induction Hr as [|s now key _ [Hl Hw]|s key v opts _ [Hl Hw]|s key _ [Hl Hw]
                     |s now key ttl opts _ [Hl Hw]|s now key _ [Hl Hw]
                     |s rng key pairs opts r s' rng' _ [Hl Hw] HZ].
    - split; [apply NewMemoryStore_live|apply NewMemoryStore_wf].
    - split; [by apply Get_live|by apply Get_wf].
    - split; [by apply Set_live|by apply Set_wf].
    - split; [by apply remove_live|by apply remove_wf].
    - split; [by apply Expire_live|by apply Expire_wf].
    - split; [by apply TTL_live|by apply TTL_wf].
    - destruct (ZAdd_total coins s rng key pairs opts Hw)
        as (r1 & s1 & rng1 & HZ1 & Hw1 & Hl1).
      rewrite HZ in HZ1. simplify_eq. split; [by apply Hl1|done]. }
  split; [done|]. split; [done|]. intros rng key pairs opts.
  destruct (ZAdd_total coins s rng key pairs opts Hw) as (r & s' & rng' & HZ & _).
  by exists r, s', rng'.
Qed.

(** SET k v, EXPIRE k 5s, then a GET after the deadline. *)
Lemma reachable_store_invariants_witness :
  let s := (Get (Expire (Set_ NewMemoryStore "k" (VString "v") None).2
                   0 "k" (5 * Second) None).2 (6 * Second) "k").2 in
  reachable no_promotion s
  ∧ deadlines_live s ∧ store_wf s
  ∧ ∀ rng key pairs opts,
      ∃ r s' rng', ZAdd no_promotion s rng key pairs opts = Done (r, s', rng').
Proof.
  intros s.
  assert (reachable no_promotion s) as Hr.
  { apply reach_Get, reach_Expire, reach_Set, reach_new. }
  split; [exact Hr|]. exact (reachable_store_invariants no_promotion s Hr).
Defined.

(** X2. A SET either fails, and leaves the store as it was, or stores the
    string: the other keys keep their value and deadline, GET returns the
    string as long as its deadline is not past, and when the options name
    no deadline the key has none afterwards. *)
Theorem Set_then_Get (s : MemoryStore) (key v : string) (opts : option SetOptions) :
  match Set_ s key (VString v) opts with
  | (Err _, s') => s' = s
  | (Ret _, s') =>
    (∀ k, k ≠ key → data s' !! k = data s !! k ∧ expires s' !! k = expires s !! k)
    ∧ (∀ now, isExpired s' now key = false → Get s' now key = (Ret (Str v), s'))
    ∧ (no_expiry_option opts →
       expires s' !! key = None ∧ ∀ now, Get s' now key = (Ret (Str v), s'))
  end.
Proof.
  assert (Hget : ∀ (e : gmap string Z) now,
            let s' := {| data := <[key:=VString v]> (data s); expires := e |} in
            isExpired s' now key = false → Get s' now key = (Ret (Str v), s')).
  { intros e now s' Hx. unfold Get. rewrite Hx. unfold s'. cbn [data].
    by rewrite lookup_insert_eq. }
  assert (Hnone : ∀ (e : gmap string Z) now,
            e !! key = None →
            isExpired {| data := <[key:=VString v]> (data s); expires := e |} now key
            = false).
  { intros e now He. unfold isExpired. cbn [expires]. by rewrite He. }
  unfold Set_.
  destruct (match opts with Some o => IsNX (set_opts o) && _ | None => false end);
    [done|].
  destruct (match opts with Some o => IsXX (set_opts o) && _ | None => false end);
    [done|].
  match goal with
  | |- context [{| data := _; expires := ?e |}] => set (E := e)
  end.
  assert (∀ k, k ≠ key → E !! k = expires s !! k) as Hframe.
  { intros k Hne. unfold E. destruct opts as [o|].
    - destruct (IsKEEPTTL o); [by destruct (bool_decide _); rewrite ?lookup_delete_ne|].
      destruct (negb _); [by rewrite lookup_insert_ne|by rewrite lookup_delete_ne].
    - by rewrite lookup_delete_ne. }
  assert (no_expiry_option opts → E !! key = None) as Hclear.
  { unfold E, no_expiry_option, IsKEEPTTL. destruct opts as [o|].
    - intros ->. simpl. by rewrite lookup_delete_eq.
    - intros _. by rewrite lookup_delete_eq. }
  assert ((∀ k, k ≠ key →
             <[key:=VString v]> (data s) !! k = data s !! k ∧ E !! k = expires s !! k)
          ∧ (∀ now, isExpired {| data := <[key:=VString v]> (data s); expires := E |}
                      now key = false →
                    Get {| data := <[key:=VString v]> (data s); expires := E |} now key
                    = (Ret (Str v),
                       {| data := <[key:=VString v]> (data s); expires := E |}))
          ∧ (no_expiry_option opts →
             E !! key = None
             ∧ ∀ now, Get {| data := <[key:=VString v]> (data s); expires := E |} now key
                      = (Ret (Str v),
                         {| data := <[key:=VString v]> (data s); expires := E |})))
    as Hall.
  { split; [|split].
    - intros k Hne. split; [by rewrite lookup_insert_ne|by apply Hframe].
    - intros now. apply Hget.
    - intros Hno. split; [by apply Hclear|]. intros now. apply Hget, Hnone.
      by apply Hclear. }
  by destruct (match opts with Some o => IsGET (set_opts o) | None => false end).
Qed.

(** X3. After DEL the key is gone for every accessor (GET returns null,
    TTL returns -2, KEYS does not list it), and every other key answers as
    before. *)
Theorem Del_removes_the_key_only (re : string → string → option bool)
    (s : MemoryStore) (now : Z) (key pattern : string) :
  let s' := Del s key in
  Get s' now key = (Ret Nil, s')
  ∧ TTL s' now key = ((-2)%Z, s')
  ∧ (key ∉ Keys re s' now pattern)
  ∧ ∀ k, k ≠ key →
      (Get s' now k).1 = (Get s now k).1
      ∧ (TTL s' now k).1 = (TTL s now k).1
      ∧ (k ∈ Keys re s' now pattern ↔ k ∈ Keys re s now pattern).
Proof.
  intros s'.
  assert (data s' !! key = None) as Hd by apply lookup_delete_eq.
  assert (expires s' !! key = None) as He by apply lookup_delete_eq.
  split; [by apply Get_absent|].
  split; [unfold TTL; by rewrite Hd|].
  split.
  { rewrite elem_of_Keys, Hd. by intros [[? ?] _]. }
  intros k Hne.
  assert (data s' !! k = data s !! k) as Hdk by (by apply lookup_delete_ne).
  assert (expires s' !! k = expires s !! k) as Hek by (by apply lookup_delete_ne).
  split; [by apply Get_frame|]. split; [by apply TTL_frame|by apply Keys_frame].
Qed.

(** X4. GET reclaims a key whose deadline is past: it returns null and the
    key leaves both maps; in every other case GET leaves the store as it
    was.  No other key is touched, and a second GET at the same time
    returns the same result and changes nothing. *)
Theorem Get_lazy_expiry (s : MemoryStore) (now : Z) (key : string) :
  let r := (Get s now key).1 in
  let s' := (Get s now key).2 in
  (if isExpired s now key
   then r = Ret Nil ∧ data s' !! key = None ∧ expires s' !! key = None
   else s' = s)
  ∧ (∀ k, k ≠ key → data s' !! k = data s !! k ∧ expires s' !! k = expires s !! k)
  ∧ Get s' now key = (r, s').
Proof.
  intros r s'. unfold r, s', Get.
  destruct (isExpired s now key) eqn:Hx; cbn [fst snd].
  - unfold remove at 1 2 3 4. cbn [data expires].
    split; [by rewrite !lookup_delete_eq|]. split.
    + intros k Hne. by rewrite !lookup_delete_ne.
    + rewrite isExpired_remove, decide_True by done.
      unfold remove at 1. cbn [data]. by rewrite lookup_delete_eq.
  - split; [by destruct (data s !! key) as [[v|set]|]|]. split.
    + intros k _. by destruct (data s !! key) as [[v|set]|].
    + destruct (data s !! key) as [[v|set]|] eqn:Hd; cbn [fst snd];
        by rewrite Hx, Hd.
Qed.

Lemma Until_small (now t : Z) :
  (int64_min ≤ t - now ≤ int64_max)%Z → Until now t = (t - now)%Z.
Proof. unfold Until, sat64. lia. Qed.

(** X5. An EXPIRE of [n] whole seconds that succeeds at time [now] sets
    the deadline [now + n s]: the key is expired exactly after it, and a
    TTL asked [d] whole seconds later, before the deadline, answers
    [n - d]. *)
Theorem Expire_then_TTL (s : MemoryStore) (now : Z) (key : string) (n : Z)
    (opts : option Options) (s' : MemoryStore) :
  (0 < n)%Z → (n * Second ≤ int64_max)%Z →
  Expire s now key (n * Second) opts = (None, s') →
  (∀ t, isExpired s' t key = bool_decide (now + n * Second < t)%Z)
  ∧ ∀ d, (0 ≤ d < n)%Z → TTL s' (now + d * Second) key = ((n - d)%Z, s').
Proof.
  intros Hn Hmax. unfold Expire.
  destruct (data s !! key) as [v|] eqn:Hd; [|done].
  match goal with |- context [match ?g with Some _ => _ | None => _ end] =>
    destruct g end; [done|].
  destruct (Z.leb_spec (n * Second) 0) as [Hle|_]; [unfold Second in Hle; lia|].
  intros [= <-]. split.
  - intros t. unfold isExpired. cbn [expires]. rewrite lookup_insert_eq.
    destruct (Z.ltb_spec (now + n * Second) t).
    + by rewrite bool_decide_eq_true_2.
    + by rewrite bool_decide_eq_false_2 by lia.
  - intros d Hdn. unfold TTL. cbn [data expires]. rewrite Hd, lookup_insert_eq.
    rewrite Until_small by (unfold int64_min, int64_max, Second in *; lia).
    replace (now + n * Second - (now + d * Second))%Z with ((n - d) * Second)%Z by lia.
    destruct (Z.leb_spec ((n - d) * Second) 0) as [Hle|_];
      [unfold Second in Hle; lia|].
    unfold whole_seconds. by rewrite Z.quot_mul by (by unfold Second).
Qed.

(** SET k v; EXPIRE k 10 at time 7 s; TTL k three seconds later. *)
Lemma Expire_then_TTL_witness :
  let s := (Set_ NewMemoryStore "k" (VString "v") None).2 in
  let s' := (Expire s (7 * Second) "k" (10 * Second) None).2 in
  (∀ t, isExpired s' t "k" = bool_decide (7 * Second + 10 * Second < t)%Z)
  ∧ ∀ d, (0 ≤ d < 10)%Z → TTL s' (7 * Second + d * Second) "k" = ((10 - d)%Z, s').
Proof.
  intros s s'.
  apply (Expire_then_TTL s (7 * Second) "k" 10 None s').
  - lia.
  - vm_compute. discriminate.
  - vm_compute. reflexivity.
Defined.

(** X6. An EXPIRE without options whose time to live is zero or negative
    acts on a key that has a value as DEL does: it succeeds, GET then
    returns null and TTL -2.  On a key without a value every EXPIRE fails
    and changes nothing. *)
Theorem Expire_nonpositive_deletes (s : MemoryStore) (now : Z) (key : string)
    (ttl : Z) (opts : option Options) :
  (data s !! key = None → Expire s now key ttl opts = (Some "key does not exist", s))
  ∧ (is_Some (data s !! key) → (ttl ≤ 0)%Z →
     let s' := (Expire s now key ttl None).2 in
     Expire s now key ttl None = (None, Del s key)
     ∧ ∀ t, Get s' t key = (Ret Nil, s') ∧ TTL s' t key = ((-2)%Z, s')).
Proof.
  split.
  - intros Hd. unfold Expire. by rewrite Hd.
  - intros [v Hd] Httl s'. unfold s', Expire. rewrite Hd.
    destruct (Z.leb_spec ttl 0) as [_|?]; [|lia]. cbn [snd]. split; [done|].
    intros t. split.
    + apply Get_absent; apply lookup_delete_eq.
    + unfold TTL. cbn [remove data]. by rewrite lookup_delete_eq.
Qed.

(** EXPIRE k 0 on a key that holds a string, and EXPIRE on a key that is
    not there. *)
Lemma Expire_nonpositive_deletes_witness :
  let s := (Set_ NewMemoryStore "k" (VString "v") None).2 in
  Expire s 0 "missing" 5 None = (Some "key does not exist", s)
  ∧ Expire s 0 "k" 0 None = (None, Del s "k")
  ∧ Get (Del s "k") 3 "k" = (Ret Nil, Del s "k").
Proof.
  intros s.
  destruct (Expire_nonpositive_deletes s 0 "missing" 5 None) as [H1 _].
  destruct (Expire_nonpositive_deletes s 0 "k" 0 None) as [_ H2].
  split; [apply H1; vm_compute; reflexivity|].
  destruct H2 as [H2 H3]; [by eexists|lia|].
  split; [exact H2|]. exact (proj1 (H3 3%Z)).
Defined.

(** X7. KEYS with the pattern [*] lists exactly the keys for which GET does
    not return null; no key is listed twice, for any pattern, and a key
    listed for a pattern is listed for [*]. *)
Theorem Keys_lists_the_live_keys (re : string → string → option bool)
    (s : MemoryStore) (now : Z) (pattern : string) :
  (∀ key, key ∈ Keys re s now "*" ↔ (Get s now key).1 ≠ Ret Nil)
  ∧ NoDup (Keys re s now pattern)
  ∧ ∀ key, key ∈ Keys re s now pattern → key ∈ Keys re s now "*".
Proof.
  split; [|split].
  - intros key. rewrite elem_of_Keys, Get_not_null. unfold matchPattern. simpl. tauto.
  - unfold Keys. apply NoDup_filter.
    replace (map fst (map_to_list (data s))) with ((map_to_list (data s)).*1).
    + apply NoDup_fst_map_to_list.
    + generalize (map_to_list (data s)). intros l.
      induction l as [|x l IH]; [done|]. csimpl. by f_equal.
  - intros key. rewrite !elem_of_Keys. unfold matchPattern at 2. simpl. tauto.
Qed.

(** X8. The answers of TTL: -2 exactly when the key has no value or its
    deadline is reached, -1 exactly when it has a value and no deadline, and
    a number of seconds that is not negative in every other case; TTL
    changes the store only when it answers -2. *)
Theorem TTL_codes (s : MemoryStore) (now : Z) (key : string) :
  let t := (TTL s now key).1 in
  (t = (-2)%Z ↔ data s !! key = None ∨ ∃ e, expires s !! key = Some e ∧ (e ≤ now)%Z)
  ∧ (t = (-1)%Z ↔ is_Some (data s !! key) ∧ expires s !! key = None)
  ∧ (t = (-2)%Z ∨ t = (-1)%Z ∨ (0 ≤ t)%Z)
  ∧ (t ≠ (-2)%Z → (TTL s now key).2 = s).
Proof.
  intros t. unfold t, TTL.
  destruct (data s !! key) as [v|] eqn:Hd; cbn [fst snd].
  2:{ split; [by split; [left|]|]. split; [|by split; [left|]].
      split; [done|]. by intros [[? ?] _]. }
  destruct (expires s !! key) as [e|] eqn:He; cbn [fst snd].
  2:{ split; [|split; [by split; [eauto|]|by split; [right; left|]]].
      split; [done|]. intros [?|(e & ? & _)]; done. }
  destruct (Z.leb_spec (Until now e) 0) as [Hr|Hr]; cbn [fst snd].
  - assert (e ≤ now)%Z.
    { destruct (Z.le_gt_cases e now) as [|Hgt]; [done|].
      assert (0 < Until now e)%Z by (apply sat64_pos; lia). lia. }
    split; [split; [intros _; right; by exists e|done]|].
    split; [split; [done|by intros [_ ?]]|]. by split; [left|].
  - pose proof (whole_seconds_nonneg _ Hr) as Hw.
    assert (0 < e - now)%Z as Hpos by (by apply sat64_pos).
    split; [split; [lia|intros [?|(e' & ? & ?)]; simplify_eq; lia]|].
    split; [split; [lia|by intros [_ ?]]|]. by split; [right; right|].
Qed.

(** X9. ZADD with INCR on a key that does not hold a string.  With one
    pair it adds the increment to the score of the member, 0 for a member
    that is not there, stores the sum and returns it; under NX for a member
    that is there, and under XX for one that is not, it returns null and
    writes nothing.  With any other number of pairs it fails and writes
    nothing.  In every case the call returns and the key holds a sorted
    set afterwards. *)
Theorem ZAdd_INCR (coins : nat → bool) (s : MemoryStore) (rng : nat) (key : string)
    (pairs : list ScoreMember) (opts : option Options) :
  store_wf s →
  (∀ v, data s !! key ≠ Some (VString v)) →
  opt_is IsINCR opts = true →
  ∃ r s' rng' set,
    ZAdd coins s rng key pairs opts = Done (r, s', rng')
    ∧ store_wf s'
    ∧ data s' !! key = Some (VSortedSet set)
    ∧ match pairs with
      | [p] =>
        let old := dict_at s key !! Member p in
        if (opt_is IsNX opts && bool_decide (is_Some old))
           || (opt_is IsXX opts && negb (bool_decide (is_Some old)))
        then r = Ret Nil ∧ dict set = dict_at s key
        else r = Ret (Float (default 0%float old + Score p))
             ∧ dict set = <[Member p := (default 0%float old + Score p)%float]>
                            (dict_at s key)
      | _ => r = Err "INCR option requires exactly one score-member pair"
             ∧ dict set = dict_at s key
      end.
Proof.
  intros Hs Hstr HINCR. unfold ZAdd, dict_at. fold empty_set.
  assert (Hset : well_formed (sl match data s !! key with
                                 | Some (VSortedSet ss) => ss
                                 | _ => empty_set
                                 end)).
  { destruct (data s !! key) as [[v|set]|] eqn:Hk;
      [apply empty_set_wf|by eapply Hs|apply empty_set_wf]. }
  assert (Hput : ∀ set, well_formed (sl set) →
            store_wf {| data := <[key:=VSortedSet set]> (data s); expires := expires s |}
            ∧ data {| data := <[key:=VSortedSet set]> (data s); expires := expires s |}
                !! key = Some (VSortedSet set)).
  { intros set Hw. split; [by apply put_wf|apply lookup_insert_eq]. }
  assert (Hbody : ∀ st, well_formed (sl st) →
    ∃ r s' rng' set,
      match pairs with
      | [member] =>
        if opt_is IsNX opts && bool_decide (is_Some (dict st !! Member member))
        then Done (Ret Nil,
                   {| data := <[key:=VSortedSet st]> (data s); expires := expires s |},
                   rng)
        else if opt_is IsXX opts
                && negb (bool_decide (is_Some (dict st !! Member member)))
        then Done (Ret Nil,
                   {| data := <[key:=VSortedSet st]> (data s); expires := expires s |},
                   rng)
        else
          '(set, rng) ←← Add coins st rng (Member member)
                           (default 0%float (dict st !! Member member) + Score member);
          Done (Ret (Float (default 0%float (dict st !! Member member)
                            + Score member)),
                {| data := <[key:=VSortedSet set]> (data s); expires := expires s |},
                rng)
      | _ => Done (Err "INCR option requires exactly one score-member pair",
                   {| data := <[key:=VSortedSet st]> (data s); expires := expires s |},
                   rng)
      end = Done (r, s', rng')
      ∧ store_wf s'
      ∧ data s' !! key = Some (VSortedSet set)
      ∧ match pairs with
        | [p] =>
          let old := dict st !! Member p in
          if (opt_is IsNX opts && bool_decide (is_Some old))
             || (opt_is IsXX opts && negb (bool_decide (is_Some old)))
          then r = Ret Nil ∧ dict set = dict st
          else r = Ret (Float (default 0%float old + Score p))
               ∧ dict set = <[Member p := (default 0%float old + Score p)%float]>
                              (dict st)
        | _ => r = Err "INCR option requires exactly one score-member pair"
               ∧ dict set = dict st
        end).
  { intros st Hst. destruct (Hput st Hst) as [Hw1 Hd1].
    destruct pairs as [|p [|q rest]].
    - eexists _, _, _, st. repeat split; assumption.
    - cbv zeta.
      destruct (opt_is IsNX opts && bool_decide (is_Some (dict st !! Member p))).
      { eexists _, _, _, st. repeat split; assumption. }
      destruct (opt_is IsXX opts && negb (bool_decide (is_Some (dict st !! Member p)))).
      { eexists _, _, _, st. repeat split; assumption. }
      destruct (Add_spec coins st rng (Member p)
                  (default 0 (dict st !! Member p) + Score p)%float Hst)
        as (set' & rng' & -> & Hwf' & Hd').
      cbn [obind orb]. destruct (Hput set' Hwf') as [Hw2 Hd2].
      eexists _, _, _, set'. repeat split; assumption.
    - eexists _, _, _, st. repeat split; assumption. }
  destruct (data s !! key) as [[v|set0]|] eqn:Hk; [by destruct (Hstr v)| |];
    rewrite HINCR; by apply Hbody.
Qed.

(** ZADD k INCR 2.5 a on the new store, and again. *)
Lemma ZAdd_INCR_witness :
  let opts := Some (zadd_options ["INCR"]) in
  store_wf NewMemoryStore
  ∧ ∃ s' rng' set,
      ZAdd no_promotion NewMemoryStore 0 "k" [mkScoreMember 2.5 "a"] opts
      = Done (Ret (Float 2.5), s', rng')
      ∧ store_wf s'
      ∧ data s' !! "k" = Some (VSortedSet set)
      ∧ dict set = {[ "a" := 2.5%float ]}.
Proof.
  intros opts. split; [apply NewMemoryStore_wf|].
  destruct (ZAdd_INCR no_promotion NewMemoryStore 0 "k" [mkScoreMember 2.5 "a"] opts)
    as (r & s' & rng' & set & HZ & Hwf & Hd & Hr).
  - apply NewMemoryStore_wf.
  - intros v. vm_compute. discriminate.
  - vm_compute. reflexivity.
  - exists s', rng', set. vm_compute in Hr. destruct Hr as [-> Hr].
    split; [exact HZ|]. split; [exact Hwf|]. split; [exact Hd|].
    etransitivity; [exact Hr|]. vm_compute. reflexivity.
Defined.

(** X10. ZADD touches the value of its key and nothing else: the deadlines
    stay as they were, its own included, the other keys keep their values,
    and every key that had a value gets the same answer from TTL as
    before. *)
Theorem ZAdd_keeps_deadlines (coins : nat → bool) (s : MemoryStore) (rng : nat)
    (key : string) (pairs : list ScoreMember) (opts : option Options)
    (r : result reply) (s' : MemoryStore) (rng' : nat) :
  ZAdd coins s rng key pairs opts = Done (r, s', rng') →
  expires s' = expires s
  ∧ (∀ k, k ≠ key → data s' !! k = data s !! k)
  ∧ (∀ now k, is_Some (data s !! k) → (TTL s' now k).1 = (TTL s now k).1).
Proof.
  intros HZ.
  assert (s' = s ∨ ∃ set, s' = {| data := <[key:=VSortedSet set]> (data s);
                                  expires := expires s |}) as Hs'.
  { revert HZ. unfold ZAdd.
    destruct (data s !! key) as [[v|set0]|]; [intros [= <- <- <-]; by left|..].
    all: destruct (opt_is IsINCR opts).
    all: repeat match goal with
           | |- context [match ?l with [] => _ | _ :: _ => _ end] => destruct l
           | |- context [if ?b then _ else _] => destruct b
           end.
    all: try (intros [= <- <- <-]; right; by eexists).
    all: match goal with
         | |- context [Add ?f ?st ?r ?m ?x] =>
           destruct (Add f st r m x) as [[set1 rng1]| |]; cbn [obind]; try done
         | |- context [ZAdd_loop ?f ?st ?r ?ps ?o ?c ?a] =>
           destruct (ZAdd_loop f st r ps o c a) as [[[[set1 rng1] c1] a1]| |];
             cbn [obind]; try done
         end.
    all: repeat match goal with |- context [if ?b then _ else _] => destruct b end.
    all: intros [= <- <- <-]; right; by eexists. }
  assert (expires s' = expires s) as He by (by destruct Hs' as [->|[set ->]]).
  assert (∀ k, k ≠ key → data s' !! k = data s !! k) as Hd.
  { intros k Hne. destruct Hs' as [->|[set ->]]; [done|].
    cbn [data]. by rewrite lookup_insert_ne. }
  split; [done|]. split; [done|]. intros now k [v Hv].
  assert (is_Some (data s' !! k)) as [v' Hv'].
  { destruct Hs' as [->|[set ->]]; [by eexists|]. cbn [data].
    destruct (decide (k = key)) as [->|Hne].
    - rewrite lookup_insert_eq. by eexists.
    - rewrite lookup_insert_ne by done. by eexists. }
  unfold TTL. rewrite Hv, Hv', He.
  destruct (expires s !! k) as [e|]; [by destruct (Until now e <=? 0)%Z|done].
Qed.

(** ZADD on a sorted set that has a deadline. *)
Lemma ZAdd_keeps_deadlines_witness :
  let s := {| data := {[ "k" := VSortedSet empty_set ]};
              expires := {[ "k" := (5 * Second)%Z ]} |} in
  ∃ r s' rng',
    ZAdd no_promotion s 0 "k" [mkScoreMember 1 "a"] None = Done (r, s', rng')
    ∧ expires s' = expires s
    ∧ (TTL s' Second "k").1 = 4%Z.
Proof.
  intros s.
  destruct (ZAdd no_promotion s 0 "k" [mkScoreMember 1 "a"] None)
    as [[[r s'] rng']| |] eqn:HZ;
    [|vm_compute in HZ; discriminate..].
  exists r, s', rng'. split; [reflexivity|].
  destruct (ZAdd_keeps_deadlines no_promotion s 0 "k" [mkScoreMember 1 "a"] None
              r s' rng' HZ) as (He & _ & HT).
  split; [exact He|]. rewrite HT by (by eexists). vm_compute. reflexivity.
Defined.

Lemma live_string_remove (s : MemoryStore) (now : Z) (key k : string) :
  live_string (remove s key) now k
  = if decide (k = key) then false else live_string s now k.
Proof.
  unfold live_string. rewrite isExpired_remove. unfold remove. cbn [data].
  destruct (decide (k = key)) as [->|Hne].
  - by rewrite lookup_delete_eq.
  - by rewrite lookup_delete_ne.
Qed.

Lemma size_filter_cons (P : string → Prop) `{!∀ x, Decision (P x)} (key : string)
    (X : gset string) :
  size (filter P ({[key]} ∪ X))
  = (if decide (P key) then 1 else 0) + size (filter P X ∖ {[key]}).
Proof.
  destruct (decide (P key)) as [HP|HP].
  - assert (filter P ({[key]} ∪ X) = {[key]} ∪ filter P X ∖ {[key]}) as ->.
    { apply set_eq. intros k. set_unfold.
      destruct (decide (k = key)) as [->|]; naive_solver. }
    rewrite size_union by set_solver. by rewrite size_singleton.
  - assert (filter P ({[key]} ∪ X) = filter P X ∖ {[key]}) as ->; [|done].
    apply set_eq. intros k. set_unfold.
    destruct (decide (k = key)) as [->|]; naive_solver.
Qed.

(** The loop of [DelCommand.Execute] from any count. *)
Lemma DelCommand_loop_spec (now : Z) (keys : list string) :
  ∀ (s : MemoryStore) (deleted : Z),
    let n := (DelCommand_loop s now keys deleted).1 in
    let s' := (DelCommand_loop s now keys deleted).2 in
    n = (deleted
         + Z.of_nat (size (filter (λ k, live_string s now k = true)
                                  (list_to_set keys : gset string))))%Z
    ∧ ∀ k, if bool_decide (k ∈ keys) && (isExpired s now k || live_string s now k)
           then data s' !! k = None ∧ expires s' !! k = None
           else data s' !! k = data s !! k ∧ expires s' !! k = expires s !! k.
Proof.
  induction keys as [|key rest IH]; intros s deleted n s'.
  { unfold n, s'. cbn [DelCommand_loop fst snd list_to_set].
    assert (filter (λ k, live_string s now k = true) (∅ : gset string) = ∅) as ->
      by set_solver.
    rewrite size_empty. split; [lia|].
    intros k. rewrite bool_decide_eq_false_2 by set_solver. done. }
  (* one turn of the loop: the store [s1] it leaves and what it counts *)
  assert (∃ s1 c,
    DelCommand_loop s now (key :: rest) deleted
    = DelCommand_loop s1 now rest (deleted + (if c : bool then 1 else 0))
    ∧ c = live_string s now key
    ∧ s1 = (if isExpired s now key || live_string s now key
            then remove s key else s)) as (s1 & c & Hstep & Hc & Hs1).
  { cbn [DelCommand_loop]. unfold Get, live_string, Del.
    destruct (isExpired s now key) eqn:Hx; cbn [negb andb orb].
    - exists (remove s key), false. by rewrite Z.add_0_r.
    - destruct (data s !! key) as [[v|set]|] eqn:Hd.
      + exists (remove s key), true. done.
      + exists s, false. by rewrite Z.add_0_r.
      + exists s, false. by rewrite Z.add_0_r. }
  unfold n, s'. rewrite Hstep.
  destruct (IH s1 (deleted + (if c then 1 else 0))%Z) as [Hn Hk].
  assert (Hlive : ∀ k, live_string s1 now k
                       = if decide (k = key) then false else live_string s now k).
  { intros k. rewrite Hs1.
    destruct (isExpired s now key || live_string s now key) eqn:Hg.
    - apply live_string_remove.
    - apply orb_false_iff in Hg as [_ Hg].
      destruct (decide (k = key)) as [->|]; done. }
  assert (Hexp : ∀ k, isExpired s1 now k || live_string s1 now k
                      = if decide (k = key) then false
                        else isExpired s now k || live_string s now k).
  { intros k. rewrite Hlive, Hs1.
    destruct (isExpired s now key || live_string s now key) eqn:Hg.
    - rewrite isExpired_remove. by destruct (decide (k = key)).
    - destruct (decide (k = key)) as [->|]; [|done].
      apply orb_false_iff in Hg as [-> _]. done. }
  split.
  - rewrite Hn. cbn [list_to_set].
    rewrite (size_filter_cons (λ k, live_string s now k = true)).
    assert (filter (λ k, live_string s1 now k = true) (list_to_set rest : gset string)
            = filter (λ k, live_string s now k = true) (list_to_set rest) ∖ {[key]})
      as ->.
    { apply set_eq. intros k. rewrite elem_of_difference, !elem_of_filter.
      rewrite Hlive, elem_of_singleton.
      destruct (decide (k = key)); naive_solver. }
    rewrite Hc. destruct (live_string s now key).
    + rewrite decide_True by done. lia.
    + rewrite decide_False by done. lia.
  - intros k. specialize (Hk k). rewrite Hexp in Hk.
    assert (∀ k, k ≠ key → data s1 !! k = data s !! k
                           ∧ expires s1 !! k = expires s !! k) as Hfr.
    { intros k' Hne. rewrite Hs1.
      destruct (isExpired s now key || live_string s now key); [|done].
      unfold remove. cbn [data expires]. by rewrite !lookup_delete_ne. }
    destruct (decide (k = key)) as [->|Hne].
    + rewrite andb_false_r in Hk. destruct Hk as [Hk1 Hk2].
      rewrite bool_decide_eq_true_2 by set_solver. cbn [andb].
      rewrite Hk1, Hk2, Hs1.
      destruct (isExpired s now key || live_string s now key); [|done].
      unfold remove. cbn [data expires]. by rewrite !lookup_delete_eq.
    + destruct (Hfr k Hne) as [Hf1 Hf2].
      assert (bool_decide (k ∈ key :: rest) = bool_decide (k ∈ rest)) as ->.
      { apply bool_decide_ext. set_solver. }
      destruct (bool_decide (k ∈ rest)
                && (isExpired s now k || live_string s now k)); [done|].
      by rewrite <- Hf1, <- Hf2.
Qed.

(** X11. DEL with a list of keys: each listed key that holds a string whose
    deadline is not past is removed and counted once, each listed key whose
    deadline is past is removed and not counted, and every other key, a
    listed key that holds a sorted set among them, stays as it is.  The
    result is the number of listed keys that held a live string. *)
Theorem DelCommand_effect (coins : nat → bool) (re : string → string → option bool)
    (s : MemoryStore) (rng : nat) (now : Z) (keys : list string) :
  ∃ s',
    Execute coins re (DelCommand keys) s rng now
    = Done (Ret (Int (Z.of_nat (size (filter (λ k, live_string s now k = true)
                                             (list_to_set keys : gset string))))),
            s', rng)
    ∧ ∀ k, if bool_decide (k ∈ keys) && (isExpired s now k || live_string s now k)
           then data s' !! k = None ∧ expires s' !! k = None
           else data s' !! k = data s !! k ∧ expires s' !! k = expires s !! k.
Proof.
  destruct (DelCommand_loop_spec now keys s 0) as [Hn Hk].
  exists (DelCommand_loop s now keys 0).2. split; [|exact Hk].
  cbn [Execute]. destruct (DelCommand_loop s now keys 0) as [n s'].
  cbn [fst snd] in Hn. by rewrite Hn, Z.add_0_l.
Qed.

(** * The skip list: what it holds *)

Lemma item_pair_at (h : list skiplistNode) (q : ptr) :
  q < length h → item h q = Some (pair_at h q).
Proof.
  intros Hq. unfold item, pair_at.
  destruct (lookup_lt_is_Some_2 h q Hq) as [n ->]. done.
Qed.

Lemma contents_ext (h h' : list skiplistNode) (ord : list ptr) :
  (∀ q, q ∈ ord → q < length h) → (∀ q, q ∈ ord → q < length h') →
  (∀ q, q ∈ ord → item h' q = item h q) →
  contents h' ord = contents h ord.
Proof.
  intros Hv Hv' Hit. unfold contents. apply map_ext_in. intros q Hq%list_elem_of_In.
  specialize (Hit q Hq). rewrite !item_pair_at in Hit by auto. by simplify_eq.
Qed.

Lemma contents_app (h : list skiplistNode) (l1 l2 : list ptr) :
  contents h (l1 ++ l2) = contents h l1 ++ contents h l2.
Proof. unfold contents. apply map_app. Qed.

Lemma chain_valid (h : list skiplistNode) (i : nat) (l : list ptr) :
  ∀ p, chain h i p l → ∀ q, q ∈ p :: l → q < length h.
Proof.
  induction l as [|x l IH]; intros p Hc q Hq.
  - apply list_elem_of_singleton in Hq as ->.
    destruct (chain_node _ _ _ _ Hc) as (n & Hn & _). by eapply lookup_lt_Some.
  - apply elem_of_cons in Hq as [->|Hq].
    + destruct (chain_node _ _ _ _ Hc) as (n & Hn & _). by eapply lookup_lt_Some.
    + destruct Hc as [_ Hc]. by eapply IH.
Qed.

(** The loop of [getRange] that collects nodes, on a chain. *)
Lemma take_chain_spec (h : list skiplistNode) (l : list ptr) :
  ∀ (p : ptr) (n : nat),
    chain h 0 p l →
    ∃ ns, take_chain n h (head l) = Done ns
          ∧ map node_pair ns = contents h (take n l).
Proof.
  induction l as [|q l IH]; intros p n Hc.
  { exists []. destruct n; done. }
  destruct n as [|n]; [by exists []|].
  destruct Hc as [Hp Hc]. cbn [head take_chain].
  pose proof (chain_head _ _ _ _ Hc) as Hq.
  destruct (fwd_Some_node _ _ _ _ Hq) as (nq & Hnq & Hf).
  unfold deref at 1, index at 1 2. rewrite Hnq. cbn [obind]. rewrite Hf. cbn [obind].
  destruct (IH q n Hc) as (ns & -> & Hns). cbn [obind].
  exists (nq :: ns). split; [done|].
  cbn [take map contents]. unfold contents in Hns. rewrite Hns.
  f_equal. unfold pair_at. by rewrite Hnq.
Qed.

(** The loop of [getRange] that skips nodes, on a chain. *)
Lemma skip_chain_spec (h : list skiplistNode) (l : list ptr) :
  ∀ (p : ptr) (n : nat),
    chain h 0 p l →
    skip_chain n h (head l) = Done (head (drop n l))
    ∧ chain h 0 (lastd p (take n l)) (drop n l).
Proof.
  induction l as [|q l IH]; intros p n Hc.
  { destruct n; by rewrite ?lastd_nil. }
  destruct n as [|n]; [by rewrite lastd_nil|].
  destruct Hc as [Hp Hc]. cbn [head skip_chain take drop].
  pose proof (chain_head _ _ _ _ Hc) as Hq.
  destruct (fwd_Some_node _ _ _ _ Hq) as (nq & Hnq & Hf).
  unfold deref at 1, index at 1 2. rewrite Hnq. cbn [obind]. rewrite Hf. cbn [obind].
  rewrite lastd_cons. by apply IH.
Qed.

Lemma holds_level0 (l : skiplist) (xs : list (string * float)) :
  holds l xs →
  level0 l = Done (map (λ x, (x.2, x.1)) xs) ∧ sl_length l = Z.of_nat (length xs).
Proof.
  intros (ord & Hwf & Hlen & <-).
  pose proof (wf_level0_chain l [] ord Hwf) as Hc. rewrite lastd_nil in Hc.
  pose proof (wf_length _ _ Hwf) as Hlt.
  split; [|by unfold contents; rewrite length_map].
  unfold level0. rewrite (wf_head _ _ Hwf).
  rewrite (deref_index _ _ _ _ _ (chain_head _ _ _ _ Hc)).
  destruct (take_chain_spec (nodes l) ord 0 (length (nodes l)) Hc) as (ns & -> & Hns).
  cbn [obind]. f_equal. rewrite take_ge in Hns by lia.
  rewrite <- Hns, map_map. done.
Qed.

Lemma newSkiplist_holds : holds newSkiplist [].
Proof. exists []. split; [apply newSkiplist_wf|done]. Qed.


(** ** The order of the index: scores, then members *)

Lemma SFleb_trans (a b c : spec_float) :
  SFleb a b = true → SFleb b c = true → SFleb a c = true.
Proof.
  unfold SFleb.
  destruct a as [sa|sa| |sa ma ea], b as [sb|sb| |sb mb eb], c as [sc|sc| |sc mc ec];
    try destruct sa; try destruct sb; try destruct sc; simpl; try done.
  all: change (Pos.compare_cont Eq) with Pos.compare.
  all: destruct (Z.compare_spec ea eb), (Z.compare_spec eb ec), (Z.compare_spec ea ec);
    simpl; try done; try lia.
  all: destruct (Pos.compare_spec ma mb), (Pos.compare_spec mb mc),
         (Pos.compare_spec ma mc); simpl; try done; try lia.
Qed.

Lemma SFltb_leb (a b : spec_float) :
  a ≠ S754_nan → b ≠ S754_nan → SFltb a b = negb (SFleb b a).
Proof.
  unfold SFltb, SFleb.
  destruct a as [sa|sa| |sa ma ea], b as [sb|sb| |sb mb eb];
    try destruct sa; try destruct sb; simpl; try done.
  all: change (Pos.compare_cont Eq) with Pos.compare.
  all: intros _ _; rewrite (Z.compare_antisym ea eb), (Pos.compare_antisym ma mb).
  all: destruct (ea ?= eb)%Z; simpl; try done.
  all: by destruct (ma ?= mb)%positive.
Qed.

Lemma SFeqb_leb (a b : spec_float) : SFeqb a b = SFleb a b && SFleb b a.
Proof.
  unfold SFeqb, SFleb.
  destruct a as [sa|sa| |sa ma ea], b as [sb|sb| |sb mb eb];
    try destruct sa; try destruct sb; simpl; try done.
  all: change (Pos.compare_cont Eq) with Pos.compare.
  all: rewrite (Z.compare_antisym ea eb), (Pos.compare_antisym ma mb).
  all: destruct (ea ?= eb)%Z; simpl; try done.
  all: by destruct (ma ?= mb)%positive.
Qed.

Lemma not_nan_spec (x : float) : (x =? x)%float = true ↔ Prim2SF x ≠ S754_nan.
Proof.
  rewrite FloatAxioms.eqb_spec. unfold SFeqb.
  destruct (Prim2SF x) as [sx|sx| |sx mx ex]; simpl.
  - done.
  - by destruct sx.
  - split; [done|]. by intros [].
  - rewrite Z.compare_refl, Pos.compare_cont_refl. by destruct sx.
Qed.

(** On scores that are not NaN, [<=?] is a total preorder and the other
    comparisons are read off it. *)
Lemma float_leb_trans (a b c : float) :
  (a <=? b)%float = true → (b <=? c)%float = true → (a <=? c)%float = true.
Proof. rewrite !FloatAxioms.leb_spec. apply SFleb_trans. Qed.

Lemma float_ltb_leb (a b : float) :
  (a =? a)%float = true → (b =? b)%float = true →
  (a <? b)%float = negb (b <=? a)%float.
Proof.
  rewrite !not_nan_spec, FloatAxioms.ltb_spec, FloatAxioms.leb_spec.
  apply SFltb_leb.
Qed.

Lemma float_eqb_leb (a b : float) :
  (a =? b)%float = (a <=? b)%float && (b <=? a)%float.
Proof. rewrite FloatAxioms.eqb_spec, !FloatAxioms.leb_spec. apply SFeqb_leb. Qed.

Lemma float_leb_total (a b : float) :
  (a =? a)%float = true → (b =? b)%float = true →
  (a <=? b)%float = true ∨ (b <=? a)%float = true.
Proof.
  intros Ha Hb. pose proof (float_ltb_leb b a Hb Ha) as H.
  destruct (a <=? b)%float eqn:Hab; [by left|right].
  simpl in H. rewrite FloatAxioms.ltb_spec in H. rewrite FloatAxioms.leb_spec.
  unfold SFltb, SFleb in *. by destruct (SFcompare _ _) as [[]|].
Qed.

Lemma string_compare_Lt_trans (a : string) :
  ∀ b c, String.compare a b = Lt → String.compare b c = Lt → String.compare a c = Lt.
Proof.
  induction a as [|x a IH]; intros [|y b] [|z c]; simpl; try done.
  unfold Ascii.compare.
  destruct (N.compare_spec (N_of_ascii x) (N_of_ascii y)) as [Hxy|Hxy|Hxy];
    destruct (N.compare_spec (N_of_ascii y) (N_of_ascii z)) as [Hyz|Hyz|Hyz];
    destruct (N.compare_spec (N_of_ascii x) (N_of_ascii z)) as [Hxz|Hxz|Hxz];
    try done; try lia.
  apply IH.
Qed.

Lemma string_ltb_leb (a b : string) : String.ltb a b = negb (String.leb b a).
Proof.
  unfold String.ltb, String.leb. rewrite (String.compare_antisym b a).
  by destruct (String.compare a b).
Qed.

Lemma string_leb_trans (a b c : string) :
  String.leb a b = true → String.leb b c = true → String.leb a c = true.
Proof.
  unfold String.leb.
  destruct (String.compare a b) eqn:Hab; [|
    |done].
  - apply String.compare_eq_iff in Hab as ->. done.
  - destruct (String.compare b c) eqn:Hbc; [| |done].
    + apply String.compare_eq_iff in Hbc as <-. by rewrite Hab.
    + by rewrite (string_compare_Lt_trans a b c Hab Hbc).
Qed.

Lemma precedes_iff (x y : string * float) :
  (x.2 =? x.2)%float = true → (y.2 =? y.2)%float = true →
  precedes x y = true
  ↔ (x.2 <=? y.2)%float = true
    ∧ ((y.2 <=? x.2)%float = true → String.leb x.1 y.1 = true).
Proof.
  intros Hx Hy. unfold precedes, below.
  rewrite (float_ltb_leb _ _ Hy Hx), float_eqb_leb, string_ltb_leb.
  destruct (x.2 <=? y.2)%float, (y.2 <=? x.2)%float, (String.leb x.1 y.1);
    simpl; naive_solver.
Qed.

Lemma precedes_trans (x y z : string * float) :
  (x.2 =? x.2)%float = true → (y.2 =? y.2)%float = true → (z.2 =? z.2)%float = true →
  precedes x y = true → precedes y z = true → precedes x z = true.
Proof.
  intros Hx Hy Hz. rewrite !precedes_iff by done.
  intros [Hxy Hm1] [Hyz Hm2]. split; [by eapply float_leb_trans|].
  intros Hzx. eapply string_leb_trans.
  - apply Hm1. by eapply float_leb_trans.
  - apply Hm2. by eapply float_leb_trans.
Qed.

(** A pair that comes before another is not preceded by it. *)
Lemma below_precedes (s : float) (m : string) (x : string * float) :
  (x.2 =? x.2)%float = true → (s =? s)%float = true →
  below s m x = true → precedes x (m, s) = true.
Proof.
  intros Hx Hs. rewrite precedes_iff by done. unfold below. cbn [fst snd].
  rewrite (float_ltb_leb _ _ Hx Hs), float_eqb_leb, string_ltb_leb.
  destruct (float_leb_total _ _ Hx Hs) as [H1|H1];
    destruct (String.leb_total x.1 m) as [H2|H2]; rewrite ?H1, ?H2;
    destruct (s <=? x.2)%float, (x.2 <=? s)%float, (String.leb m x.1),
      (String.leb x.1 m); simpl; naive_solver.
Qed.

Lemma no_nan_Forall (xs : list (string * float)) :
  no_nan xs = true ↔ Forall (λ x, (x.2 =? x.2)%float = true) xs.
Proof.
  unfold no_nan. rewrite forallb_forall, Forall_forall.
  split; intros H x Hx; apply H; by apply list_elem_of_In.
Qed.

(** Without NaN a list sorted pair by pair is sorted as a whole. *)
Lemma sorted_StronglySorted (xs : list (string * float)) :
  no_nan xs = true →
  sorted xs = true ↔ StronglySorted (λ x y, precedes x y = true) xs.
Proof.
  rewrite no_nan_Forall. induction xs as [|x xs IH]; intros Hnn.
  { split; [constructor|done]. }
  apply Forall_cons in Hnn as [Hx Hnn]. specialize (IH Hnn).
  cbn [sorted]. rewrite andb_true_iff, StronglySorted_cons, IH.
  split; intros [H1 H2]; (split; [|done]).
  - destruct xs as [|y ys]; [constructor|].
    apply StronglySorted_cons in H2 as [Hy _]. apply Forall_cons in Hnn as [Hny Hnn].
    constructor; [done|].
    rewrite Forall_forall in Hy, Hnn |- *. intros z Hz.
    apply (precedes_trans x y z); auto.
  - destruct xs as [|y ys]; [done|]. by apply Forall_cons in H1 as [? _].
Qed.

(** A pair goes between the pairs before it and the pairs that are not. *)
Lemma sorted_insert (XA XB : list (string * float)) (s : float) (m : string) :
  (s =? s)%float = true → no_nan (XA ++ XB) = true →
  (XA = [] ∨ ∃ a, last XA = Some a ∧ below s m a = true) →
  (∀ y, head XB = Some y → below s m y = false) →
  sorted (XA ++ XB) = true →
  sorted (XA ++ (m, s) :: XB) = true ∧ no_nan (XA ++ (m, s) :: XB) = true.
Proof.
  intros Hs Hnn HA HB Hsrt.
  assert (no_nan (XA ++ (m, s) :: XB) = true) as Hnn'.
  { rewrite no_nan_Forall in Hnn |- *. apply Forall_app in Hnn as [? ?].
    apply Forall_app. split; [done|]. by constructor. }
  split; [|done].
  rewrite sorted_StronglySorted in Hsrt |- * by done.
  rewrite no_nan_Forall in Hnn. apply Forall_app in Hnn as [HnA HnB].
  rewrite Forall_forall in HnA, HnB.
  apply StronglySorted_app in Hsrt as (Hab & HsA & HsB).
  assert (∀ a, a ∈ XA → precedes a (m, s) = true) as Hbefore.
  { intros a Ha. destruct HA as [->|(z & Hz & Hbz)]; [by apply elem_of_nil in Ha|].
    assert (z ∈ XA) as Hzin.
    { apply last_Some in Hz as [l' ->]. set_solver. }
    assert (precedes z (m, s) = true) as Hzp by (apply below_precedes; auto).
    apply last_Some in Hz as [l' ->].
    apply elem_of_app in Ha as [Ha|Ha%list_elem_of_singleton]; [|by subst].
    apply (precedes_trans a z (m, s)); auto.
    - apply HnA. set_solver.
    - apply (StronglySorted_app_1_elem_of (λ x y, precedes x y = true) l' [z]);
        [done|done|set_solver]. }
  assert (∀ b, b ∈ XB → precedes (m, s) b = true) as Hafter.
  { intros b Hb. destruct XB as [|y ys]; [by apply elem_of_nil in Hb|].
    assert (precedes (m, s) y = true) as Hy.
    { unfold precedes. cbn [fst snd]. by rewrite (HB y eq_refl). }
    apply elem_of_cons in Hb as [->|Hb]; [done|].
    apply StronglySorted_cons in HsB as [Hys _]. rewrite Forall_forall in Hys.
    apply (precedes_trans (m, s) y b); auto; apply HnB; set_solver. }
  apply StronglySorted_app. split; [|split; [done|]].
  - intros a Ha b Hb. apply elem_of_cons in Hb as [->|Hb]; [by apply Hbefore|].
    by apply Hab.
  - apply StronglySorted_cons. split; [|done]. by apply Forall_forall.
Qed.

Lemma sorted_remove (XA XB : list (string * float)) (x : string * float) :
  no_nan (XA ++ x :: XB) = true → sorted (XA ++ x :: XB) = true →
  sorted (XA ++ XB) = true ∧ no_nan (XA ++ XB) = true.
Proof.
  intros Hnn Hsrt.
  assert (no_nan (XA ++ XB) = true) as Hnn'.
  { rewrite no_nan_Forall in Hnn |- *. apply Forall_app in Hnn as [? [? ?]%Forall_cons].
    by apply Forall_app. }
  split; [|done].
  rewrite sorted_StronglySorted in Hsrt |- * by done.
  apply StronglySorted_app in Hsrt as (Hab & HsA & [Hx HsB]%StronglySorted_cons).
  apply StronglySorted_app. split; [|done].
  intros a Ha b Hb. apply Hab; [done|]. set_solver.
Qed.

Lemma sorted_replace (XA XB : list (string * float)) (x : string * float)
    (s : float) (m : string) :
  (s =? s)%float = true → no_nan (XA ++ x :: XB) = true →
  (XA = [] ∨ ∃ a, last XA = Some a ∧ below s m a = true) →
  below s m x = false →
  sorted (XA ++ x :: XB) = true →
  sorted (XA ++ (m, s) :: XB) = true ∧ no_nan (XA ++ (m, s) :: XB) = true.
Proof.
  intros Hs Hnn HA Hx Hsrt.
  destruct (sorted_remove XA XB x Hnn Hsrt) as [Hsrt' Hnn'].
  apply sorted_insert; try done.
  intros y Hy. destruct XB as [|y' ys]; simplify_eq/=.
  rewrite sorted_StronglySorted in Hsrt by done.
  apply StronglySorted_app in Hsrt as (_ & _ & [Hxy _]%StronglySorted_cons).
  apply Forall_cons in Hxy as [Hxy _].
  rewrite no_nan_Forall in Hnn.
  apply Forall_app in Hnn as [_ [Hnx [Hny _]%Forall_cons]%Forall_cons].
  assert (precedes (m, s) y = true) as Hp.
  { apply (precedes_trans (m, s) x y); try done.
    unfold precedes. cbn [fst snd]. by rewrite Hx. }
  unfold precedes in Hp. cbn [fst snd] in Hp. by destruct (below s m y).
Qed.

Ltac obind_inv H :=
  repeat match type of H with
         | context [obind ?x _] =>
           let E := fresh "E" in
           destruct x as [?| |] eqn:E; cbn [obind] in H; try discriminate H
         | (let '(_, _) := ?p in _) = _ => destruct p
         | context [if ?b then _ else _] => destruct b
         | context [match ?o with Some _ => _ | None => _ end] => destruct o
         end.

Lemma insert_new_length (coins : nat → bool) (l : skiplist) (rng : nat)
    (update : list (option ptr)) (s : float) (m : string) b l' rng' :
  insert_new coins l rng update s m = Done (b, l', rng') →
  sl_length l' = (sl_length l + 1)%Z.
Proof.
  unfold insert_new. intros H.
  destruct (randomLevel coins rng) as [lvl rng1].
  obind_inv H; by simplify_eq.
Qed.

Lemma sl_delete_length (l : skiplist) (s : float) (m : string) b l' :
  sl_delete l s m = Done (b, l') →
  sl_length l' = (sl_length l - (if b then 1 else 0))%Z.
Proof.
  unfold sl_delete. intros H.
  obind_inv H; simplify_eq; simpl; lia.
Qed.

Lemma on_node_below (h : list skiplistNode) (s : float) (m : string) (q : ptr) :
  q < length h → on_node h (less s m) q = below s m (pair_at h q).
Proof.
  intros Hq. unfold on_node, pair_at.
  destruct (lookup_lt_is_Some_2 h q Hq) as [n ->]. done.
Qed.

Lemma contents_last (h : list skiplistNode) (A : list ptr) :
  A ≠ [] → last (contents h A) = Some (pair_at h (lastd 0 A)).
Proof.
  induction A as [|a A _] using rev_ind; [done|]. intros _.
  rewrite contents_app, lastd_snoc. cbn [contents map]. by rewrite last_snoc.
Qed.

Lemma contents_member (h : list skiplistNode) (ord : list ptr) (q : ptr) :
  q ∈ ord → pair_at h q ∈ contents h ord.
Proof. intros Hq. unfold contents. by apply list_elem_of_In, in_map, list_elem_of_In. Qed.

Lemma filter_other_insert (m : string) (s : float) (XA XB : list (string * float)) :
  filter (λ x, x.1 ≠ m) (XA ++ (m, s) :: XB) = filter (λ x, x.1 ≠ m) (XA ++ XB).
Proof. rewrite !filter_app. f_equal. by rewrite filter_cons_False by (by intros ?). Qed.

Lemma filter_other_remove (m : string) (x : string * float)
    (XA XB : list (string * float)) :
  x.1 = m →
  filter (λ x, x.1 ≠ m) (XA ++ x :: XB) = filter (λ x, x.1 ≠ m) (XA ++ XB).
Proof.
  intros Hx. rewrite !filter_app. f_equal. by rewrite filter_cons_False by (by intros ?).
Qed.

(** What the search of [insert] and [delete] has found, in terms of the
    pairs: the walk stopped after a pair that comes before (s, m), in front
    of a pair that does not. *)
Lemma search_position (l : skiplist) (A B : list ptr) (update : list (option ptr))
    (s : float) (m : string) :
  wf l (A ++ B) →
  (A = [] ∨ (A ≠ [] ∧ on_node (nodes l) (less s m) (lastd 0 A) = true)) →
  (∀ j, j < sl_level l → settled (nodes l) (less s m) A B update j) →
  (contents (nodes l) A = []
   ∨ ∃ a, last (contents (nodes l) A) = Some a ∧ below s m a = true)
  ∧ (∀ y, head (contents (nodes l) B) = Some y → below s m y = false).
Proof.
  intros Hwf Hmove Hset. split.
  - destruct Hmove as [->|[HA Hl]]; [by left|right].
    exists (pair_at (nodes l) (lastd 0 A)). split; [by apply contents_last|].
    rewrite <- on_node_below; [done|].
    destruct (lastd_elem 0 A) as [H0|Hin].
    + rewrite H0. by eapply wf_head_node.
    + apply (wf_valid _ _ Hwf). set_solver.
  - intros y Hy. destruct B as [|q B]; [done|]. cbn [contents map head] in Hy.
    simplify_eq. 
    destruct (Hset 0) as [_ Hq]; [pose proof (wf_level _ _ Hwf); lia|].
    rewrite at_level_0 in Hq.
    2:{ intros q' Hq'. apply (wf_height _ _ Hwf). set_solver. }
    rewrite <- on_node_below; [by apply Hq|].
    apply (wf_valid _ _ Hwf). set_solver.
Qed.

Lemma insert_post_new (s : float) (m : string) (XA XB : list (string * float)) :
  (XA = [] ∨ ∃ a, last XA = Some a ∧ below s m a = true) →
  (∀ y, head XB = Some y → below s m y = false) →
  insert_post s m (XA ++ XB) (XA ++ (m, s) :: XB) true.
Proof.
  intros HA HB. split; [set_solver|]. split; [apply filter_other_insert|].
  split; [intros _; split; [done|by exists XA, XB]|].
  intros Hs Hnn Hsrt. by apply sorted_insert.
Qed.

Lemma insert_post_after (s : float) (m : string) (xs xs1 xs' : list (string * float))
    (b : bool) :
  m ∈ xs.*1 →
  filter (λ x, x.1 ≠ m) xs1 = filter (λ x, x.1 ≠ m) xs →
  ((s =? s)%float = true → no_nan xs = true → sorted xs = true →
   sorted xs1 = true ∧ no_nan xs1 = true) →
  insert_post s m xs1 xs' b → insert_post s m xs xs' b.
Proof.
  intros Hm Hf Hsrt (Hin & Hf' & _ & Hsrt'). split; [done|].
  split; [by rewrite Hf'|]. split; [done|].
  intros Hs Hnn Hx. destruct (Hsrt Hs Hnn Hx). by apply Hsrt'.
Qed.

Lemma contents_after_new (l l' : skiplist) (A B : list ptr) (s : float) (m : string) :
  wf l (A ++ B) → length (nodes l') = S (length (nodes l)) →
  (∀ q, q < length (nodes l) → item (nodes l') q = item (nodes l) q) →
  item (nodes l') (length (nodes l)) = Some (m, s) →
  contents (nodes l') (A ++ length (nodes l) :: B)
  = contents (nodes l) A ++ (m, s) :: contents (nodes l) B.
Proof.
  intros Hwf Hlen Hit Hnew.
  assert (∀ X, X ⊆ A ++ B → contents (nodes l') X = contents (nodes l) X) as Hsame.
  { intros X HX. apply contents_ext.
    - intros q Hq. apply (wf_valid _ _ Hwf). by apply HX.
    - intros q Hq. pose proof (wf_valid _ _ Hwf q (HX q Hq)). lia.
    - intros q Hq. apply Hit, (wf_valid _ _ Hwf). by apply HX. }
  rewrite contents_app. cbn [contents map]. fold (contents (nodes l') B).
  fold (contents (nodes l') A).
  rewrite !Hsame by set_solver. f_equal. f_equal.
  rewrite item_pair_at in Hnew by lia. by simplify_eq.
Qed.

Lemma contents_after_write (h h1 : list skiplistNode) (A B : list ptr) (cur : ptr)
    (m : string) (s : float) :
  NoDup (A ++ cur :: B) → (∀ q, q ∈ A ++ cur :: B → q < length h) →
  length h1 = length h →
  (∀ q, item h1 q = if decide (q = cur) then Some (m, s) else item h q) →
  contents h1 (A ++ cur :: B) = contents h A ++ (m, s) :: contents h B.
Proof.
  intros Hnd Hv Hlen Hit.
  apply NoDup_app in Hnd as (_ & HA & [Hcur _]%NoDup_cons).
  assert (∀ X, X ⊆ A ++ B → contents h1 X = contents h X) as Hsame.
  { intros X HX. apply contents_ext.
    - intros q Hq. apply Hv. set_solver.
    - intros q Hq. rewrite Hlen. apply Hv. set_solver.
    - intros q Hq. rewrite Hit. rewrite decide_False; [done|].
      intros ->. apply HX, elem_of_app in Hq as [Hq|Hq]; [|done].
      by apply (HA cur Hq), elem_of_cons; left. }
  rewrite contents_app. cbn [contents map]. fold (contents h1 B).
  fold (contents h1 A).
  rewrite !Hsame by set_solver. f_equal. f_equal.
  specialize (Hit cur). rewrite decide_True in Hit by done.
  rewrite item_pair_at in Hit by (rewrite Hlen; apply Hv; set_solver).
  by simplify_eq.
Qed.

(** [insert] with everything it guarantees, by induction on the nesting of
    its calls. *)
Lemma insert_rec_holds (coins : nat → bool) (depth : nat) :
  ∀ (l : skiplist) (ord : list ptr) (rng : nat) (s : float) (m : string),
    wf l ord → sl_length l = Z.of_nat (length ord) →
    todo (nodes l) ord s m < depth →
    ∃ b l' rng' ord',
      insert_rec coins depth l rng s m = Done (b, l', rng')
      ∧ wf l' ord' ∧ sl_length l' = Z.of_nat (length ord')
      ∧ insert_post s m (contents (nodes l) ord) (contents (nodes l') ord') b.
Proof.
  induction depth as [|d IH]; intros l ord rng s m Hwf Hcount Hd; [lia|].
  pose proof (wf_length _ _ Hwf) as Hlen.
  pose proof Hwf as [Hhd Hhh Hnd Hval Hhe Hlv Hch].
  destruct l as [h hd tl len L]. simpl in *. subst hd.
  destruct (search_spec h (less s m) ord L Hnd Hch Hlen ltac:(lia) L [] ord
              (replicate maxLevel None))
    as (A & B & update & Hs & Hord & Hupd & Hset & _ & Hmove);
    [done|done|done|by rewrite length_replicate|intros j ?; lia|].
  rewrite lastd_nil in Hs. simpl (replicate _ _) in Hs. subst ord.
  destruct (search_position _ A B update s m Hwf Hmove Hset) as [HA HB].
  cbn [nodes] in HA, HB.
  pose proof (wf_level0_chain _ _ _ Hwf) as Hc0. simpl in Hc0.
  pose proof (chain_head _ _ _ _ Hc0) as Hf0.
  cbn [insert_rec]. cbv zeta. cbn [nodes sl_level sl_head sl_tail sl_length].
  rewrite Hs. cbn [obind].
  rewrite (deref_index _ _ _ _ _ Hf0).
  (* a new node *)
  assert (∀ l' r,
            insert_new coins (mkSkiplist h 0 tl len L) rng update s m = Done (true, l', r) →
            wf l' (A ++ length h :: B) → length (nodes l') = S (length h) →
            (∀ q, q < length h → item (nodes l') q = item h q) →
            item (nodes l') (length h) = Some (m, s) →
            ∃ b l'' rng' ord',
              Done (true, l', r) = Done (b, l'', rng')
              ∧ wf l'' ord' ∧ sl_length l'' = Z.of_nat (length ord')
              ∧ insert_post s m (contents h (A ++ B)) (contents (nodes l'') ord') b)
    as Hnew.
  { intros l' r Hn Hwf' Hlen' Hit' Hit''. exists true, l', r, (A ++ length h :: B).
    split; [done|]. split; [done|]. split.
    - rewrite (insert_new_length _ _ _ _ _ _ _ _ _ Hn). cbn [sl_length].
      rewrite Hcount, !length_app. cbn [length]. lia.
    - pose proof (contents_after_new (mkSkiplist h 0 tl len L) l' A B s m
                    Hwf Hlen' Hit' Hit'') as Hc.
      cbn [nodes] in Hc. rewrite Hc, contents_app. by apply insert_post_new. }
  destruct B as [|cur B']; cbn [head obind].
  { destruct (insert_new_spec coins (less s m) _ A [] update rng s m Hwf Hupd Hset)
      as (l' & Hn & Hwf' & Hlen' & Hit' & Hit'').
    rewrite Hn. by eapply Hnew. }
  assert (cur ∈ A ++ cur :: B') as Hcur by set_solver.
  destruct (lookup_lt_is_Some_2 h cur) as [ncur Hncur];
    [pose proof (Hval cur Hcur); lia|].
  unfold deref at 1, index at 1. rewrite Hncur. cbn [obind].
  destruct (String.eqb (member ncur) m) eqn:Hm.
  2:{ destruct (insert_new_spec coins (less s m) _ A (cur :: B') update rng s m
                  Hwf Hupd Hset) as (l' & Hn & Hwf' & Hlen' & Hit' & Hit'').
      rewrite Hn. by eapply Hnew. }
  clear Hnew.
  apply String.eqb_eq in Hm.
  (* the member is there: its pair before and after the write *)
  assert (pair_at h cur = (m, score ncur)) as Hpcur.
  { unfold pair_at, node_pair. rewrite Hncur. by rewrite Hm. }
  assert (contents h (A ++ cur :: B')
          = contents h A ++ (m, score ncur) :: contents h B') as Hxs.
  { rewrite contents_app. cbn [contents map]. by rewrite Hpcur. }
  assert (below s m (m, score ncur) = false) as Hnb.
  { apply HB. cbn [contents map head]. by rewrite Hpcur. }
  destruct (write_score_spec h cur s ncur Hncur)
    as (h1 & Hw & Hlen1 & Hfw1 & Hhe1 & Hit1).
  rewrite Hw. cbn [obind].
  pose proof (wf_ext _ _ h1 tl len Hwf Hlen1 Hfw1 Hhe1) as Hwf1. simpl in Hwf1.
  rewrite Hm in Hit1.
  assert (contents h1 (A ++ cur :: B') = contents h A ++ (m, s) :: contents h B')
    as Hxs1.
  { apply contents_after_write; try done. intros q Hq. pose proof (Hval q Hq). lia. }
  assert (m ∈ (contents h (A ++ cur :: B')).*1) as Hmem.
  { rewrite Hxs. rewrite fmap_app. set_solver. }
  assert (insert_post s m (contents h (A ++ cur :: B'))
            (contents h1 (A ++ cur :: B')) false) as Hpost1.
  { rewrite Hxs, Hxs1. split; [set_solver|].
    split; [by rewrite filter_other_insert, (filter_other_remove m (m, score ncur))|].
    split; [by rewrite <- Hxs|].
    intros Hs' Hnn Hsrt. by apply (sorted_replace _ _ (m, score ncur)). }
  destruct (score ncur =? s)%float eqn:Heq.
  { exists false, (mkSkiplist h1 0 tl len L), rng, (A ++ cur :: B').
    split; [done|]. split; [done|]. split; [done|]. exact Hpost1. }
  assert (item h cur = Some (m, score ncur)) as Hitem.
  { unfold item. rewrite Hncur. simpl. by rewrite Hm. }
  destruct (todo_write h h1 (A ++ cur :: B') cur s (score ncur) m Hitem Hit1 Hcur)
    as [Hle Hlt].
  assert (on_node h1 (λ n, String.eqb (member n) m) cur = true) as Hcarry.
  { rewrite (on_node_item h1 (λ m' _, String.eqb m' m)), Hit1.
    rewrite decide_True by done. apply String.eqb_refl. }
  assert (same_score s (score ncur) = true →
          A = [] ∧ ∀ A2 B2, A ++ cur :: B' = A2 ++ B2 →
            (A2 = [] ∨ (A2 ≠ [] ∧ on_node h1 (less (score ncur) m) (lastd 0 A2) = true)) →
            B2 = cur :: B') as Hnan.
  { intros Hss. destruct (same_score_nan _ _ Hss Heq) as [Hold Hnew]. split.
    - destruct Hmove as [?|[_ Hmv]]; [done|].
      by rewrite on_node_less_nan in Hmv.
    - intros A2 B2 Hsplit [->|[_ Hmv]].
      + destruct Hmove as [->|[_ Hmv]]; [by simpl in Hsplit|].
        by rewrite on_node_less_nan in Hmv.
      + by rewrite on_node_less_nan in Hmv. }
  destruct (sl_delete_spec _ _ (score ncur) m Hwf1)
    as (A2 & B2 & b & l2 & Hord2 & Hmove2 & Hdel & Hcase).
  simpl in Hmove2, Hcase. rewrite Hdel. cbn [obind].
  pose proof (sl_delete_length _ _ _ _ _ Hdel) as Hlen2. cbn [sl_length] in Hlen2.
  (* the list the nested call starts from *)
  assert (∃ ord2,
            wf l2 ord2 ∧ todo (nodes l2) ord2 s m < d
            ∧ sl_length l2 = Z.of_nat (length ord2)
            ∧ (contents (nodes l2) ord2 = contents h1 (A ++ cur :: B')
               ∨ ∃ X Y x, x.1 = m ∧ contents h1 (A ++ cur :: B') = X ++ x :: Y
                          ∧ contents (nodes l2) ord2 = X ++ Y))
    as (ord2 & Hwf2 & Htodo2 & Hcount2 & Hxs2).
  { assert (b = false ∧ l2 = mkSkiplist h1 0 tl len L →
            ∃ ord2,
              wf l2 ord2 ∧ todo (nodes l2) ord2 s m < d
              ∧ sl_length l2 = Z.of_nat (length ord2)
              ∧ (contents (nodes l2) ord2 = contents h1 (A ++ cur :: B')
                 ∨ ∃ X Y x, x.1 = m ∧ contents h1 (A ++ cur :: B') = X ++ x :: Y
                            ∧ contents (nodes l2) ord2 = X ++ Y)) as Hkeep.
    { intros [-> ->]. destruct (same_score s (score ncur)) eqn:Hss.
      - destruct (Hnan eq_refl) as [-> HB2].
        specialize (HB2 A2 B2 Hord2 Hmove2). subst B2.
        rewrite Hcarry in Hcase. by destruct Hcase.
      - exists (A ++ cur :: B'). split; [done|]. split.
        + simpl. specialize (Hlt eq_refl). lia.
        + split; [done|by left]. }
    destruct B2 as [|c2 B2']; [by apply Hkeep|].
    destruct (on_node h1 (λ n, String.eqb (member n) m) c2) eqn:Hc2;
      [|by apply Hkeep].
    destruct Hcase as (-> & Hwf2 & Hlenn & Hit2).
    exists (A2 ++ B2'). split; [done|]. split; [|split].
    - rewrite (todo_ext h1) by (intros; apply Hit2).
      pose proof (todo_remove h1 A2 B2' c2 s m Hc2) as Hrm.
      rewrite <- Hord2 in Hrm. lia.
    - rewrite Hlen2, Hcount, Hord2, !length_app. cbn [length]. lia.
    - right. exists (contents h1 A2), (contents h1 B2'), (pair_at h1 c2).
      assert (c2 < length h1) as Hvc2.
      { rewrite Hlen1. pose proof (Hval c2) as H. rewrite Hord2 in H.
        specialize (H ltac:(set_solver)). lia. }
      split; [|split].
      + rewrite (on_node_item h1 (λ m' _, String.eqb m' m)) in Hc2.
        rewrite item_pair_at in Hc2 by done.
        destruct (pair_at h1 c2) as [m' x']. by apply String.eqb_eq in Hc2.
      + rewrite Hord2, contents_app. done.
      + rewrite <- contents_app. apply contents_ext.
        * intros q Hq. rewrite Hlen1. pose proof (Hval q) as H. rewrite Hord2 in H.
          specialize (H ltac:(set_solver)). lia.
        * intros q Hq. rewrite Hlenn, Hlen1. pose proof (Hval q) as H.
          rewrite Hord2 in H. specialize (H ltac:(set_solver)). lia.
        * intros q _. apply Hit2. }
  destruct (IH l2 ord2 rng s m Hwf2 Hcount2 Htodo2)
    as (b' & l' & rng' & ord' & Hrec & Hwf' & Hcount' & Hpost').
  exists b', l', rng', ord'. split; [done|]. split; [done|]. split; [done|].
  apply (insert_post_after s m _ (contents (nodes l2) ord2)); [done| |
    |done].
  - destruct Hpost1 as (_ & Hf1 & _). rewrite <- Hf1.
    destruct Hxs2 as [->|(X & Y & x & Hx & -> & ->)]; [done|].
    by rewrite filter_other_remove.
  - intros Hs' Hnn Hsrt. destruct Hpost1 as (_ & _ & _ & Hs1).
    destruct (Hs1 Hs' Hnn Hsrt) as [Hsrt1 Hnn1].
    destruct Hxs2 as [->|(X & Y & x & Hx & HXY & ->)]; [done|].
    rewrite HXY in Hsrt1, Hnn1. by apply (sorted_remove X Y x).
Qed.

(** [delete] as [sl_delete_spec] has it, with what the search knows of the
    node it stops at. *)
Lemma sl_delete_found (l : skiplist) (ord : list ptr) (s : float) (m : string) :
  wf l ord →
  ∃ A B b l',
    ord = A ++ B
    ∧ (A = [] ∨ (A ≠ [] ∧ on_node (nodes l) (less s m) (lastd 0 A) = true))
    ∧ (∀ y, head B = Some y → on_node (nodes l) (less s m) y = false)
    ∧ sl_delete l s m = Done (b, l')
    ∧ match B with
      | cur :: B' =>
        if on_node (nodes l) (λ n, String.eqb (member n) m) cur
        then b = true ∧ wf l' (A ++ B')
             ∧ length (nodes l') = length (nodes l)
             ∧ (∀ q, item (nodes l') q = item (nodes l) q)
        else b = false ∧ l' = l
      | [] => b = false ∧ l' = l
      end.
Proof.
  intros Hwf.
  pose proof (wf_length _ _ Hwf) as Hlen.
  pose proof (wf_not_head _ _ Hwf) as H0.
  destruct Hwf as [Hhd Hhh Hnd Hval Hhe Hlv Hch].
  destruct l as [h hd tl len L]. simpl in *. subst hd.
  destruct (search_spec h (less s m) ord L Hnd Hch Hlen ltac:(lia) L [] ord
              (replicate maxLevel None))
    as (A & B & update & Hs & Hord & Hupd & Hset & _ & Hmove);
    [done|done|done|by rewrite length_replicate|intros j ?; lia|].
  rewrite lastd_nil in Hs.
  exists A, B.
  assert (wf (mkSkiplist h 0 tl len L) (A ++ B)) as Hwf.
  { rewrite <- Hord. by constructor. }
  assert (∀ y, head B = Some y → on_node h (less s m) y = false) as Hhead.
  { intros y Hy. destruct (Hset 0) as [_ Hq]; [lia|].
    rewrite at_level_0 in Hq; [by apply Hq|].
    intros q Hq'. apply Hhe. rewrite Hord. set_solver. }
  pose proof (wf_level0_chain _ _ _ Hwf) as Hc0. simpl in Hc0.
  pose proof (chain_head _ _ _ _ Hc0) as Hf0.
  unfold sl_delete. cbn [nodes sl_level sl_head sl_tail sl_length].
  rewrite Hs. cbn [obind].
  rewrite (deref_index _ _ _ _ _ Hf0).
  destruct B as [|cur B']; simpl.
  { by exists false, (mkSkiplist h 0 tl len L). }
  assert (cur ∈ ord) as Hcur by (rewrite Hord; set_solver).
  destruct (lookup_lt_is_Some_2 h cur) as [ncur Hncur];
    [pose proof (Hval cur Hcur); lia|].
  unfold deref at 1, index at 1. rewrite Hncur. cbn [obind].
  unfold on_node. rewrite Hncur.
  destruct (String.eqb (member ncur) m) eqn:Hm; simpl.
  2:{ by exists false, (mkSkiplist h 0 tl len L). }
  assert (NoDup (0 :: A ++ cur :: B')) as Hnd0.
  { apply NoDup_cons. by rewrite <- Hord. }
  rewrite Hord in Hch.
  destruct (unlink_spec h (less s m) A B' cur update L Hnd0 Hch ltac:(lia)
              (Hhe cur Hcur) Hset L 0 h) as (h1 & Hun & Hinv); [lia|lia| |].
  { by repeat split. }
  rewrite Hun. cbn [obind].
  pose proof (unlinked_chain h A B' cur L Hnd0 Hch ltac:(lia) (Hhe cur Hcur) h1)
    as Hch1.
  destruct Hinv as (Hlen1 & Hhe1 & Hit1 & Hfw1).
  assert (fwd h1 cur 0 = Some (head B')) as Hnx.
  { rewrite Hfw1, decide_False.
    - simpl in Hc0. destruct Hc0 as [_ Hc0]. by apply chain_head in Hc0.
    - intros [_ Heq]. by eapply (before_not_cur h A B' cur Hnd0). }
  apply fwd_Some_node in Hnx as (ncur' & Hncur' & Hnx).
  unfold deref at 1, index at 1. rewrite Hncur'. cbn [obind].
  unfold index at 1. rewrite Hnx. cbn [obind].
  assert (∃ h2 tl2,
            match head B' with
            | Some q =>
              obind (write_backward h1 q (backward ncur')) (λ h', Done (h', tl))
            | None => Done (h1, backward ncur')
            end = Done (h2, tl2)
            ∧ length h2 = length h1
            ∧ (∀ q j, fwd h2 q j = fwd h1 q j)
            ∧ (∀ q, height h2 q = height h1 q)
            ∧ (∀ q, item h2 q = item h1 q)) as (h2 & tl2 & -> & Hlen2 & Hfw2 & Hhe2 & Hit2).
  { destruct (head B') as [q|] eqn:Hq.
    - apply head_Some_elem_of in Hq.
      destruct (write_backward_spec h1 q (backward ncur'))
        as (h2 & Hw & ? & ? & ? & ?).
      { rewrite Hlen1. pose proof (Hval q). rewrite Hord in H. 
        assert (q ∈ A ++ cur :: B') as Hin by set_solver.
        specialize (H Hin). lia. }
      exists h2, tl. rewrite Hw. done.
    - by exists h1, (backward ncur'). }
  cbn [obind].
  assert (∀ i, i < maxLevel → chain h2 i 0 (at_level h2 i (A ++ B'))) as Hch2.
  { apply (chains_ext h1); [done|done|]. intros i Hi. apply Hch1; [|done].
    repeat split; done. }
  destruct (shrink_spec h2 (A ++ B') L Hch2) as (lvl' & Hsh & Hlvl' & Hhe');
    [lia|lia| |].
  { intros p Hp. rewrite Hhe2, Hhe1. apply Hhe. rewrite Hord. set_solver. }
  rewrite Hsh. cbn [obind].
  eexists true, _. split; [done|]. split; [done|]. split; [done|].
  split; [reflexivity|].
  split; [done|]. split; [|split].
  - constructor; simpl.
    + done.
    + by rewrite Hhe2, Hhe1.
    + rewrite Hord in Hnd. apply NoDup_app in Hnd as (? & Hd & Hn).
      apply NoDup_cons in Hn as [? ?]. apply NoDup_app. repeat split; try done.
      intros x Hx Hx'. apply (Hd x Hx). by right.
    + intros p Hp. rewrite Hlen2, Hlen1. apply Hval. rewrite Hord. set_solver.
    + intros p Hp. split.
      * rewrite Hhe2, Hhe1. apply Hhe. rewrite Hord. set_solver.
      * by apply Hhe'.
    + lia.
    + done.
  - simpl. congruence.
  - simpl. intros q. by rewrite Hit2, Hit1.
Qed.

Lemma sl_insert_holds (coins : nat → bool) (l : skiplist) (xs : list (string * float))
    (rng : nat) (s : float) (m : string) :
  holds l xs →
  ∃ b l' rng' xs',
    sl_insert coins l rng s m = Done (b, l', rng')
    ∧ holds l' xs' ∧ insert_post s m xs xs' b.
Proof.
  intros (ord & Hwf & Hcount & <-). unfold sl_insert, insert_depth.
  destruct (insert_rec_holds coins (3 * length (nodes l) + 2) l ord rng s m Hwf Hcount)
    as (b & l' & rng' & ord' & Hi & Hwf' & Hcount' & Hpost).
  { pose proof (todo_bound (nodes l) ord s m).
    pose proof (wf_length _ _ Hwf). lia. }
  exists b, l', rng', (contents (nodes l') ord').
  split; [done|]. split; [by exists ord'|done].
Qed.

Lemma range_of_all {A : Type} (xs : list A) : range_of xs 0 (-1) = xs.
Proof.
  unfold range_of. cbn [Z.ltb Z.compare]. 
  destruct xs as [|x xs]; [done|].
  set (n := Z.of_nat (length (x :: xs))).
  assert (0 < n)%Z by (unfold n; simpl; lia).
  replace (Z.max 0 0) with 0%Z by lia.
  replace (Z.min (n - 1) (n + -1)) with (n - 1)%Z by lia.
  destruct (Z.gtb_spec 0 (n - 1)); [lia|].
  replace (Z.to_nat (n - 1 - 0 + 1)) with (length (x :: xs)) by (unfold n; lia).
  change (Z.to_nat 0) with 0. rewrite drop_0. by rewrite take_ge.
Qed.

Lemma getRange_slice (l : skiplist) (xs : list (string * float)) (start stop : Z) :
  holds l xs →
  ∃ ns, getRange l start stop = Done ns
        ∧ map node_pair ns = range_of xs start stop.
Proof.
  intros (ord & Hwf & Hlen & <-).
  pose proof (wf_level0_chain l [] ord Hwf) as Hc. rewrite lastd_nil in Hc.
  assert (length (contents (nodes l) ord) = length ord) as Hl by apply length_map.
  unfold getRange, range_of. rewrite Hl, Hlen.
  set (n := Z.of_nat (length ord)).
  set (start1 := if (start <? 0)%Z then (n + start)%Z else start).
  set (stop1 := if (stop <? 0)%Z then (n + stop)%Z else stop).
  assert ((if (start1 <? 0)%Z then 0%Z else start1) = Z.max 0 start1) as ->.
  { destruct (Z.ltb_spec start1 0); lia. }
  assert ((if (stop1 >=? n)%Z then (n - 1)%Z else stop1) = Z.min (n - 1) stop1) as ->.
  { destruct (Z.geb_spec stop1 n); lia. }
  destruct (Z.max 0 start1 >? Z.min (n - 1) stop1)%Z; [by exists []|].
  rewrite (wf_head _ _ Hwf).
  rewrite (deref_index _ _ _ _ _ (chain_head _ _ _ _ Hc)).
  destruct (skip_chain_spec (nodes l) ord 0 (Z.to_nat (Z.max 0 start1)) Hc)
    as [-> Hc'].
  cbn [obind].
  destruct (take_chain_spec (nodes l) (drop (Z.to_nat (Z.max 0 start1)) ord) _
              (Z.to_nat (Z.min (n - 1) stop1 - Z.max 0 start1 + 1)) Hc')
    as (ns & -> & Hns).
  exists ns. split; [done|]. rewrite Hns. unfold contents.
  by rewrite skipn_map, firstn_map.
Qed.

Lemma getRange_all (l : skiplist) (xs : list (string * float)) :
  holds l xs → ∃ ns, getRange l 0 (-1) = Done ns ∧ map node_pair ns = xs.
Proof.
  intros H. destruct (getRange_slice l xs 0 (-1) H) as (ns & Hg & Hns).
  exists ns. by rewrite Hns, range_of_all in *.
Qed.

Lemma below_irrefl (s : float) (m : string) : below s m (m, s) = false.
Proof.
  unfold below. cbn [fst snd]. rewrite string_ltb_leb.
  assert (String.leb m m = true) as -> by (by destruct (String.leb_total m m)).
  rewrite andb_false_r, orb_false_r.
  rewrite FloatAxioms.ltb_spec. unfold SFltb.
  destruct (Prim2SF s) as [sx|sx| |sx mx ex]; simpl; try done.
  - by destruct sx.
  - rewrite Z.compare_refl, Pos.compare_cont_refl. by destruct sx.
Qed.

Lemma sl_delete_holds (l : skiplist) (xs : list (string * float)) (s : float)
    (m : string) :
  holds l xs →
  ∃ b l' xs',
    sl_delete l s m = Done (b, l') ∧ holds l' xs'
    ∧ (if b then ∃ A x B, xs = A ++ x :: B ∧ x.1 = m ∧ xs' = A ++ B
       else l' = l ∧ xs' = xs)
    ∧ ((s =? s)%float = true → no_nan xs = true → sorted xs = true →
       (m, s) ∈ xs → b = true).
Proof.
  intros (ord & Hwf & Hcount & <-).
  destruct (sl_delete_found l ord s m Hwf)
    as (A & B & b & l' & -> & Hmove & Hhead & Hdel & Hcase).
  pose proof (sl_delete_length _ _ _ _ _ Hdel) as Hlen.
  assert (∀ q, q ∈ A ++ B → q < length (nodes l)) as Hv.
  { intros q Hq. apply (wf_valid _ _ Hwf q Hq). }
  (* when the pair is in a sorted list, the search stops at a node of [m] *)
  assert ((s =? s)%float = true → no_nan (contents (nodes l) (A ++ B)) = true →
          sorted (contents (nodes l) (A ++ B)) = true →
          (m, s) ∈ contents (nodes l) (A ++ B) →
          ∃ cur B', B = cur :: B'
                    ∧ on_node (nodes l) (λ n, String.eqb (member n) m) cur = true)
    as Hfound.
  { intros Hs Hnn Hsrt Hin.
    rewrite sorted_StronglySorted in Hsrt by done.
    rewrite no_nan_Forall, Forall_forall in Hnn.
    rewrite contents_app in Hsrt, Hin, Hnn.
    apply StronglySorted_app in Hsrt as (Hab & HsA & HsB).
    apply elem_of_app in Hin as [Hin|Hin].
    { (* not among the pairs walked over: they all come before (s, m) *)
      destruct Hmove as [->|[HA Hl]]; [by apply elem_of_nil in Hin|].
      rewrite on_node_below in Hl.
      2:{ destruct (lastd_elem 0 A) as [->|?]; [by eapply wf_head_node|].
          apply Hv. set_solver. }
      pose proof (contents_last (nodes l) A HA) as Hlast.
      apply last_Some in Hlast as [X HX]. rewrite HX in Hin, HsA, Hnn.
      apply elem_of_app in Hin as [Hin|Hin%list_elem_of_singleton].
      - assert (precedes (m, s) (pair_at (nodes l) (lastd 0 A)) = true) as Hp.
        { apply (StronglySorted_app_1_elem_of (λ x y, precedes x y = true) X
                   [pair_at (nodes l) (lastd 0 A)]); [done|done|set_solver]. }
        unfold precedes in Hp. cbn [fst snd] in Hp. by rewrite Hl in Hp.
      - rewrite <- Hin in Hl. by rewrite below_irrefl in Hl. }
    destruct B as [|cur B']; [by apply elem_of_nil in Hin|].
    exists cur, B'. split; [done|].
    assert (cur < length (nodes l)) as Hvc by (apply Hv; set_solver).
    specialize (Hhead cur eq_refl). rewrite on_node_below in Hhead by done.
    assert (precedes (pair_at (nodes l) cur) (m, s) = true) as Hle.
    { cbn [contents map] in Hin, HsB.
      apply elem_of_cons in Hin as [<-|Hin].
      - unfold precedes. cbn [fst snd]. by rewrite below_irrefl.
      - apply StronglySorted_cons in HsB as [Hf _]. rewrite Forall_forall in Hf.
        by apply Hf. }
    assert (((pair_at (nodes l) cur).2 =? (pair_at (nodes l) cur).2)%float = true)
      as Hnc.
    { apply Hnn. cbn [contents map]. set_solver. }
    apply precedes_iff in Hle as [Hle1 Hle2]; [|done|done].
    cbn [fst snd] in Hle1, Hle2.
    unfold below in Hhead. rewrite (float_ltb_leb _ _ Hnc Hs) in Hhead.
    rewrite float_eqb_leb, string_ltb_leb in Hhead.
    destruct (s <=? (pair_at (nodes l) cur).2)%float eqn:H1; [|by rewrite Hle1 in Hhead].
    rewrite Hle1 in Hhead. cbn [negb andb orb] in Hhead.
    apply negb_false_iff in Hhead.
    specialize (Hle2 eq_refl).
    pose proof (String.leb_antisym _ _ Hhead Hle2) as Heqm.
    rewrite (on_node_item _ (λ m' _, String.eqb m' m)), item_pair_at by done.
    destruct (pair_at (nodes l) cur) as [m' x']. cbn [fst] in Heqm. subst m'.
    apply String.eqb_refl. }
  destruct B as [|cur B'].
  { destruct Hcase as [-> ->]. exists false, l, (contents (nodes l) (A ++ [])).
    split; [done|]. split; [by exists (A ++ [])|]. split; [done|].
    intros Hs Hnn Hsrt Hin. by destruct (Hfound Hs Hnn Hsrt Hin) as (? & ? & ? & _). }
  destruct (on_node (nodes l) (λ n, String.eqb (member n) m) cur) eqn:Hc.
  2:{ destruct Hcase as [-> ->]. exists false, l, (contents (nodes l) (A ++ cur :: B')).
      split; [done|]. split; [by exists (A ++ cur :: B')|]. split; [done|].
      intros Hs Hnn Hsrt Hin. destruct (Hfound Hs Hnn Hsrt Hin) as (? & ? & ? & Hc').
      simplify_eq. congruence. }
  destruct Hcase as (-> & Hwf' & Hlen' & Hit').
  assert (contents (nodes l') (A ++ B') = contents (nodes l) A ++ contents (nodes l) B')
    as Hxs'.
  { rewrite <- contents_app. apply contents_ext.
    - intros q Hq. apply Hv. set_solver.
    - intros q Hq. rewrite Hlen'. apply Hv. set_solver.
    - intros q _. apply Hit'. }
  exists true, l', (contents (nodes l') (A ++ B')).
  split; [done|]. split.
  { exists (A ++ B'). split; [done|]. split; [|done].
    rewrite Hlen, Hcount, !length_app. cbn [length]. lia. }
  split; [|done].
  exists (contents (nodes l) A), (pair_at (nodes l) cur), (contents (nodes l) B').
  split; [by rewrite contents_app|]. split; [|done].
  rewrite (on_node_item _ (λ m' _, String.eqb m' m)), item_pair_at in Hc
    by (apply Hv; set_solver).
  destruct (pair_at (nodes l) cur) as [m' x']. by apply String.eqb_eq in Hc.
Qed.

Lemma randomLevel_loop_spec (coins : nat → bool) (n : nat) :
  ∀ lvl rng,
    1 ≤ lvl ≤ maxLevel → maxLevel - lvl < n →
    let lvl' := (randomLevel_loop coins n lvl rng).1 in
    let rng' := (randomLevel_loop coins n lvl rng).2 in
    lvl ≤ lvl' ≤ maxLevel
    ∧ (∀ i, i < lvl' - lvl → coins (rng + i) = true)
    ∧ (lvl' < maxLevel →
       coins (rng + (lvl' - lvl)) = false ∧ rng' = rng + (lvl' - lvl) + 1)
    ∧ (lvl' = maxLevel → rng' = rng + (lvl' - lvl)).
Proof.
  induction n as [|n IH]; intros lvl rng Hlvl Hn; [lia|].
  cbn [randomLevel_loop]. destruct (decide (lvl < maxLevel)) as [Hlt|Hge].
  - destruct (coins rng) eqn:Hc.
    + destruct (IH (S lvl) (S rng)) as (H1 & H2 & H3 & H4); [lia|lia|].
      split; [lia|]. split; [|split].
      * intros i Hi. destruct i as [|i]; [by rewrite Nat.add_0_r|].
        replace (rng + S i) with (S rng + i) by lia. apply H2. lia.
      * intros Hl. destruct (H3 Hl) as [H5 H6]. split.
        -- replace (rng + ((randomLevel_loop coins n (S lvl) (S rng)).1 - lvl))
             with (S rng + ((randomLevel_loop coins n (S lvl) (S rng)).1 - S lvl))
             by lia. done.
        -- rewrite H6. lia.
      * intros Hl. rewrite (H4 Hl). lia.
    + cbn [fst snd]. split; [lia|]. split; [intros i Hi; lia|]. split.
      * intros _. rewrite Nat.sub_diag, !Nat.add_0_r. split; [done|lia].
      * intros ->. lia.
  - cbn [fst snd]. split; [lia|]. split; [intros i Hi; lia|]. split; [lia|].
    intros _. lia.
Qed.

(** ** The skip list: what its operations promise *)

(** X12. [getRange] on a list that holds the pairs [xs] returns the nodes
    of the slice of [xs] from [start] to [stop], both included, in order:
    negative indexes count from the end, indexes beyond the ends are cut,
    and an empty or inverted range gives nothing. *)
Theorem getRange_is_a_slice (l : skiplist) (xs : list (string * float))
    (start stop : Z) :
  holds l xs →
  ∃ ns, getRange l start stop = Done ns
        ∧ map node_pair ns = range_of xs start stop.
Proof. apply getRange_slice. Qed.

(** The list after [insert(2, b)], [insert(1, a)], [insert(3, c)], from
    the second pair to the last. *)
Lemma getRange_is_a_slice_witness :
  ∃ l xs ns,
    holds l xs ∧ length xs = 3
    ∧ getRange l 1 (-1) = Done ns
    ∧ map node_pair ns = range_of xs 1 (-1).
Proof.
  destruct (sl_insert_holds no_promotion newSkiplist [] 0 2 "b" newSkiplist_holds)
    as (b1 & l1 & r1 & xs1 & _ & H1 & _ & _ & P1 & _).
  destruct (P1 ltac:(set_solver)) as (_ & A1 & B1 & E1 & ->).
  destruct (sl_insert_holds no_promotion l1 _ r1 1 "a" H1)
    as (b2 & l2 & r2 & xs2 & _ & H2 & _ & _ & P2 & _).
  symmetry in E1. apply app_eq_nil in E1 as [-> ->].
  destruct (P2 ltac:(set_solver)) as (_ & A2 & B2 & E2 & ->).
  destruct (sl_insert_holds no_promotion l2 _ r2 3 "c" H2)
    as (b3 & l3 & r3 & xs3 & _ & H3 & _ & _ & P3 & _).
  assert ((A2 ++ ("a", 1%float) :: B2).*1 ≡ₚ ["a"; "b"]) as Hperm.
  { rewrite fmap_app, fmap_cons, <- Permutation_middle, <- fmap_app, <- E2. done. }
  destruct (P3 ltac:(rewrite Hperm; set_solver)) as (_ & A3 & B3 & E3 & ->).
  destruct (getRange_is_a_slice l3 (A3 ++ ("c", 3%float) :: B3) 1 (-1) H3)
    as (ns & Hg & Hns).
  exists l3, (A3 ++ ("c", 3%float) :: B3), ns. split; [exact H3|]. split; [|by split].
  rewrite length_app. cbn [length]. rewrite Nat.add_succ_r, <- length_app, <- E3.
  rewrite length_app. cbn [length]. rewrite Nat.add_succ_r, <- length_app, <- E2.
  done.
Defined.

(** X13. [insert(s, m)] on a list that holds the pairs [xs] returns and
    leaves a list that holds pairs [xs'], which [getRange(0, -1)] lists:
    the pair (m, s) is among them, the pairs of the other members are those
    of [xs] in the same order, and when [m] was not in the list the result
    is true and [xs'] is [xs] with the new pair put in at one place. *)
Theorem insert_adds_the_pair (coins : nat → bool) (l : skiplist)
    (xs : list (string * float)) (rng : nat) (s : float) (m : string) :
  holds l xs →
  ∃ b l' rng' xs' ns,
    sl_insert coins l rng s m = Done (b, l', rng')
    ∧ holds l' xs'
    ∧ getRange l' 0 (-1) = Done ns ∧ map node_pair ns = xs'
    ∧ (m, s) ∈ xs'
    ∧ filter (λ x, x.1 ≠ m) xs' = filter (λ x, x.1 ≠ m) xs
    ∧ (m ∉ xs.*1 → b = true ∧ ∃ A B, xs = A ++ B ∧ xs' = A ++ (m, s) :: B).
Proof.
  intros H. destruct (sl_insert_holds coins l xs rng s m H)
    as (b & l' & rng' & xs' & Hi & H' & Hin & Hf & Hfresh & _).
  destruct (getRange_all l' xs' H') as (ns & Hg & Hns).
  by exists b, l', rng', xs', ns.
Qed.

(** [insert(1, a)] on the new list. *)
Lemma insert_adds_the_pair_witness :
  holds newSkiplist []
  ∧ ∃ l' rng' ns,
      sl_insert no_promotion newSkiplist 0 1 "a" = Done (true, l', rng')
      ∧ getRange l' 0 (-1) = Done ns
      ∧ map node_pair ns = [("a", 1%float)].
Proof.
  split; [apply newSkiplist_holds|].
  destruct (insert_adds_the_pair no_promotion newSkiplist [] 0 1 "a" newSkiplist_holds)
    as (b & l' & rng' & xs' & ns & Hi & _ & Hg & Hns & _ & _ & Hfresh).
  destruct (Hfresh ltac:(set_solver)) as (-> & A & B & E & ->).
  symmetry in E. apply app_eq_nil in E as [-> ->].
  by exists l', rng', ns.
Defined.

(** X14. [insert] keeps the order of the index: on a list whose pairs are
    sorted by score and then by member, with no NaN among the scores,
    inserting a score that is not NaN leaves a list that is sorted and
    without NaN. *)
Theorem insert_keeps_the_order (coins : nat → bool) (l : skiplist)
    (xs : list (string * float)) (rng : nat) (s : float) (m : string) :
  holds l xs → (s =? s)%float = true → no_nan xs = true → sorted xs = true →
  ∃ b l' rng' xs',
    sl_insert coins l rng s m = Done (b, l', rng')
    ∧ holds l' xs' ∧ sorted xs' = true ∧ no_nan xs' = true.
Proof.
  intros H Hs Hnn Hsrt. destruct (sl_insert_holds coins l xs rng s m H)
    as (b & l' & rng' & xs' & Hi & H' & _ & _ & _ & Hord).
  destruct (Hord Hs Hnn Hsrt). by exists b, l', rng', xs'.
Qed.

(** [insert(1, a)] into the list that holds (b, 2). *)
Lemma insert_keeps_the_order_witness :
  ∃ l xs l' xs' b rng',
    holds l xs ∧ xs = [("b", 2%float)]
    ∧ sl_insert no_promotion l 1 1 "a" = Done (b, l', rng')
    ∧ holds l' xs' ∧ sorted xs' = true ∧ no_nan xs' = true.
Proof.
  destruct (sl_insert_holds no_promotion newSkiplist [] 0 2 "b" newSkiplist_holds)
    as (b1 & l1 & r1 & xs1 & _ & H1 & _ & _ & P1 & _).
  destruct (P1 ltac:(set_solver)) as (_ & A1 & B1 & E1 & ->).
  symmetry in E1. apply app_eq_nil in E1 as [-> ->]. cbn [app] in H1.
  destruct (insert_keeps_the_order no_promotion l1 _ 1 1 "a" H1)
    as (b & l' & rng' & xs' & Hi & H' & Hs & Hn);
    [vm_compute; reflexivity..|].
  exists l1, [("b", 2%float)], l', xs', b, rng'. by repeat split.
Defined.

(** The list of (a, 1) and (b, 2), built by two insertions. *)
Lemma two_pairs_hold :
  ∃ l1 rng1 l2 rng2,
    sl_insert no_promotion newSkiplist 0 1 "a" = Done (true, l1, rng1)
    ∧ sl_insert no_promotion l1 rng1 2 "b" = Done (true, l2, rng2)
    ∧ holds l2 [("a", 1%float); ("b", 2%float)].
Proof.
  destruct (sl_insert_holds no_promotion newSkiplist [] 0 1 "a" newSkiplist_holds)
    as (b1 & l1 & rng1 & xs1 & H1 & Hh1 & _).
  destruct (getRange_all l1 xs1 Hh1) as (ns1 & Hg1 & <-).
  vm_compute in H1. injection H1 as <- <- <-.
  vm_compute in Hg1. injection Hg1 as <-. cbn [map node_pair] in Hh1.
  destruct (sl_insert_holds no_promotion _ _ 1 2 "b" Hh1)
    as (b2 & l2 & rng2 & xs2 & H2 & Hh2 & _).
  destruct (getRange_all l2 xs2 Hh2) as (ns2 & Hg2 & <-).
  vm_compute in H2. injection H2 as <- <- <-.
  vm_compute in Hg2. injection Hg2 as <-. cbn [map node_pair] in Hh2.
  eexists _, _, _, _. split; [vm_compute; reflexivity|].
  split; [vm_compute; reflexivity|]. exact Hh2.
Qed.

(** X15. [delete(s, m)] on a list that holds the pairs [xs] returns.  When
    its result is true one pair of the member [m] has left the list, the
    others staying in their order; when it is false the list is as it was.
    On a sorted list without NaN that holds the pair (m, s) the result is
    true, and a sorted list stays sorted. *)
Theorem delete_removes_one_pair (l : skiplist) (xs : list (string * float))
    (s : float) (m : string) :
  holds l xs →
  ∃ b l' xs',
    sl_delete l s m = Done (b, l') ∧ holds l' xs'
    ∧ (if b then ∃ A x B, xs = A ++ x :: B ∧ x.1 = m ∧ xs' = A ++ B
       else l' = l ∧ xs' = xs)
    ∧ ((s =? s)%float = true → no_nan xs = true → sorted xs = true →
       (m, s) ∈ xs → b = true)
    ∧ (no_nan xs = true → sorted xs = true → sorted xs' = true ∧ no_nan xs' = true).
Proof.
  intros H. destruct (sl_delete_holds l xs s m H) as (b & l' & xs' & Hd & H' & Hb & Hin).
  exists b, l', xs'. split; [done|]. split; [done|]. split; [done|]. split; [done|].
  intros Hnn Hsrt. destruct b.
  - destruct Hb as (A & x & B & -> & _ & ->). by apply (sorted_remove A B x).
  - by destruct Hb as [_ ->].
Qed.

(** [delete(1, a)] on the list of (a, 1) and (b, 2) removes the first
    pair. *)
Lemma delete_removes_one_pair_witness :
  ∃ l1 rng1 l2 rng2 l3,
    sl_insert no_promotion newSkiplist 0 1 "a" = Done (true, l1, rng1)
    ∧ sl_insert no_promotion l1 rng1 2 "b" = Done (true, l2, rng2)
    ∧ holds l2 [("a", 1%float); ("b", 2%float)]
    ∧ sl_delete l2 1 "a" = Done (true, l3)
    ∧ holds l3 [("b", 2%float)]
    ∧ sorted [("b", 2%float)] = true.
Proof.
  destruct two_pairs_hold as (l1 & rng1 & l2 & rng2 & H1 & H2 & Hh2).
  destruct (delete_removes_one_pair l2 [("a", 1%float); ("b", 2%float)] 1 "a" Hh2)
    as (b & l3 & xs' & Hd & Hh3 & Hb & Hfound & Hsorted).
  assert (b = true) as ->.
  { apply Hfound; [reflexivity..|]. apply list_elem_of_here. }
  destruct Hb as (A & x & B & E & Hx & ->).
  assert (A ++ B = [("b", 2%float)]) as HAB.
  { destruct A as [|y [|z A]]; cbn in E.
    - by injection E as <- <-.
    - injection E as <- <- <-. cbn in Hx. discriminate.
    - injection E as _ _ E. by destruct A. }
  rewrite HAB in Hh3, Hsorted.
  exists l1, rng1, l2, rng2, l3. split; [exact H1|]. split; [exact H2|].
  split; [exact Hh2|]. split; [exact Hd|]. split; [exact Hh3|].
  exact (proj1 (Hsorted eq_refl eq_refl)).
Defined.

(** X16. [randomLevel] counts the draws below [probability] that come
    first: the level is one more than their number, at most [maxLevel],
    and the draw that ends the count is consumed, none being made once the
    level is [maxLevel]. *)
Theorem randomLevel_counts_successes (coins : nat → bool) (rng : nat) :
  let lvl := (randomLevel coins rng).1 in
  let rng' := (randomLevel coins rng).2 in
  1 ≤ lvl ≤ maxLevel
  ∧ (∀ i, i < lvl - 1 → coins (rng + i) = true)
  ∧ (lvl < maxLevel → coins (rng + (lvl - 1)) = false ∧ rng' = rng + lvl)
  ∧ (lvl = maxLevel → rng' = rng + (maxLevel - 1)).
Proof.
  intros lvl rng'. unfold lvl, rng', randomLevel.
  destruct (randomLevel_loop_spec coins maxLevel 1 rng) as (H1 & H2 & H3 & H4);
    [unfold maxLevel; lia..|].
  split; [done|]. split; [done|]. split.
  - intros Hl. destruct (H3 Hl) as [? ->]. split; [done|]. lia.
  - intros Hl. rewrite (H4 Hl). lia.
Qed.

(** * ZADD and ZRANGE together *)

Lemma empty_set_in_sync : in_sync empty_set [].
Proof.
  split; [apply newSkiplist_holds|]. split; [constructor|]. split; [done|].
  split; [done|]. intros m x. cbn [empty_set dict]. rewrite lookup_empty.
  split; [done|]. by intros ?%elem_of_nil.
Qed.

Lemma in_sync_size (set : SortedSet) (xs : list (string * float)) :
  in_sync set xs → size (dict set) = length xs.
Proof.
  intros (_ & Hnd & _ & _ & Hd).
  assert (dict set = list_to_map xs) as ->.
  { apply map_eq. intros m. apply option_eq. intros x.
    rewrite Hd. by apply elem_of_list_to_map. }
  rewrite <- length_map_to_list. by rewrite map_to_list_to_map.
Qed.

Lemma in_sync_fresh (set : SortedSet) (xs : list (string * float)) (m : string) :
  in_sync set xs → dict set !! m = None ↔ m ∉ xs.*1.
Proof.
  intros (_ & _ & _ & _ & Hd). split.
  - intros Hn Hin. apply list_elem_of_fmap in Hin as ([m' x] & -> & Hin).
    apply Hd in Hin. simpl in *. congruence.
  - intros Hn. destruct (dict set !! m) as [x|] eqn:Hx; [|done].
    apply Hd in Hx. destruct Hn. apply list_elem_of_fmap. by exists (m, x).
Qed.

(** [Add] of a member that is not in the set. *)
Lemma Add_fresh (coins : nat → bool) (set : SortedSet) (xs : list (string * float))
    (rng : nat) (m : string) (s : float) :
  in_sync set xs → m ∉ xs.*1 → (s =? s)%float = true →
  ∃ set' rng' xs',
    Add coins set rng m s = Done (set', rng')
    ∧ in_sync set' xs' ∧ xs' ≡ₚ xs ++ [(m, s)]
    ∧ members set' = members set ++ [m].
Proof.
  intros (Hh & Hnd & Hsrt & Hnn & Hd) Hm Hs. unfold Add.
  destruct (sl_insert_holds coins (sl set) xs rng s m Hh)
    as (b & l' & rng' & xs' & -> & Hh' & _ & _ & Hfresh & Hord).
  destruct (Hfresh Hm) as (_ & A & B & -> & ->).
  destruct (Hord Hs Hnn Hsrt) as [Hsrt' Hnn'].
  cbn [obind]. eexists _, rng', (A ++ (m, s) :: B). split; [done|].
  split; [|by split; [rewrite <- Permutation_middle, Permutation_cons_append|]].
  split; [done|]. split.
  { rewrite fmap_app, fmap_cons. cbn [fst].
    rewrite fmap_app in Hnd, Hm.
    apply NoDup_app in Hnd as (HA & HAB & HB).
    apply NoDup_app. split; [done|]. split.
    - intros y Hy [->|Hy']%elem_of_cons; [set_solver|]. by apply (HAB y).
    - apply NoDup_cons. split; [set_solver|done]. }
  split; [done|]. split; [done|].
  intros m' x. cbn [dict].
  destruct (decide (m' = m)) as [->|Hne].
  - rewrite lookup_insert_eq. split.
    + intros [= <-]. set_solver.
    + intros Hin. f_equal.
      apply elem_of_app in Hin as [Hin|[Hin|Hin]%elem_of_cons]; [| by simplify_eq |].
      * destruct Hm. rewrite fmap_app. apply elem_of_app. left.
        apply list_elem_of_fmap. by exists (m, x).
      * destruct Hm. rewrite fmap_app. apply elem_of_app. right.
        apply list_elem_of_fmap. by exists (m, x).
  - rewrite lookup_insert_ne by done. rewrite Hd.
    rewrite !elem_of_app, elem_of_cons. split; [tauto|].
    intros [?|[?|?]]; [tauto|simplify_eq|tauto].
Qed.

(** The loop of [ZAdd] on members that are not in the set. *)
Lemma ZAdd_loop_fresh (coins : nat → bool) (opts : option Options)
    (pairs : list ScoreMember) :
  opt_is IsXX opts = false →
  ∀ (set : SortedSet) (xs : list (string * float)) (rng : nat) (changed added : Z),
    in_sync set xs →
    NoDup (Member <$> pairs) →
    (∀ p, p ∈ pairs → (Member p ∉ xs.*1) ∧ (Score p =? Score p)%float = true) →
    ∃ set' rng' xs',
      ZAdd_loop coins set rng pairs opts changed added
      = Done (set', rng', (changed + Z.of_nat (length pairs))%Z,
              (added + Z.of_nat (length pairs))%Z)
      ∧ in_sync set' xs' ∧ xs' ≡ₚ xs ++ (pair_of <$> pairs)
      ∧ members set' = members set ++ (Member <$> pairs).
Proof.
  intros HXX. induction pairs as [|p rest IH];
    intros set xs rng changed added Hsync Hnd Hp.
  { exists set, rng, xs. cbn [ZAdd_loop length fmap list_fmap].
    rewrite !Z.add_0_r, !app_nil_r. done. }
  destruct (Hp p ltac:(set_solver)) as [Hfresh Hnn].
  pose proof (proj2 (in_sync_fresh set xs (Member p) Hsync) Hfresh) as Hnone.
  cbn [ZAdd_loop]. rewrite Hnone. cbn [default is_Some].
  rewrite bool_decide_eq_false_2 by (by intros [? ?]).
  rewrite HXX, !andb_false_r. cbn [negb andb orb].
  destruct (Add_fresh coins set xs rng (Member p) (Score p) Hsync Hfresh Hnn)
    as (set1 & rng1 & xs1 & -> & Hsync1 & Hperm1 & Hmem1).
  cbn [obind].
  apply NoDup_cons in Hnd as [Hp_rest Hnd].
  destruct (IH set1 xs1 rng1 (changed + 1)%Z (added + 1)%Z Hsync1 Hnd)
    as (set' & rng' & xs' & -> & Hsync' & Hperm' & Hmem').
  { intros q Hq. destruct (Hp q ltac:(set_solver)) as [Hq1 Hq2]. split; [|done].
    rewrite Hperm1, fmap_app. cbn [fmap list_fmap fst].
    intros [?|?%list_elem_of_singleton]%elem_of_app; [done|].
    destruct Hp_rest. apply list_elem_of_fmap. by exists q. }
  exists set', rng', xs'. split.
  { replace (changed + Z.of_nat (length (p :: rest)))%Z
      with (changed + 1 + Z.of_nat (length rest))%Z by (cbn [length]; lia).
    replace (added + Z.of_nat (length (p :: rest)))%Z
      with (added + 1 + Z.of_nat (length rest))%Z by (cbn [length]; lia).
    done. }
  split; [done|]. split.
  - rewrite Hperm', Hperm1. cbn [fmap list_fmap]. by rewrite <- app_assoc.
  - rewrite Hmem', Hmem1. cbn [fmap list_fmap]. by rewrite <- app_assoc.
Qed.

Lemma node_items_pair (withScores : bool) (ns : list skiplistNode) :
  concat (map (node_items withScores) ns)
  = concat (map (pair_items withScores) (map node_pair ns)).
Proof. by rewrite map_map. Qed.

(** [ZRange] by rank on a set whose index and map agree. *)
Lemma ZRange_by_rank (s : MemoryStore) (key : string) (set : SortedSet)
    (xs : list (string * float)) (start stop : Z) (opts : option ZRangeOptions) :
  data s !! key = Some (VSortedSet set) → in_sync set xs → by_rank opts →
  ZRange s key (Int start) (Int stop) opts
  = Done (Ret (concat (map (pair_items (with_scores opts))
                           (range_of xs start stop)))).
Proof.
  intros Hdata Hsync Hopts. pose proof (in_sync_size _ _ Hsync) as Hsize.
  destruct Hsync as (Hh & _).
  unfold ZRange. rewrite Hdata.
  assert ((match opts with Some o => IsByScore o | None => false end) = false) as ->.
  { destruct opts as [o|]; [by destruct Hopts|done]. }
  assert ((match opts with Some o => IsByLex o | None => false end) = false) as ->.
  { destruct opts as [o|]; [by destruct Hopts as (_ & ? & _)|done]. }
  cbv zeta. rewrite Hsize. fold (with_scores opts).
  unfold range_of.
  set (n := Z.of_nat (length xs)).
  set (start1 := if (start <? 0)%Z then (n + start)%Z else start).
  set (stop1 := if (stop <? 0)%Z then (n + stop)%Z else stop).
  assert ((if (start1 <? 0)%Z then 0%Z else start1) = Z.max 0 start1) as ->.
  { destruct (Z.ltb_spec start1 0); lia. }
  assert ((if (stop1 >=? n)%Z then (n - 1)%Z else stop1) = Z.min (n - 1) stop1) as ->.
  { destruct (Z.geb_spec stop1 n); lia. }
  set (a := Z.max 0 start1). set (b := Z.min (n - 1) stop1).
  destruct (Z.gtb_spec a b) as [Hgt|Hle]; [done|].
  destruct (Z.geb_spec a n) as [Hge|Hlt]; [lia|]. cbn [orb].
  unfold Range. rewrite decide_False by (rewrite Hsize; lia).
  destruct (getRange_slice (sl set) xs a b Hh) as (ns & -> & Hns).
  cbn [obind]. rewrite node_items_pair, Hns.
  assert (range_of xs a b = take (Z.to_nat (b - a + 1)) (drop (Z.to_nat a) xs)) as ->.
  { unfold range_of. fold n.
    destruct (Z.ltb_spec a 0) as [?|_]; [lia|].
    destruct (Z.ltb_spec b 0) as [?|_]; [lia|].
    replace (Z.max 0 a) with a by lia. replace (Z.min (n - 1) b) with b by lia.
    destruct (Z.gtb_spec a b); [lia|done]. }
  destruct opts as [o|]; [|done].
  destruct Hopts as (_ & _ & Hc).
  destruct (Z.gtb_spec (Limit_Count o) 0); [lia|done].
Qed.

(** The second loop of [RangeByScore], on a chain. *)
Lemma collect_spec (h : list skiplistNode) (keep : skiplistNode → bool)
    (withScores : bool) (l : list ptr) :
  ∀ (p : ptr) (fuel : nat),
    chain h 0 p l → length l < fuel →
    ∃ l1 l2, l = l1 ++ l2
             ∧ collect fuel h keep withScores (head l)
               = Done (concat (map (pair_items withScores) (contents h l1)))
             ∧ Forall (λ q, on_node h keep q = true) l1
             ∧ (∀ y, head l2 = Some y → on_node h keep y = false).
Proof.
  induction l as [|q l IH]; intros p fuel Hc Hf.
  { exists [], []. destruct fuel; [simpl in Hf; lia|]. by repeat split. }
  destruct fuel as [|fuel]; [simpl in Hf; lia|].
  destruct Hc as [Hp Hc]. cbn [head collect].
  pose proof (chain_head _ _ _ _ Hc) as Hq.
  destruct (fwd_Some_node _ _ _ _ Hq) as (nq & Hnq & Hfw).
  unfold deref at 1, index at 1. rewrite Hnq. cbn [obind].
  destruct (keep nq) eqn:Hk.
  - unfold index at 1. rewrite Hfw. cbn [obind].
    destruct (IH q fuel Hc) as (l1 & l2 & -> & -> & Hall & Hhd); [simpl in Hf; lia|].
    cbn [obind]. exists (q :: l1), l2. split; [done|]. split.
    + cbn [contents map concat]. unfold pair_at at 1. rewrite Hnq. done.
    + split; [|done]. constructor; [|done]. unfold on_node. by rewrite Hnq.
  - exists [], (q :: l). split; [done|]. split; [done|]. split; [constructor|].
    intros y [= <-]. unfold on_node. by rewrite Hnq.
Qed.

Lemma filter_none {A : Type} (P : A → Prop) `{!∀ x, Decision (P x)} (l : list A) :
  (∀ x, x ∈ l → ¬ P x) → filter P l = [].
Proof.
  induction l as [|x l IH]; intros Hl; [done|].
  rewrite filter_cons_False by (apply Hl; set_solver). apply IH. set_solver.
Qed.

Lemma filter_all {A : Type} (P : A → Prop) `{!∀ x, Decision (P x)} (l : list A) :
  (∀ x, x ∈ l → P x) → filter P l = l.
Proof.
  induction l as [|x l IH]; intros Hl; [done|].
  rewrite filter_cons_True by (apply Hl; set_solver). f_equal. apply IH. set_solver.
Qed.

(** [RangeByScore], forward, on a set whose index is sorted. *)
Lemma RangeByScore_forward (set : SortedSet) (xs : list (string * float))
    (min max : float) (withScores : bool) :
  in_sync set xs → (min =? min)%float = true →
  RangeByScore set min max false withScores
  = Done (concat (map (pair_items withScores)
                      (filter (λ x, in_score_range min max x = true) xs))).
Proof.
  intros Hsync Hmin. pose proof (in_sync_size _ _ Hsync) as Hsize.
  destruct Hsync as ((ord & Hwf & Hcount & <-) & _ & Hsrt & Hnn & _).
  unfold RangeByScore. destruct (decide (size (dict set) = 0)) as [H0|_].
  { rewrite H0 in Hsize. symmetry in Hsize. apply length_zero_iff_nil in Hsize.
    by rewrite Hsize. }
  cbv zeta.
  pose proof (wf_length _ _ Hwf) as Hlen.
  pose proof Hwf as [Hhd Hhh Hnd Hval Hhe Hlv Hch].
  destruct (search_spec (nodes (sl set)) (λ n, (score n <? min)%float) ord
              (sl_level (sl set)) Hnd Hch Hlen ltac:(lia) (sl_level (sl set)) [] ord
              (replicate maxLevel None))
    as (A & B & update & Hs & Hord & Hupd & Hset & _ & Hmove);
    [done|done|done|by rewrite length_replicate|intros j ?; lia|].
  rewrite lastd_nil in Hs. rewrite Hhd, Hs. cbn [obind]. subst ord.
  pose proof (wf_level0_chain _ _ _ Hwf) as Hc0.
  rewrite (deref_index _ _ _ _ _ (chain_head _ _ _ _ Hc0)).
  destruct (collect_spec (nodes (sl set)) (λ n, (score n <=? max)%float) withScores
              B (lastd 0 A) (chain_fuel (nodes (sl set))) Hc0)
    as (B1 & B2 & -> & -> & Hkeep & Hstop).
  { unfold chain_fuel. rewrite length_app in Hlen. lia. }
  do 3 f_equal.
  set (h := nodes (sl set)) in *.
  assert (∀ q, q ∈ A ++ B1 ++ B2 → q < length h) as Hv.
  { intros q Hq. apply (Hval q Hq). }
  rewrite !contents_app in Hsrt, Hnn |- *.
  rewrite sorted_StronglySorted in Hsrt by done.
  rewrite no_nan_Forall, !Forall_app, !Forall_forall in Hnn.
  destruct Hnn as (HnA & HnB1 & HnB2).
  apply StronglySorted_app in Hsrt as (HAB & HsA & Hsrt).
  apply StronglySorted_app in Hsrt as (HB12 & HsB1 & HsB2).
  (* the pairs the search walked over are below the range *)
  assert (∀ a, a ∈ contents h A → (min <=? a.2)%float = false) as HA.
  { intros a Ha. destruct Hmove as [->|[HAne Hl]]; [by apply elem_of_nil in Ha|].
    pose proof (contents_last h A HAne) as Hlast.
    set (z := pair_at h (lastd 0 A)) in *.
    assert ((z.2 <? min)%float = true) as Hz.
    { unfold z, pair_at. unfold on_node in Hl.
      destruct (h !! lastd 0 A); [done|discriminate]. }
    apply last_Some in Hlast as [X HX].
    assert (z ∈ contents h A) as Hzin by (rewrite HX; set_solver).
    rewrite (float_ltb_leb _ _ (HnA z Hzin) Hmin) in Hz.
    apply negb_true_iff in Hz.
    assert ((a.2 <=? z.2)%float = true) as Haz.
    { rewrite HX in Ha, HsA. apply elem_of_app in Ha as [Ha|Ha%list_elem_of_singleton].
      - assert (precedes a z = true) as Hp.
        { apply (StronglySorted_app_1_elem_of (λ x y, precedes x y = true) X [z]);
            [done|done|set_solver]. }
        apply precedes_iff in Hp as [? _]; [done|apply HnA; rewrite HX; set_solver|
                                             by apply HnA].
      - subst a. destruct (float_leb_total z.2 z.2) as [?|?]; auto. }
    destruct (min <=? a.2)%float eqn:Hma; [|done].
    by rewrite (float_leb_trans _ _ _ Hma Haz) in Hz. }
  (* the pairs from the node where it stopped are not *)
  assert (∀ b, b ∈ contents h B1 ++ contents h B2 → (min <=? b.2)%float = true) as HB.
  { intros b Hb. rewrite <- contents_app in Hb.
    destruct (B1 ++ B2) as [|y B] eqn:HB; [by apply elem_of_nil in Hb|].
    assert (y < length h) as Hvy by (apply Hv; set_solver).
    assert (StronglySorted (λ x y, precedes x y = true) (contents h (y :: B))) as HsB.
    { rewrite <- HB, contents_app. by apply StronglySorted_app. }
    assert (∀ x, x ∈ contents h (y :: B) → (x.2 =? x.2)%float = true) as HnB.
    { intros x. rewrite <- HB, contents_app, elem_of_app. intros [?|?]; auto. }
    destruct (Hset 0) as [_ Hy]; [lia|].
    rewrite at_level_0 in Hy.
    2:{ intros q' Hq'. apply Hhe. set_solver. }
    specialize (Hy y eq_refl). unfold on_node in Hy.
    destruct (lookup_lt_is_Some_2 h y Hvy) as [ny Hny]. rewrite Hny in Hy.
    assert (pair_at h y = node_pair ny) as Hpy by (unfold pair_at; by rewrite Hny).
    assert ((min <=? (pair_at h y).2)%float = true) as Hmy.
    { rewrite Hpy. cbn [node_pair snd].
      rewrite float_ltb_leb in Hy; [by apply negb_false_iff in Hy| |done].
      specialize (HnB (pair_at h y) ltac:(cbn [contents map]; set_solver)).
      by rewrite Hpy in HnB. }
    cbn [contents map] in Hb, HsB, HnB.
    apply elem_of_cons in Hb as [->|Hb]; [done|].
    apply StronglySorted_cons in HsB as [Hf _]. rewrite Forall_forall in Hf.
    specialize (Hf b Hb).
    apply precedes_iff in Hf as [Hf _]; [|apply HnB; set_solver..].
    by eapply float_leb_trans. }
  (* and those after the node where the collection stops are above it *)
  assert (∀ c, c ∈ contents h B2 → (c.2 <=? max)%float = false) as HC.
  { intros c Hc. destruct B2 as [|y B2]; [by apply elem_of_nil in Hc|].
    specialize (Hstop y eq_refl). unfold on_node in Hstop.
    assert (y < length h) as Hvy by (apply Hv; set_solver).
    destruct (lookup_lt_is_Some_2 h y Hvy) as [ny Hny]. rewrite Hny in Hstop.
    assert (pair_at h y = node_pair ny) as Hpy by (unfold pair_at; by rewrite Hny).
    cbn [contents map] in Hc, HsB2.
    apply elem_of_cons in Hc as [->|Hc]; [by rewrite Hpy|].
    apply StronglySorted_cons in HsB2 as [Hf _]. rewrite Forall_forall in Hf.
    specialize (Hf c Hc).
    apply precedes_iff in Hf as [Hf _];
      [|apply HnB2; cbn [contents map]; set_solver..].
    destruct (c.2 <=? max)%float eqn:Hcm; [|done].
    rewrite Hpy in Hf. cbn [node_pair snd] in Hf.
    by rewrite (float_leb_trans _ _ _ Hf Hcm) in Hstop. }
  rewrite !filter_app.
  rewrite (filter_none _ (contents h A)).
  2:{ intros a Ha. unfold in_score_range. by rewrite (HA a Ha). }
  rewrite (filter_none _ (contents h B2)).
  2:{ intros c Hc. unfold in_score_range. rewrite (HC c Hc).
      by rewrite andb_false_r. }
  rewrite (filter_all _ (contents h B1)); [by rewrite app_nil_r|].
  intros b Hb. unfold in_score_range. rewrite (HB b) by set_solver.
  cbn [andb]. rewrite Forall_forall in Hkeep.
  apply list_elem_of_In, in_map_iff in Hb as (q & <- & Hq%list_elem_of_In).
  specialize (Hkeep q Hq). unfold on_node in Hkeep. unfold pair_at.
  destruct (h !! q); [done|discriminate].
Qed.
(** [ZRange] by score, forward, on a set whose index and map agree. *)
Lemma ZRange_by_score (s : MemoryStore) (key : string) (set : SortedSet)
    (xs : list (string * float)) (min max : float) (opts : option ZRangeOptions) :
  data s !! key = Some (VSortedSet set) → in_sync set xs → by_score opts →
  (min =? min)%float = true →
  ZRange s key (Float min) (Float max) opts
  = Done (Ret (concat (map (pair_items (with_scores opts))
                           (filter (λ x, in_score_range min max x = true) xs)))).
Proof.
  intros Hdata Hsync Hopts Hmin. unfold ZRange. rewrite Hdata.
  destruct opts as [o|]; [|done]. destruct Hopts as (-> & Hrev & Hc).
  unfold IsRev in Hrev. cbv zeta. unfold IsRev. rewrite Hrev.
  rewrite (RangeByScore_forward set xs min max _ Hsync Hmin). cbn [obind].
  destruct (Z.gtb_spec (Limit_Count o) 0); [lia|done].
Qed.

(** [ZRange] by member. *)
Lemma ZRange_by_lex (s : MemoryStore) (key : string) (set : SortedSet)
    (min max : string) (opts : option ZRangeOptions) :
  data s !! key = Some (VSortedSet set) → by_lex opts →
  ZRange s key (Str min) (Str max) opts
  = Done (Ret (map Str (filter (λ m, in_lex min max m = true)
                               (if reversed opts then reverse (members set)
                                else members set)))).
Proof.
  intros Hdata Hopts. unfold ZRange. rewrite Hdata.
  destruct opts as [o|]; [|done]. destruct Hopts as (-> & -> & Hc).
  cbv zeta. unfold RangeByLex, reversed.
  destruct (Z.gtb_spec (Limit_Count o) 0); [lia|done].
Qed.

(** ZADD of new members on a key without a value. *)
Lemma ZAdd_fresh_sync (coins : nat → bool) (s : MemoryStore) (rng : nat)
    (key : string) (pairs : list ScoreMember) (opts : option Options) :
  data s !! key = None →
  NoDup (Member <$> pairs) →
  Forall (λ p, (Score p =? Score p)%float = true) pairs →
  opt_is IsXX opts = false → opt_is IsINCR opts = false →
  ∃ s' rng' set' xs,
    ZAdd coins s rng key pairs opts
    = Done (Ret (Int (Z.of_nat (length pairs))), s', rng')
    ∧ data s' !! key = Some (VSortedSet set')
    ∧ in_sync set' xs
    ∧ xs ≡ₚ pair_of <$> pairs
    ∧ members set' = Member <$> pairs.
Proof.
  intros Hk Hnd Hnn HXX HINCR. unfold ZAdd. rewrite Hk, HINCR. fold empty_set.
  destruct (ZAdd_loop_fresh coins opts pairs HXX empty_set [] rng 0 0
              empty_set_in_sync Hnd)
    as (set' & rng' & xs & -> & Hsync & Hperm & Hmem).
  { intros p Hp. split; [set_solver|]. by eapply (proj1 (Forall_forall _ _) Hnn). }
  cbn [obind]. rewrite !Z.add_0_l.
  exists {| data := <[key:=VSortedSet set']> (data s); expires := expires s |},
         rng', set', xs.
  split; [by destruct (opt_is IsCH opts)|].
  split; [apply lookup_insert_eq|]. split; [exact Hsync|].
  split; [exact Hperm|exact Hmem].
Qed.

(** X17. ZADD of new members, then ZRANGE.  On a key that has no value, a
    ZADD without XX and INCR, whose members are distinct and whose scores
    are not NaN, returns the number of pairs, and a ZRANGE by rank then
    returns the slice from [start] to [stop] of the pairs sorted by score
    and then by member, with their scores under WITHSCORES (REV changes
    nothing to a range by rank). *)
Theorem ZAdd_then_ZRange (coins : nat → bool) (s : MemoryStore) (rng : nat)
    (key : string) (pairs : list ScoreMember) (opts : option Options) :
  data s !! key = None →
  NoDup (Member <$> pairs) →
  Forall (λ p, (Score p =? Score p)%float = true) pairs →
  opt_is IsXX opts = false → opt_is IsINCR opts = false →
  ∃ s' rng' xs,
    ZAdd coins s rng key pairs opts
    = Done (Ret (Int (Z.of_nat (length pairs))), s', rng')
    ∧ xs ≡ₚ pair_of <$> pairs
    ∧ sorted xs = true
    ∧ ∀ start stop ropts,
        by_rank ropts →
        ZRange s' key (Int start) (Int stop) ropts
        = Done (Ret (concat (map (pair_items (with_scores ropts))
                                 (range_of xs start stop)))).
Proof.
  intros Hk Hnd Hnn HXX HINCR.
  destruct (ZAdd_fresh_sync coins s rng key pairs opts Hk Hnd Hnn HXX HINCR)
    as (s' & rng' & set' & xs & HZ & Hd & Hsync & Hperm & _).
  exists s', rng', xs. split; [done|]. split; [done|].
  split; [by destruct Hsync as (_ & _ & ? & _)|].
  intros start stop ropts Hr. by apply (ZRange_by_rank _ _ set').
Qed.

(** ZADD k 2 b 1 a 3 c on the new store, then ZRANGE k 0 -1. *)
Lemma ZAdd_then_ZRange_witness :
  let pairs := [mkScoreMember 2 "b"; mkScoreMember 1 "a"; mkScoreMember 3 "c"] in
  ∃ s' rng',
    ZAdd no_promotion NewMemoryStore 0 "k" pairs None = Done (Ret (Int 3), s', rng')
    ∧ ZRange s' "k" (Int 0) (Int (-1)) (Some NewZRangeOptions)
      = Done (Ret [Str "a"; Str "b"; Str "c"]).
Proof.
  intros pairs.
  destruct (ZAdd_then_ZRange no_promotion NewMemoryStore 0 "k" pairs None)
    as (s' & rng' & xs & HZ & Hperm & Hsrt & HR).
  - vm_compute. reflexivity.
  - unfold pairs. cbn [fmap list_fmap Member]. repeat constructor; set_solver.
  - unfold pairs. repeat constructor.
  - reflexivity.
  - reflexivity.
  - exists s', rng'. split; [exact HZ|].
    rewrite (HR 0%Z (-1)%Z (Some NewZRangeOptions)) by (by vm_compute).
    rewrite range_of_all.
    (* the sorted arrangement of the three pairs *)
    assert (xs = [("a", 1%float); ("b", 2%float); ("c", 3%float)]) as ->; [|done].
    unfold pairs in Hperm. cbn [fmap list_fmap pair_of Member Score] in Hperm.
    pose proof (Permutation_length Hperm) as Hlen.
    assert (∀ y, y ∈ xs ↔ y ∈ [("b", 2%float); ("a", 1%float); ("c", 3%float)])
      as Hmem by (intros y; by rewrite Hperm).
    destruct xs as [|x1 [|x2 [|x3 [|x4 xs]]]]; try discriminate Hlen.
    pose proof (proj1 (Hmem x1) ltac:(set_solver)) as H1.
    pose proof (proj1 (Hmem x2) ltac:(set_solver)) as H2.
    pose proof (proj1 (Hmem x3) ltac:(set_solver)) as H3.
    pose proof (proj2 (Hmem ("a", 1%float)) ltac:(set_solver)) as Ha.
    pose proof (proj2 (Hmem ("b", 2%float)) ltac:(set_solver)) as Hb.
    pose proof (proj2 (Hmem ("c", 3%float)) ltac:(set_solver)) as Hc.
    clear Hmem Hperm HR HZ.
    set_unfold.
    destruct H1 as [->|[->|[->|[]]]], H2 as [->|[->|[->|[]]]], H3 as [->|[->|[->|[]]]];
      try (vm_compute in Hsrt; discriminate Hsrt);
      try reflexivity;
      try (destruct Ha as [Ha|[Ha|[Ha|[]]]]; discriminate Ha);
      try (destruct Hb as [Hb|[Hb|[Hb|[]]]]; discriminate Hb);
      try (destruct Hc as [Hc|[Hc|[Hc|[]]]]; discriminate Hc).
Defined.


(** X18. ZADD of new members, then ZRANGE BYSCORE.  After the same ZADD, a
    ZRANGE by score without REV and LIMIT, whose lower bound is not NaN,
    returns the pairs whose score is in the closed range from [min] to
    [max], sorted by score and then by member. *)
Theorem ZAdd_then_ZRange_by_score (coins : nat → bool) (s : MemoryStore) (rng : nat)
    (key : string) (pairs : list ScoreMember) (opts : option Options) :
  data s !! key = None →
  NoDup (Member <$> pairs) →
  Forall (λ p, (Score p =? Score p)%float = true) pairs →
  opt_is IsXX opts = false → opt_is IsINCR opts = false →
  ∃ r s' rng' xs,
    ZAdd coins s rng key pairs opts = Done (r, s', rng')
    ∧ xs ≡ₚ pair_of <$> pairs
    ∧ sorted xs = true
    ∧ ∀ min max ropts,
        by_score ropts → (min =? min)%float = true →
        ZRange s' key (Float min) (Float max) ropts
        = Done (Ret (concat (map (pair_items (with_scores ropts))
                                 (filter (λ x, in_score_range min max x = true) xs)))).
Proof.
  intros Hk Hnd Hnn HXX HINCR.
  destruct (ZAdd_fresh_sync coins s rng key pairs opts Hk Hnd Hnn HXX HINCR)
    as (s' & rng' & set' & xs & HZ & Hd & Hsync & Hperm & _).
  eexists _, s', rng', xs. split; [done|]. split; [done|].
  split; [by destruct Hsync as (_ & _ & ? & _)|].
  intros min max ropts Hr Hmin. by apply (ZRange_by_score _ _ set').
Qed.

(** ZADD k 5 e on the new store, then ZRANGE k 1 9 BYSCORE and
    ZRANGE k 6 9 BYSCORE. *)
Lemma ZAdd_then_ZRange_by_score_witness :
  let byscore := Some {| zrange_opts := zrange_opts NewZRangeOptions;
                         RangeType := "BYSCORE"; Rev := false;
                         Limit_Offset := 0; Limit_Count := 0; WithScores := false |} in
  ∃ r s' rng',
    ZAdd no_promotion NewMemoryStore 0 "k" [mkScoreMember 5 "e"] None
    = Done (r, s', rng')
    ∧ ZRange s' "k" (Float 1) (Float 9) byscore = Done (Ret [Str "e"])
    ∧ ZRange s' "k" (Float 6) (Float 9) byscore = Done (Ret []).
Proof.
  intros byscore.
  destruct (ZAdd_then_ZRange_by_score no_promotion NewMemoryStore 0 "k"
              [mkScoreMember 5 "e"] None)
    as (r & s' & rng' & xs & HZ & Hperm & _ & HR).
  - vm_compute. reflexivity.
  - cbn [fmap list_fmap Member]. repeat constructor; set_solver.
  - repeat constructor.
  - reflexivity.
  - reflexivity.
  - exists r, s', rng'. split; [exact HZ|].
    cbn [fmap list_fmap pair_of Member Score] in Hperm.
    apply Permutation_singleton_r in Hperm. subst xs.
    split.
    + rewrite (HR 1%float 9%float byscore) by (by vm_compute). reflexivity.
    + rewrite (HR 6%float 9%float byscore) by (by vm_compute). reflexivity.
Defined.

(** X19. ZADD of new members, then ZRANGE BYLEX.  After the same ZADD, a
    ZRANGE by member without LIMIT returns the members that lie between
    [min] and [max], both included, in the order in which the ZADD named
    them, and in the reverse of that order under REV. *)
Theorem ZAdd_then_ZRange_by_lex (coins : nat → bool) (s : MemoryStore) (rng : nat)
    (key : string) (pairs : list ScoreMember) (opts : option Options) :
  data s !! key = None →
  NoDup (Member <$> pairs) →
  Forall (λ p, (Score p =? Score p)%float = true) pairs →
  opt_is IsXX opts = false → opt_is IsINCR opts = false →
  ∃ r s' rng',
    ZAdd coins s rng key pairs opts = Done (r, s', rng')
    ∧ ∀ min max ropts,
        by_lex ropts →
        ZRange s' key (Str min) (Str max) ropts
        = Done (Ret (map Str (filter (λ m, in_lex min max m = true)
                                     (if reversed ropts
                                      then reverse (Member <$> pairs)
                                      else Member <$> pairs)))).
Proof.
  intros Hk Hnd Hnn HXX HINCR.
  destruct (ZAdd_fresh_sync coins s rng key pairs opts Hk Hnd Hnn HXX HINCR)
    as (s' & rng' & set' & xs & HZ & Hd & _ & _ & Hmem).
  eexists _, s', rng'. split; [done|].
  intros min max ropts Hr. rewrite <- Hmem. by apply ZRange_by_lex.
Qed.

(** ZADD k 1 b 2 a on the new store, then ZRANGE k a z BYLEX: the members
    come in the order of the ZADD. *)
Lemma ZAdd_then_ZRange_by_lex_witness :
  let bylex := Some {| zrange_opts := zrange_opts NewZRangeOptions;
                       RangeType := "BYLEX"; Rev := false;
                       Limit_Offset := 0; Limit_Count := 0; WithScores := false |} in
  ∃ r s' rng',
    ZAdd no_promotion NewMemoryStore 0 "k"
      [mkScoreMember 1 "b"; mkScoreMember 2 "a"] None
    = Done (r, s', rng')
    ∧ ZRange s' "k" (Str "a") (Str "z") bylex = Done (Ret [Str "b"; Str "a"]).
Proof.
  intros bylex.
  destruct (ZAdd_then_ZRange_by_lex no_promotion NewMemoryStore 0 "k"
              [mkScoreMember 1 "b"; mkScoreMember 2 "a"] None)
    as (r & s' & rng' & HZ & HR).
  - vm_compute. reflexivity.
  - cbn [fmap list_fmap Member]. repeat constructor; set_solver.
  - repeat constructor.
  - reflexivity.
  - reflexivity.
  - exists r, s', rng'. split; [exact HZ|].
    rewrite (HR "a" "z" bylex) by (by vm_compute). reflexivity.
Defined.

(** * The parser's commands and their options *)

(** A [Set] that succeeds names a registered option, none of whose
    incompatible options is active, and activates it. *)
Lemma Options_Set_Ret (o o' : Options) (name : string) :
  Options_Set o name = Ret o' →
  ∃ opt, options o !! ToUpper name = Some opt
    ∧ o' = {| options := options o; active := <[ToUpper name := true]> (active o) |}
    ∧ ∀ inc, inc ∈ Incompatible opt → active o !! ToUpper inc = None.
Proof.
  unfold Options_Set. destruct (options o !! ToUpper name) as [opt|]; [|done].
  destruct (filter _ _) as [|c cs] eqn:Hf; [|done].
  intros [= <-]. exists opt. split; [done|]. split; [done|].
  intros inc Hinc. destruct (active o !! ToUpper inc) as [b|] eqn:Ha; [|done].
  exfalso.
  assert (ToUpper inc ∈ filter (λ activeOpt,
            existsb (λ incompatible, String.eqb (ToUpper incompatible) activeOpt)
                    (Incompatible opt) = true)
            (map fst (map_to_list (active o)))) as Hin.
  { apply list_elem_of_filter. split.
    - apply existsb_exists. exists inc. split; [by apply list_elem_of_In|].
      apply String.eqb_refl.
    - apply (list_elem_of_fmap_2 fst _ (ToUpper inc, b)).
      by apply elem_of_map_to_list. }
  rewrite Hf in Hin. by apply elem_of_nil in Hin.
Qed.

Lemma one_of_zadd_words (opt : string) :
  one_of opt zadd_words = true →
  opt = "NX" ∨ opt = "XX" ∨ opt = "GT" ∨ opt = "LT" ∨ opt = "CH" ∨ opt = "INCR".
Proof.
  unfold one_of, zadd_words. cbn [existsb].
  rewrite !orb_true_iff, !String.eqb_eq. naive_solver.
Qed.

Lemma length_pair_args (pairs : list (string * string)) :
  length (pair_args pairs) = 2 * length pairs.
Proof. induction pairs as [|p ps IH]; [done|]. cbn. unfold pair_args in IH. lia. Qed.

(** The option loop of ZADD stops at the first word that is no option. *)
Lemma zadd_option_loop_stop (fuel : nat) (args : list string) (i : nat) (a : string)
    (opts : Options) :
  args !! i = Some a → one_of (ToUpper a) zadd_words = false →
  zadd_option_loop (S fuel) args i opts = Ret (i, opts).
Proof.
  intros Ha Hw. cbn [zadd_option_loop]. rewrite Ha. cbv zeta.
  unfold zadd_words in Hw. by rewrite Hw.
Qed.

(** On the new options every option word is accepted. *)
Lemma zadd_first_option (o : string) :
  one_of (ToUpper o) zadd_words = true →
  ∃ opts, Options_Set NewZAddOptions (ToUpper o) = Ret opts.
Proof.
  intros Hw. apply one_of_zadd_words in Hw.
  destruct Hw as [-> | [-> | [-> | [-> | [-> | ->]]]]];
    eexists; vm_compute; reflexivity.
Qed.

Section MemberLoop.
Variable ParseFloat : string → option float.

(** The loop over the pairs of ZADD, on pairs whose scores are numbers. *)
Lemma zadd_member_loop_pairs (pairs : list (string * string)) :
  ∀ (scores : list float) (pre tail : list string) (acc : list ScoreMember)
    (fuel : nat),
    Forall2 (λ p f, ParseFloat p.1 = Some f) pairs scores →
    zadd_member_loop ParseFloat (length pairs + fuel)
      (pre ++ pair_args pairs ++ tail) (length pre) acc
    = zadd_member_loop ParseFloat fuel
        (pre ++ pair_args pairs ++ tail) (length pre + 2 * length pairs)
        (acc ++ zip_with (λ f p, mkScoreMember f p.2) scores pairs).
Proof.
  induction pairs as [|[sc m] ps IH]; intros scores pre tail acc fuel Hs.
  - apply Forall2_nil_inv_l in Hs as ->. cbn.
    by rewrite Nat.add_0_r, app_nil_r.
  - apply Forall2_cons_inv_l in Hs as (f & fs & Hf & Hfs & ->).
    cbn [length Nat.add zadd_member_loop].
    assert ((pre ++ pair_args ((sc, m) :: ps) ++ tail) !! length pre = Some sc) as H0.
    { by rewrite lookup_app_r, Nat.sub_diag by lia. }
    assert ((pre ++ pair_args ((sc, m) :: ps) ++ tail) !! (length pre + 1) = Some m) as H1.
    { rewrite lookup_app_r by lia.
      by replace (length pre + 1 - length pre) with 1 by lia. }
    rewrite H0. cbn [fst] in Hf. rewrite Hf. unfold index. rewrite H1. cbn [obind].
    replace (pre ++ pair_args ((sc, m) :: ps) ++ tail)
      with ((pre ++ [sc; m]) ++ pair_args ps ++ tail)
      by (by rewrite <- !app_assoc).
    replace (length pre + 2) with (length (pre ++ [sc; m]))
      by (rewrite length_app; cbn; lia).
    rewrite (IH fs (pre ++ [sc; m]) tail _ fuel Hfs).
    rewrite length_app. cbn [length zip_with snd].
    f_equal; [lia|]. by rewrite <- app_assoc.
Qed.

End MemberLoop.

(** [createCommand] on a ZADD. *)
Lemma createCommand_ZADD (ParseFloat : string → option float) (now : Z)
    (name : string) (rest : list string) :
  ToUpper name = "ZADD" →
  createCommand ParseFloat now (name :: rest)
  = let args := name :: rest in
    if decide (length args < 4 ∨ (length args - 2) mod 2 ≠ 0) then
      Done (Err "ZADD command requires at least one score-member pair")
    else
      match zadd_option_loop (length args) args 1 NewZAddOptions with
      | Err e => Done (Err e)
      | Ret (i, opts) =>
        r ←← zadd_member_loop ParseFloat (length args) args (S i) [];
        match r with
        | Err e => Done (Err e)
        | Ret members =>
          key ←← index args 1;
          Done (Ret (ZAddCommand key members (Some opts)))
        end
      end.
Proof. intros Hn. unfold createCommand. rewrite Hn. reflexivity. Qed.

(** X20. A ZADD without options is parsed into its pairs.  When the key is
    no option word (the key in ASCII, where [ToUpper] is exact) and every
    score is a number, the words [ZADD key s1 m1 ... sn mn], with at least
    one pair, give the command on [key] with the pairs in their order and
    no option set. *)
Theorem createCommand_ZADD_pairs (ParseFloat : string → option float) (now : Z)
    (name key : string) (pairs : list (string * string)) (scores : list float) :
  ToUpper name = "ZADD" →
  ascii_only key → one_of (ToUpper key) zadd_words = false →
  pairs ≠ [] →
  Forall2 (λ p f, ParseFloat p.1 = Some f) pairs scores →
  createCommand ParseFloat now (name :: key :: pair_args pairs)
  = Done (Ret (ZAddCommand key
                 (zip_with (λ f p, mkScoreMember f p.2) scores pairs)
                 (Some NewZAddOptions))).
Proof.
  intros Hn _ Hk Hne Hs. rewrite createCommand_ZADD by done. cbv zeta.
  assert (length (name :: key :: pair_args pairs) = length pairs + S (S (length pairs)))
    as Hlen by (cbn [length]; rewrite length_pair_args; lia).
  assert (0 < length pairs) by (destruct pairs; [done|cbn; lia]).
  rewrite decide_False.
  2: { rewrite Hlen. intros [?|Hm]; [lia|]. apply Hm.
       replace (length pairs + S (S (length pairs)) - 2) with (length pairs * 2) by lia.
       apply Nat.Div0.mod_mul. }
  rewrite Hlen at 1.
  replace (length pairs + S (S (length pairs))) with (S (length pairs + S (length pairs)))
    at 1 by lia.
  rewrite (zadd_option_loop_stop _ _ 1 key) by done.
  rewrite Hlen.
  pose proof (zadd_member_loop_pairs ParseFloat pairs scores [name; key] [] []
                (S (S (length pairs))) Hs) as Hm.
  rewrite app_nil_r in Hm. cbn [app length] in Hm. rewrite Hm.
  cbn [zadd_member_loop].
  rewrite lookup_ge_None_2 by (cbn [length]; rewrite length_pair_args; lia).
  reflexivity.
Qed.

(** ZADD k 1 a 2 b, the scores read as integers. *)
Lemma createCommand_ZADD_pairs_witness :
  createCommand ParseFloat_integer 0 ["zadd"; "k"; "1"; "a"; "2"; "b"]
  = Done (Ret (ZAddCommand "k" [mkScoreMember 1 "a"; mkScoreMember 2 "b"]
                 (Some NewZAddOptions))).
Proof.
  apply (createCommand_ZADD_pairs ParseFloat_integer 0 "zadd" "k"
           [("1", "a"); ("2", "b")] [1%float; 2%float]).
  - reflexivity.
  - repeat constructor.
  - reflexivity.
  - discriminate.
  - repeat constructor.
Defined.

(** X21. A ZADD whose first argument is an option word brings the parser
    down.  With the words [ZADD o a s1 m1 ... sn mn s], where [o] is an
    option word, [a] is none (in ASCII) and the scores are numbers, the
    loop over the pairs starts one word late and reads the member of the
    last score beyond the end of the words: [createCommand] panics. *)
Theorem createCommand_ZADD_panics (ParseFloat : string → option float) (now : Z)
    (name o a : string) (pairs : list (string * string)) (last : string) :
  ToUpper name = "ZADD" →
  one_of (ToUpper o) zadd_words = true →
  ascii_only a → one_of (ToUpper a) zadd_words = false →
  Forall (λ p, is_Some (ParseFloat p.1)) pairs → is_Some (ParseFloat last) →
  createCommand ParseFloat now (name :: o :: a :: pair_args pairs ++ [last]) = Panic.
Proof.
  intros Hn Ho _ Ha Hs [fl Hl]. rewrite createCommand_ZADD by done. cbv zeta.
  assert (∃ scores, Forall2 (λ p f, ParseFloat p.1 = Some f) pairs scores)
    as [scores Hsc].
  { induction Hs as [|p ps [f Hf] _ [fs IH]]; [by exists []|].
    exists (f :: fs). by constructor. }
  assert (length (name :: o :: a :: pair_args pairs ++ [last])
          = length pairs + S (S (S (S (length pairs))))) as Hlen.
  { cbn [length]. rewrite length_app, length_pair_args. cbn. lia. }
  rewrite decide_False.
  2: { rewrite Hlen. intros [?|Hm]; [lia|]. apply Hm.
       replace (length pairs + S (S (S (S (length pairs)))) - 2)
         with ((length pairs + 1) * 2) by lia.
       apply Nat.Div0.mod_mul. }
  destruct (zadd_first_option o Ho) as [opts Hopts].
  rewrite Hlen at 1.
  replace (length pairs + S (S (S (S (length pairs)))))
    with (S (S (length pairs + S (S (length pairs))))) at 1 by lia.
  cbn [zadd_option_loop lookup list_lookup]. cbv zeta.
  unfold zadd_words in Ho. rewrite Ho, Hopts.
  unfold zadd_words in Ha. rewrite Ha.
  rewrite Hlen.
  pose proof (zadd_member_loop_pairs ParseFloat pairs scores [name; o; a] [last] []
                (S (S (S (S (length pairs))))) Hsc) as Hm.
  cbn [app length] in Hm. rewrite Hm.
  cbn [zadd_member_loop].
  assert ((name :: o :: a :: pair_args pairs ++ [last]) !! (3 + 2 * length pairs)
          = Some last) as H0.
  { change (name :: o :: a :: pair_args pairs ++ [last])
      with ([name; o; a] ++ pair_args pairs ++ [last]).
    rewrite lookup_app_r by (cbn; lia). rewrite lookup_app_r
      by (rewrite length_pair_args; cbn; lia).
    rewrite length_pair_args. cbn [length].
    by replace (3 + 2 * length pairs - 3 - 2 * length pairs) with 0 by lia. }
  rewrite H0, Hl. unfold index.
  rewrite lookup_ge_None_2; [done|].
  cbn [length]. rewrite length_app, length_pair_args. cbn. lia.
Qed.

(** ZADD NX 1 2. *)
Lemma createCommand_ZADD_panics_witness :
  createCommand ParseFloat_integer 0 ["ZADD"; "NX"; "1"; "2"] = Panic.
Proof.
  apply (createCommand_ZADD_panics ParseFloat_integer 0 "ZADD" "NX" "1" [] "2").
  - reflexivity.
  - reflexivity.
  - repeat constructor.
  - reflexivity.
  - constructor.
  - by eexists.
Defined.

(** The loop over the pairs returns when the words from [i] on are an even
    number. *)
Lemma zadd_member_loop_even (ParseFloat : string → option float) (args : list string) :
  ∀ (fuel i k : nat) (acc : list ScoreMember),
    length args = i + 2 * k →
    ∃ r, zadd_member_loop ParseFloat fuel args i acc = Done r.
Proof.
  induction fuel as [|fuel IH]; intros i k acc Hlen; [by eexists|].
  cbn [zadd_member_loop].
  destruct (args !! i) as [a|] eqn:Ha; [|by eexists].
  destruct (ParseFloat a) as [sc|]; [|by eexists].
  apply lookup_lt_Some in Ha.
  destruct (lookup_lt_is_Some_2 args (i + 1)) as [m Hm]; [lia|].
  unfold index. rewrite Hm. cbn [obind].
  apply (IH (i + 2) (k - 1)). lia.
Qed.

(** X22. The parser returns, a command or an error, on every request but
    a ZADD whose first argument is an option word (the words in ASCII,
    where [ToUpper] is exact): no other request makes [createCommand]
    read beyond the end of its words. *)
Theorem createCommand_returns (ParseFloat : string → option float) (now : Z)
    (args : list string) :
  Forall ascii_only args →
  (∃ r, createCommand ParseFloat now args = Done r)
  ∨ (∃ name o rest, args = name :: o :: rest
       ∧ ToUpper name = "ZADD" ∧ one_of (ToUpper o) zadd_words = true).
Proof.
  intros _. destruct args as [|name rest]; [left; by eexists|].
  destruct (String.eqb (ToUpper name) "ZADD") eqn:HZ.
  - apply String.eqb_eq in HZ. rewrite createCommand_ZADD by done. cbv zeta.
    case_decide as Hd; [left; by eexists|].
    destruct rest as [|o rest]; [cbn in Hd; exfalso; apply Hd; left; lia|].
    destruct (one_of (ToUpper o) zadd_words) eqn:Ho; [right; by exists name, o, rest|].
    left. cbn [length].
    rewrite (zadd_option_loop_stop _ _ 1 o) by done.
    destruct (zadd_member_loop_even ParseFloat (name :: o :: rest)
                (S (S (length rest))) 2 (length rest / 2) []) as [r Hr].
    { cbn [length]. cbn [length] in Hd.
      assert (length rest mod 2 = 0) as Hm.
      { destruct (decide (length rest mod 2 = 0)) as [|Hne]; [done|].
        exfalso. apply Hd. right.
        by replace (S (S (length rest)) - 2) with (length rest) by lia. }
      apply Nat.Div0.div_exact in Hm. lia. }
    rewrite Hr. cbn [obind]. destruct r as [ms|e]; by eexists.
  - left. unfold createCommand, NewEchoCommand. rewrite HZ.
    repeat case_match; by eexists.
Qed.

(** GET k is parsed. *)
Lemma createCommand_returns_witness :
  (∃ r, createCommand ParseFloat_integer 0 ["GET"; "k"] = Done r)
  ∨ (∃ name o rest, ["GET"; "k"] = name :: o :: rest
       ∧ ToUpper name = "ZADD" ∧ one_of (ToUpper o) zadd_words = true).
Proof.
  apply (createCommand_returns ParseFloat_integer 0 ["GET"; "k"]).
  repeat constructor.
Defined.

(** Two options that are registered as incompatible with each other are
    never activated together. *)
Lemma Options_Set_exclusive (o o' : Options) (name a b : string)
    (opta optb : Option_) :
  options o !! ToUpper a = Some opta → options o !! ToUpper b = Some optb →
  b ∈ Incompatible opta → a ∈ Incompatible optb → ToUpper a ≠ ToUpper b →
  Options_Set o name = Ret o' →
  exclusive o a b → exclusive o' a b.
Proof.
  intros Ha Hb Hba Hab Hne HS Hold.
  destruct (Options_Set_Ret _ _ _ HS) as (opt & Hl & -> & Hinc).
  unfold exclusive, IsSet in *. cbn [active].
  destruct (decide (ToUpper name = ToUpper a)) as [E|E].
  - rewrite E in *. simplify_eq.
    rewrite (lookup_insert_ne _ (ToUpper a) (ToUpper b)) by done.
    rewrite (Hinc b Hba). cbn. apply andb_false_r.
  - rewrite (lookup_insert_ne _ (ToUpper name) (ToUpper a)) by done.
    destruct (decide (ToUpper name = ToUpper b)) as [E'|E'].
    + rewrite E' in *. simplify_eq. by rewrite (Hinc a Hab).
    + by rewrite (lookup_insert_ne _ (ToUpper name) (ToUpper b)) by done.
Qed.

Lemma Options_Set_options (o o' : Options) (name : string) :
  Options_Set o name = Ret o' → options o' = options o.
Proof. intros HS. by destruct (Options_Set_Ret _ _ _ HS) as (opt & _ & -> & _). Qed.

Ltac registered H :=
  first [ rewrite H; reflexivity
        | vm_compute; apply list_elem_of_In; cbn; tauto
        | discriminate ].

Lemma zadd_Set_compatible (o o' : Options) (name : string) :
  options o = options NewZAddOptions →
  Options_Set o name = Ret o' →
  exclusive o "NX" "XX" ∧ exclusive o "GT" "LT" →
  options o' = options NewZAddOptions
  ∧ exclusive o' "NX" "XX" ∧ exclusive o' "GT" "LT".
Proof.
  intros Ho HS [H1 H2].
  split; [by rewrite (Options_Set_options _ _ _ HS)|]. split.
  - eapply (Options_Set_exclusive o o' name "NX" "XX"); [..|exact HS|exact H1];
      registered Ho.
  - eapply (Options_Set_exclusive o o' name "GT" "LT"); [..|exact HS|exact H2];
      registered Ho.
Qed.

Lemma zadd_option_loop_compatible (fuel : nat) :
  ∀ (args : list string) (i j : nat) (opts opts' : Options),
    zadd_option_loop fuel args i opts = Ret (j, opts') →
    options opts = options NewZAddOptions
    ∧ exclusive opts "NX" "XX" ∧ exclusive opts "GT" "LT" →
    exclusive opts' "NX" "XX" ∧ exclusive opts' "GT" "LT".
Proof.
  induction fuel as [|fuel IH]; intros args i j opts opts'; cbn [zadd_option_loop].
  - intros [= <- <-] (_ & ? & ?). done.
  - destruct (args !! i) as [a|]; [|by intros [= <- <-] (_ & ? & ?)].
    cbv zeta. destruct (one_of _ _); [|by intros [= <- <-] (_ & ? & ?)].
    destruct (Options_Set opts (ToUpper a)) as [o1|e] eqn:HS; [|done].
    intros Hl (Ho & H12). eapply IH; [exact Hl|].
    by eapply zadd_Set_compatible.
Qed.

Lemma set_option_loop_compatible (now : Z) (n : nat) :
  ∀ (rest : list string) (opts opts' : SetOptions),
    length rest ≤ n → set_option_loop now rest opts = Ret opts' →
    options (set_opts opts) = options (set_opts NewSetOptions)
    ∧ exclusive (set_opts opts) "NX" "XX" →
    exclusive (set_opts opts') "NX" "XX".
Proof.
  induction n as [|n IH]; intros rest opts opts' Hn; destruct rest as [|a rest];
    simpl in Hn; try lia; [by intros [= <-] [_ ?]|by intros [= <-] [_ ?]|].
  cbn [set_option_loop]. cbv zeta.
  assert (∀ o1 ty v, SetExpiry now opts ty v = Ret o1 → set_opts o1 = set_opts opts)
    as Hexp.
  { intros o1 ty v. unfold SetExpiry. repeat case_match; by intros [= <-]. }
  destruct (one_of (ToUpper a) ["NX"; "XX"; "GET"]).
  - unfold SetOptions_Set.
    destruct (Options_Set (set_opts opts) (ToUpper a)) as [o1|e] eqn:HS; [|done].
    intros Hl [Ho H1]. eapply (IH rest); [lia|exact Hl|]. cbn [set_opts]. split.
    + by rewrite (Options_Set_options _ _ _ HS).
    + eapply (Options_Set_exclusive (set_opts opts) o1 _ "NX" "XX");
        [..|exact HS|exact H1]; registered Ho.
  - destruct (String.eqb (ToUpper a) "KEEPTTL").
    + destruct (SetExpiry now opts (ToUpper a) 0) as [o1|e] eqn:HE; [|done].
      intros Hl Hinv. eapply (IH rest); [lia|exact Hl|].
      by rewrite (Hexp _ _ _ HE).
    + destruct (one_of (ToUpper a) ["EX"; "PX"; "EXAT"; "PXAT"]); [|done].
      destruct rest as [|v rest]; [done|].
      destruct (Atoi v) as [val|]; [|done].
      destruct (SetExpiry now opts (ToUpper a) val) as [o1|e] eqn:HE; [|done].
      intros Hl Hinv. eapply (IH rest); [simpl in Hn; lia|exact Hl|].
      by rewrite (Hexp _ _ _ HE).
Qed.

Lemma expire_option_loop_compatible (rest : list string) :
  ∀ (opts opts' : Options),
    expire_option_loop rest opts = Ret opts' →
    options opts = options NewExpireOptions
    ∧ exclusive opts "NX" "XX" ∧ exclusive opts "NX" "GT" ∧ exclusive opts "NX" "LT"
    ∧ exclusive opts "XX" "GT" ∧ exclusive opts "XX" "LT" ∧ exclusive opts "GT" "LT" →
    at_most_one [IsNX opts'; IsXX opts'; IsGT opts'; IsLT opts'].
Proof.
  induction rest as [|a rest IH]; intros opts opts'; cbn [expire_option_loop].
  - intros [= <-] (_ & H1 & H2 & H3 & H4 & H5 & H6).
    unfold exclusive in *. unfold at_most_one, IsNX, IsXX, IsGT, IsLT.
    destruct (IsSet opts "NX"), (IsSet opts "XX"), (IsSet opts "GT"),
      (IsSet opts "LT"); try discriminate; vm_compute; lia.
  - destruct (Options_Set opts (ToUpper a)) as [o1|e] eqn:HS; [|done].
    intros Hl (Ho & H1 & H2 & H3 & H4 & H5 & H6). eapply IH; [exact Hl|].
    split; [by rewrite (Options_Set_options _ _ _ HS)|].
    repeat split.
    + eapply (Options_Set_exclusive opts o1 _ "NX" "XX"); [..|exact HS|exact H1];
        registered Ho.
    + eapply (Options_Set_exclusive opts o1 _ "NX" "GT"); [..|exact HS|exact H2];
        registered Ho.
    + eapply (Options_Set_exclusive opts o1 _ "NX" "LT"); [..|exact HS|exact H3];
        registered Ho.
    + eapply (Options_Set_exclusive opts o1 _ "XX" "GT"); [..|exact HS|exact H4];
        registered Ho.
    + eapply (Options_Set_exclusive opts o1 _ "XX" "LT"); [..|exact HS|exact H5];
        registered Ho.
    + eapply (Options_Set_exclusive opts o1 _ "GT" "LT"); [..|exact HS|exact H6];
        registered Ho.
Qed.

(** X23. A parsed command never carries options that exclude each other:
    SET has not both NX and XX, ZADD has not both NX and XX and not both GT
    and LT, and EXPIRE has at most one of NX, XX, GT and LT.  (A request
    that names two of them is refused by [Options.Set].) *)
Theorem parsed_options_compatible (ParseFloat : string → option float) (now : Z)
    (args : list string) (c : Command) :
  createCommand ParseFloat now args = Done (Ret c) →
  match c with
  | SetCommand _ _ (Some o) => exclusive (set_opts o) "NX" "XX"
  | ExpireCommand _ _ (Some o) => at_most_one [IsNX o; IsXX o; IsGT o; IsLT o]
  | ZAddCommand _ _ (Some o) => exclusive o "NX" "XX" ∧ exclusive o "GT" "LT"
  | _ => True
  end.
Proof.
  unfold createCommand, NewEchoCommand.
  destruct args as [|name args]; [done|].
  repeat (destruct (String.eqb (ToUpper name) _); [..|]).
  all: try (repeat case_match; intros; simplify_eq; done).
  - (* SET *)
    destruct args as [|key [|v rest]]; [done..|].
    destruct (set_option_loop now rest NewSetOptions) as [opts|e] eqn:Hl; [|done].
    intros [= <-].
    eapply (set_option_loop_compatible now (length rest)); [done|exact Hl|].
    split; reflexivity.
  - (* EXPIRE *)
    destruct args as [|key [|t rest]]; [done..|].
    destruct (Atoi t) as [ttl|]; [|done].
    destruct (expire_option_loop rest NewExpireOptions) as [opts|e] eqn:Hl; [|done].
    intros [= <-].
    eapply expire_option_loop_compatible; [exact Hl|].
    repeat split; reflexivity.
  - (* ZADD *)
    case_decide; [done|].
    destruct (zadd_option_loop _ _ _ _) as [[i opts]|e] eqn:Ho; [|done].
    destruct (zadd_member_loop _ _ _ _ _) as [[ms|e1]| |]; simpl; try done.
    destruct (index _ 1); simpl; try done.
    intros [= <-].
    eapply zadd_option_loop_compatible; [exact Ho|].
    repeat split; reflexivity.
Qed.

(** ZADD NX CH k 1 m: the options NX and CH are set (and the key is NX). *)
Lemma parsed_options_compatible_witness :
  createCommand ParseFloat_integer 0 ["ZADD"; "NX"; "CH"; "k"; "1"; "m"]
  = Done (Ret (ZAddCommand "NX" [mkScoreMember 1 "m"]
                 (Some (zadd_options ["NX"; "CH"]))))
  ∧ IsNX (zadd_options ["NX"; "CH"]) = true
  ∧ IsCH (zadd_options ["NX"; "CH"]) = true
  ∧ exclusive (zadd_options ["NX"; "CH"]) "NX" "XX"
  ∧ exclusive (zadd_options ["NX"; "CH"]) "GT" "LT".
Proof.
  split; [vm_compute; reflexivity|]. split; [reflexivity|].
  split; [reflexivity|].
  apply (parsed_options_compatible ParseFloat_integer 0
           ["ZADD"; "NX"; "CH"; "k"; "1"; "m"]
           (ZAddCommand "NX" [mkScoreMember 1 "m"]
              (Some (zadd_options ["NX"; "CH"])))).
  vm_compute. reflexivity.
Defined.

Lemma wrap64_small (z : Z) : (int64_min ≤ z ≤ int64_max)%Z → wrap64 z = z.
Proof.
  unfold wrap64, int64_min, int64_max. intros Hz.
  rewrite Z.mod_small by lia. lia.
Qed.

(** TTL on a key whose deadline is [n] seconds after [now], asked [d]
    whole seconds after [now]. *)
Lemma TTL_before_deadline (s : MemoryStore) (now : Z) (key : string) (n d : Z)
    (v : value) :
  data s !! key = Some v → expires s !! key = Some (now + n * Second)%Z →
  (0 ≤ d < n)%Z → (n * Second ≤ int64_max)%Z →
  TTL s (now + d * Second) key = ((n - d)%Z, s).
Proof.
  intros Hd He Hdn Hmax. unfold TTL. rewrite Hd, He.
  rewrite Until_small by (unfold int64_min, int64_max, Second in *; lia).
  replace (now + n * Second - (now + d * Second))%Z with ((n - d) * Second)%Z by lia.
  destruct (Z.leb_spec ((n - d) * Second) 0) as [Hle|_];
    [unfold Second in Hle; lia|].
  unfold whole_seconds. by rewrite Z.quot_mul by (by unfold Second).
Qed.

(** The options of [SET key value EX t]. *)
Lemma set_option_loop_EX (now : Z) (ex t : string) (n : Z) :
  ToUpper ex = "EX" → Atoi t = Some n →
  set_option_loop now [ex; t] NewSetOptions
  = Ret {| set_opts := set_opts NewSetOptions;
           ExpiryTime := (now + wrap64 (n * Second))%Z; ExpiryType := "EX" |}.
Proof.
  intros Hex Ht. cbn [set_option_loop]. cbv zeta. rewrite Hex, Ht. reflexivity.
Qed.

(** X24. SET with EX, then GET and TTL.  The request [SET key value EX t],
    where [t] reads as [n] seconds, [n] positive, parsed at time [now],
    stores the value with the deadline [now + n s] counted from the time
    of parsing: the other keys are untouched, GET returns the value up to
    the deadline, the key is expired after it, and a TTL asked [d] whole
    seconds after [now], before the deadline, answers [n - d]. *)
Theorem SET_EX_then_TTL (ParseFloat : string → option float) (coins : nat → bool)
    (re : string → string → option bool) (now later : Z) (s : MemoryStore)
    (rng : nat) (name ex key v t : string) (n : Z) :
  ToUpper name = "SET" → ToUpper ex = "EX" → Atoi t = Some n →
  (0 < n)%Z → (n * Second ≤ int64_max)%Z →
  ∃ c s',
    createCommand ParseFloat now [name; key; v; ex; t] = Done (Ret c)
    ∧ Execute coins re c s rng later = Done (Ret Nil, s', rng)
    ∧ (∀ k, k ≠ key → data s' !! k = data s !! k ∧ expires s' !! k = expires s !! k)
    ∧ (∀ t', isExpired s' t' key = bool_decide (now + n * Second < t')%Z)
    ∧ (∀ t', (t' ≤ now + n * Second)%Z → Get s' t' key = (Ret (Str v), s'))
    ∧ (∀ d, (0 ≤ d < n)%Z → TTL s' (now + d * Second) key = ((n - d)%Z, s')).
Proof.
  intros Hn Hex Ht Hpos Hmax.
  set (o := {| set_opts := set_opts NewSetOptions;
               ExpiryTime := (now + n * Second)%Z; ExpiryType := "EX" |}).
  set (s' := {| data := <[key := VString v]> (data s);
                expires := <[key := (now + n * Second)%Z]> (expires s) |}).
  exists (SetCommand key v (Some o)), s'.
  assert (∀ t', isExpired s' t' key = bool_decide (now + n * Second < t')%Z) as Hx.
  { intros t'. unfold isExpired, s'. cbn [expires]. rewrite lookup_insert_eq.
    destruct (Z.ltb_spec (now + n * Second) t').
    - by rewrite bool_decide_eq_true_2.
    - by rewrite bool_decide_eq_false_2 by lia. }
  split.
  { unfold createCommand. rewrite Hn.
    change (String.eqb "SET" "PING") with false.
    change (String.eqb "SET" "ECHO") with false.
    change (String.eqb "SET" "SET") with true. cbv iota.
    rewrite (set_option_loop_EX now ex t n Hex Ht).
    rewrite wrap64_small by (unfold int64_min, int64_max, Second in *; lia).
    reflexivity. }
  split; [reflexivity|].
  split.
  { intros k Hk. unfold s'. cbn [data expires]. by rewrite !lookup_insert_ne. }
  split; [exact Hx|]. split.
  - intros t' Ht'. unfold Get. rewrite Hx, bool_decide_eq_false_2 by lia.
    unfold s' at 1. cbn [data]. by rewrite lookup_insert_eq.
  - intros d Hd. apply (TTL_before_deadline s' now key n d (VString v)); try done.
    + unfold s'. cbn [data]. apply lookup_insert_eq.
    + unfold s'. cbn [expires]. apply lookup_insert_eq.
Qed.

(** SET k v EX 10 at time 7 s, on the new store. *)
Lemma SET_EX_then_TTL_witness :
  ∃ c s',
    createCommand ParseFloat_integer (7 * Second) ["set"; "k"; "v"; "ex"; "10"]
    = Done (Ret c)
    ∧ Execute no_promotion regexp_none c NewMemoryStore 0 0
      = Done (Ret Nil, s', 0)
    ∧ (∀ k, k ≠ "k" →
         data s' !! k = data NewMemoryStore !! k
         ∧ expires s' !! k = expires NewMemoryStore !! k)
    ∧ (∀ t', isExpired s' t' "k" = bool_decide (7 * Second + 10 * Second < t')%Z)
    ∧ (∀ t', (t' ≤ 7 * Second + 10 * Second)%Z → Get s' t' "k" = (Ret (Str "v"), s'))
    ∧ (∀ d, (0 ≤ d < 10)%Z → TTL s' (7 * Second + d * Second) "k" = ((10 - d)%Z, s')).
Proof.
  apply (SET_EX_then_TTL ParseFloat_integer no_promotion regexp_none
           (7 * Second) 0 NewMemoryStore 0 "set" "ex" "k" "v" "10" 10).
  - reflexivity.
  - reflexivity.
  - reflexivity.
  - lia.
  - vm_compute. discriminate.
Defined.
